(** * Dithering renderer of the static site: a shallow embedding

    The development follows [static/app.8212c0a7.js]:

    - [Color]: the two hex colour parsers ([parseHexColor], [hexToRgb]);
    - [Easing] and [Double]: the scroll-progress easing of [updateWarmth]
      and [updateScrollProgress], in exact arithmetic and as the script
      computes it;
    - [DitherParam]: the lookup of the [dither] query parameter in the
      [ditherModes] object;
    - [Texture]: typed arrays, the constant threshold tables and the two
      threshold-texture generators;
    - [Script]: the bodies of the two generators as programs over the
      calls that they make on the global objects;
    - [Shader]: the GLSL helper functions and the dither dispatch of the
      two fragment shaders;
    - [Header] and [Image]: the life cycle (init, cleanup, render) of the
      header surface and of a dithered-image surface;
    - [Warmth], [Scroll] and [Cover]: the colours derived from the scroll
      position, the scroll effect of the header and the texture
      coordinates of its source.

    Numbers.  JavaScript numbers and GLSL floats are embedded as exact
    rationals ([Q]), with three exceptions.  [Double] computes the easing
    on IEEE-754 binary64 values, where rounding decides the property at
    stake.  The generator of the blue noise goes through [Math.cos],
    [Math.sin] and an R2 sequence that depend on rounding, so its
    arithmetic is a parameter ([Texture.JSMath]), as is the GLSL [sin] of
    the image shader. *)

From Stdlib Require Import ZArith QArith Qround Qminmax Lia Lqa.
From Stdlib Require Import List String Ascii Permutation Sorted.
From Stdlib Require Floats.
From stdpp Require Import base list gmap strings.

Local Open Scope Z_scope.

(* ===================================================================== *)
(** * Hex colour parsing *)
(* ===================================================================== *)

Module Color.

(** A JavaScript number that may be [NaN]: [None] is [NaN].  The sign of
    zero is not tracked. *)
Definition num : Type := option Q.

Definition num_div (a : num) (d : Q) : num :=
  match a with
  | Some x => Some (x / d)%Q
  | None => None
  end.

(** White space of [String.prototype.trim] and of [parseInt] among the code
    units below 256: TAB, LF, VT, FF, CR, SPACE and NO-BREAK SPACE. *)
Definition is_ws (c : ascii) : bool :=
  let n := Z.of_N (N_of_ascii c) in
  ((9 <=? n) && (n <=? 13)) || (n =? 32) || (n =? 160).

Fixpoint trim_start (s : string) : string :=
  match s with
  | EmptyString => EmptyString
  | String c s' => if is_ws c then trim_start s' else s
  end.

Fixpoint trim_end (s : string) : string :=
  match s with
  | EmptyString => EmptyString
  | String c s' =>
      match trim_end s' with
      | EmptyString => if is_ws c then EmptyString else String c EmptyString
      | t => String c t
      end
  end.

(** [s.trim()] *)
Definition trim (s : string) : string := trim_end (trim_start s).

(** [s.replace(c, '')] with a string pattern: only the first occurrence of
    [c] is removed. *)
Fixpoint remove_first (c : ascii) (s : string) : string :=
  match s with
  | EmptyString => EmptyString
  | String d s' => if Ascii.eqb c d then s' else String d (remove_first c s')
  end.

(** [s.slice(a, b)] for [0 <= a <= b]; it clips at the end of [s]. *)
Definition slice (a b : nat) (s : string) : string := substring a (b - a) s.

Definition hex_digit (c : ascii) : option Z :=
  let n := Z.of_N (N_of_ascii c) in
  if (48 <=? n) && (n <=? 57) then Some (n - 48)
  else if (97 <=? n) && (n <=? 102) then Some (n - 87)
  else if (65 <=? n) && (n <=? 70) then Some (n - 55)
  else None.

Definition is_hex_digit (c : ascii) : bool :=
  match hex_digit c with Some _ => true | None => false end.

(** The longest prefix of radix-16 digits, read as an integer; [acc] is
    [None] as long as no digit has been read. *)
Fixpoint hex_prefix (s : string) (acc : option Z) : option Z :=
  match s with
  | EmptyString => acc
  | String c r =>
      match hex_digit c with
      | Some d =>
          hex_prefix r (Some (16 * (match acc with Some a => a | None => 0 end) + d))
      | None => acc
      end
  end.

(** [parseInt(s, 16)]: leading white space is skipped, then an optional
    sign, then an optional [0x] or [0X]; the result is [NaN] when no digit
    follows. *)
Definition parseInt16 (s : string) : num :=
  let s1 := trim_start s in
  let '(sign, s2) :=
    match s1 with
    | String "-"%char r => (-1, r)
    | String "+"%char r => (1, r)
    | _ => (1, s1)
    end in
  let s3 :=
    match s2 with
    | String "0"%char (String "x"%char r) => r
    | String "0"%char (String "X"%char r) => r
    | _ => s2
    end in
  match hex_prefix s3 None with
  | Some v => Some (inject_Z (sign * v))
  | None => None
  end.

(** [if (hex.length === 3) hex = hex[0]+hex[0]+hex[1]+hex[1]+hex[2]+hex[2]] *)
Definition expand_shorthand (hex : string) : string :=
  match hex with
  | String a (String b (String c EmptyString)) =>
      String a (String a (String b (String b (String c (String c EmptyString)))))
  | _ => hex
  end.

(** [parseHexColor]: components in the range 0-1. *)
Definition parseHexColor (hex : string) : list num :=
  let hex := remove_first "#"%char (trim hex) in
  let hex := expand_shorthand hex in
  [ num_div (parseInt16 (slice 0 2 hex)) 255;
    num_div (parseInt16 (slice 2 4 hex)) 255;
    num_div (parseInt16 (slice 4 6 hex)) 255 ].

(** [hexToRgb]: components in the range 0-255. *)
Definition hexToRgb (hex : string) : list num :=
  let hex := remove_first "#"%char (trim hex) in
  let hex := expand_shorthand hex in
  [ parseInt16 (slice 0 2 hex);
    parseInt16 (slice 2 4 hex);
    parseInt16 (slice 4 6 hex) ].

(** The three-digit form [abc] and the six-digit form [aabbcc]. *)
Definition short_form (a b c : ascii) : string :=
  String a (String b (String c EmptyString)).

Definition long_form (a b c : ascii) : string :=
  String a (String a (String b (String b (String c (String c EmptyString))))).

Definition with_hash (s : string) : string := String "#"%char s.

End Color.

(* ===================================================================== *)
(** * Scroll-progress easing *)
(* ===================================================================== *)

Module Easing.

Local Open Scope Q_scope.

(** The value of
    [p = Math.min(1.0, scrollY / scrollDistance); p * p * (3 - 2 * p)]
    in exact arithmetic; [Double.ease] below is the computation of the
    script. *)
Definition ease (scrollY scrollDistance : Q) : Q :=
  let progress := Qmin 1 (scrollY / scrollDistance) in
  progress * progress * (3 - 2 * progress).

(** [updateWarmth]: the distance is 30% of the header height. *)
Definition updateWarmth (headerHeight scrollY : Q) : Q :=
  let scrollDistance := headerHeight * 0.3 in
  ease scrollY scrollDistance.

(** [updateScrollProgress]: the header height is that of [.header-image]
    when the element exists and 256 otherwise. *)
Definition updateScrollProgress (header : option Q) (scrollY : Q) : Q :=
  let headerHeight := match header with Some h => h | None => 256 end in
  let warmthDistance := headerHeight * 0.3 in
  ease scrollY warmthDistance.

End Easing.

(* ===================================================================== *)
(** * The easing in double precision *)
(* ===================================================================== *)

(** The numbers of a script are IEEE-754 binary64 values, and its
    arithmetic rounds to nearest, ties to even: the kernel's [float] and
    its operations. *)
Module Double.
Import Floats.

Local Open Scope float_scope.
#[local] Set Warnings "-inexact-float".

(** [Math.min(a, b)]: [NaN] when an argument is [NaN]; of the two zeros the
    negative one is the smaller. *)
Definition Math_min (a b : float) : float :=
  if PrimFloat.is_nan a || PrimFloat.is_nan b then nan
  else if a <? b then a
  else if b <? a then b
  else if PrimFloat.is_zero a then (if PrimFloat.get_sign a then a else b)
  else a.

(** [p = Math.min(1.0, scrollY / scrollDistance); p * p * (3 - 2 * p)] *)
Definition ease (scrollY scrollDistance : float) : float :=
  let progress := Math_min 1 (scrollY / scrollDistance) in
  progress * progress * (3 - 2 * progress).

(** [updateWarmth] *)
Definition updateWarmth (headerHeight scrollY : float) : float :=
  let scrollDistance := headerHeight * 0.3 in
  ease scrollY scrollDistance.

(** [updateScrollProgress] *)
Definition updateScrollProgress (header : option float) (scrollY : float) : float :=
  let headerHeight := match header with Some h => h | None => 256 end in
  let warmthDistance := headerHeight * 0.3 in
  ease scrollY warmthDistance.


End Double.

(* ===================================================================== *)
(** * Selection of the dither mode from the query string *)
(* ===================================================================== *)

Module DitherParam.

Local Open Scope string_scope.

(** The JavaScript values that a property read on [ditherModes] can
    return. *)
Inductive value : Type :=
| VUndefined
| VNull
| VNumber (n : Z)
| VFunction (name : string)
| VObject (name : string).

(** An ordinary object: its own properties and the properties it inherits
    from its prototype. *)
Record object : Type := {
  own : gmap string value;
  proto : gmap string value
}.

(** The properties of [Object.prototype] (ECMA-262, with Annex B), as seen
    by a property read on an object literal. *)
Definition Object_prototype : gmap string value :=
  <["constructor" := VFunction "Object"]>
  (<["hasOwnProperty" := VFunction "hasOwnProperty"]>
  (<["isPrototypeOf" := VFunction "isPrototypeOf"]>
  (<["propertyIsEnumerable" := VFunction "propertyIsEnumerable"]>
  (<["toLocaleString" := VFunction "toLocaleString"]>
  (<["toString" := VFunction "toString"]>
  (<["valueOf" := VFunction "valueOf"]>
  (<["__proto__" := VObject "Object.prototype"]>
  (<["__defineGetter__" := VFunction "__defineGetter__"]>
  (<["__defineSetter__" := VFunction "__defineSetter__"]>
  (<["__lookupGetter__" := VFunction "__lookupGetter__"]>
  (<["__lookupSetter__" := VFunction "__lookupSetter__"]> ∅))))))))))).

(** [{ gaussian: 0, atkinson: 1, noise: 2, bluenoise: 3, cluster2: 4,
       cluster4: 5, cluster8: 6, cluster16: 7 }] *)
Definition ditherModes : object :=
  {| own :=
       <["gaussian" := VNumber 0]>
       (<["atkinson" := VNumber 1]>
       (<["noise" := VNumber 2]>
       (<["bluenoise" := VNumber 3]>
       (<["cluster2" := VNumber 4]>
       (<["cluster4" := VNumber 5]>
       (<["cluster8" := VNumber 6]>
       (<["cluster16" := VNumber 7]> ∅)))))));
     proto := Object_prototype |}.

(** [o[key]]: own property first, then the prototype, else [undefined]. *)
Definition get (o : object) (key : string) : value :=
  match own o !! key with
  | Some v => v
  | None =>
      match proto o !! key with
      | Some v => v
      | None => VUndefined
      end
  end.

(** [urlParams.get('dither')] is a string, or [null] when the parameter is
    absent; as a property key [null] is the string ["null"]. *)
Definition property_key (param : option string) : string :=
  match param with
  | Some s => s
  | None => "null"
  end.

(** [a ?? b] *)
Definition nullish (a b : value) : value :=
  match a with
  | VUndefined | VNull => b
  | _ => a
  end.

(** [ditherModes[ditherParam] ?? ditherModes[DEFAULT_DITHER]] *)
Definition ditherMode (DEFAULT_DITHER : string) (ditherParam : option string) : value :=
  nullish (get ditherModes (property_key ditherParam))
          (get ditherModes DEFAULT_DITHER).

(** The header renderer: [DEFAULT_DITHER = 'atkinson']. *)
Definition header_ditherMode : option string -> value := ditherMode "atkinson".

(** Inline dithered images: [DEFAULT_DITHER = 'cluster4']. *)
Definition image_ditherMode : option string -> value := ditherMode "cluster4".

(** The integer that [gl.uniform1i] stores for a value: a number is
    wrapped to 32 bits, [null] is 0, and [undefined], functions and plain
    objects convert to [NaN], which is stored as 0. *)
Definition uniform1i (v : value) : Z :=
  match v with
  | VNumber n => (n + 2147483648) mod 4294967296 - 2147483648
  | _ => 0
  end.

(** The eight names and the integer of each. *)
Definition named_modes : list (string * Z) :=
  [ ("gaussian", 0); ("atkinson", 1); ("noise", 2); ("bluenoise", 3);
    ("cluster2", 4); ("cluster4", 5); ("cluster8", 6); ("cluster16", 7) ].

End DitherParam.

(* ===================================================================== *)
(** * Threshold textures *)
(* ===================================================================== *)

Module Texture.

(** ** Typed arrays *)

(** A [Uint8Array] is the list of its elements. *)
Definition to_uint8 (v : Z) : Z := v mod 256.

(** [new Uint8Array(n)]: [n] zeros. *)
Definition u8_new (n : nat) : list Z := replicate n 0.

(** [a[i] = v]: the value is converted to a byte; a write outside the
    array is ignored. *)
Definition u8_set (a : list Z) (i : nat) (v : Z) : list Z :=
  <[i := to_uint8 v]> a.

(** [new Uint8Array([...])]: every element is converted. *)
Definition u8_of_list (l : list Z) : list Z := map to_uint8 l.

(** ** Constant tables *)

Definition bayer : list Z := u8_of_list
  [ 0; 128; 32; 160; 8; 136; 40; 168;
    192; 64; 224; 96; 200; 72; 232; 104;
    48; 176; 16; 144; 56; 184; 24; 152;
    240; 112; 208; 80; 248; 120; 216; 88;
    12; 140; 44; 172; 4; 132; 36; 164;
    204; 76; 236; 108; 196; 68; 228; 100;
    60; 188; 28; 156; 52; 180; 20; 148;
    252; 124; 220; 92; 244; 116; 212; 84 ].

Definition clustered8 : list Z := u8_of_list
  [ 252; 220; 184; 144; 140; 180; 216; 248;
    224; 164; 128; 84; 80; 124; 160; 212;
    188; 132; 60; 28; 24; 56; 120; 176;
    148; 88; 32; 4; 0; 20; 72; 136;
    152; 92; 36; 8; 12; 44; 96; 156;
    192; 116; 64; 40; 48; 76; 128; 196;
    228; 168; 108; 68; 88; 112; 172; 232;
    255; 236; 200; 160; 164; 204; 240; 255 ].

(** ** Sorting *)

(** [Array.prototype.sort] is stable.  With a compare function that orders
    the elements consistently, the result is the one of any stable sort;
    here, insertion from left to right, a new element going behind the
    elements it does not precede.  [before a b] stands for
    [compare(a, b) < 0]. *)
Section StableSort.
Context {A : Type} (before : A -> A -> bool).

Fixpoint sort_insert (x : A) (l : list A) : list A :=
  match l with
  | [] => [x]
  | y :: l' => if before x y then x :: l else y :: sort_insert x l'
  end.

Definition stable_sort (l : list A) : list A :=
  fold_left (fun acc x => sort_insert x acc) l [].
End StableSort.

(** ** Clustered dots *)

Record dist_entry : Type := { d_idx : nat; d_dist : Q }.

(** [center = (size - 1) / 2] *)
Definition center (size : nat) : Q := ((inject_Z (Z.of_nat size) - 1) / 2)%Q.

(** The square of [dist = Math.sqrt(dx * dx + dy * dy)].  The entries are
    only compared with each other, and the square root is strictly
    increasing, so the order of the distances is the order of their
    squares. *)
Definition dist_sq (size x y : nat) : Q :=
  let dx := (inject_Z (Z.of_nat x) - center size)%Q in
  let dy := (inject_Z (Z.of_nat y) - center size)%Q in
  (dx * dx + dy * dy)%Q.

(** The two nested loops that fill [distances], row by row. *)
Definition distances (size : nat) : list dist_entry :=
  flat_map
    (fun y => map (fun x => {| d_idx := y * size + x; d_dist := dist_sq size x y |})
                  (seq 0 size))
    (seq 0 size).

(** [(a, b) => a.dist - b.dist] is negative. *)
Definition dist_before (a b : dist_entry) : bool :=
  negb (Qle_bool (d_dist b) (d_dist a)).

(** [Math.floor((rank / n) * 255)] *)
Definition rank_value (rank n : nat) : Z :=
  Qfloor (inject_Z (Z.of_nat rank) / inject_Z (Z.of_nat n) * 255)%Q.

(** The loop over the ranks: [pixels[sorted[rank].idx] = ...]. *)
Definition assign_ranks {A : Type} (index : A -> nat) (value : nat -> Z)
    (sorted : list A) (pixels : list Z) : list Z :=
  fold_left (fun px re => u8_set px (index (snd re)) (value (fst re)))
            (combine (seq 0 (length sorted)) sorted) pixels.

Definition generateClusteredDot (size : nat) : list Z :=
  let pixels := u8_new (size * size) in
  let sorted := stable_sort dist_before (distances size) in
  assign_ranks d_idx (fun rank => rank_value rank (length sorted)) sorted pixels.

Definition clustered16 : list Z := generateClusteredDot 16.

(** The pixel [(x, y)] of a generated [size] by [size] texture. *)
Definition pixel_at (size : nat) (pixels : list Z) (x y : nat) : Z :=
  nth (y * size + x) pixels 0.

(** ** Blue noise *)

(** The double-precision operations that [generateBlueNoise] relies on.
    [Math.cos] and [Math.sin] are approximated by the engine, and the
    R2 sequence depends on rounding, so the arithmetic is a parameter. *)
Record JSMath : Type := {
  float : Type;
  lit : Q -> float;                      (* a literal, or an integer as a number *)
  f_add : float -> float -> float;
  f_sub : float -> float -> float;
  f_mul : float -> float -> float;
  f_div : float -> float -> float;
  f_rem : float -> float -> float;       (* [%] *)
  f_cos : float -> float;
  f_sin : float -> float;
  f_floor : float -> Z;                  (* [Math.floor] *)
  f_round : float -> Z;                  (* [Math.round] *)
  f_negative : float -> bool             (* [x < 0] *)
}.

Section BlueNoise.
Variable M : JSMath.

Record val_entry : Type := { v_idx : nat; v_val : float M }.

Definition lit_nat (n : nat) : float M := lit M (inject_Z (Z.of_nat n)).
Definition lit_Z (n : Z) : float M := lit M (inject_Z n).

Definition phi2 : float M := lit M 1.32471795724.
Definition a1 : float M := f_div M (lit M 1) phi2.
Definition a2 : float M := f_div M (lit M 1) (f_mul M phi2 phi2).

(** [(0.5 + a1 * x + a2 * y) % 1.0] with [x = i % size] and
    [y = Math.floor(i / size)]. *)
Definition r2 (size i : nat) : float M :=
  let x := (i mod size)%nat in
  let y := (i / size)%nat in
  f_rem M (f_add M (f_add M (lit M 0.5) (f_mul M a1 (lit_nat x)))
                   (f_mul M a2 (lit_nat y)))
          (lit M 1).

Definition values (size : nat) : list val_entry :=
  map (fun i => {| v_idx := i; v_val := r2 size i |}) (seq 0 (size * size)).

(** [(a, b) => a.val - b.val] is negative. *)
Definition val_before (a b : val_entry) : bool :=
  f_negative M (f_sub M (v_val a) (v_val b)).

(** [Math.floor((rank / n) * 255)] *)
Definition rank_byte (n rank : nat) : Z :=
  f_floor M (f_mul M (f_div M (lit_nat rank) (lit_nat n)) (lit M 255)).

(** [pixels[j]] for an integer [j]: [undefined] outside the array. *)
Definition u8_get (pixels : list Z) (j : Z) : option Z :=
  if j <? 0 then None else pixels !! Z.to_nat j.

(** One iteration of the inner refinement loop.  [Z.rem] is the
    remainder of [%], with the sign of the dividend. *)
Definition refine_step (size pass i : nat) (pixels : list Z) : list Z :=
  let n := (size * size)%nat in
  let x1 := Z.of_nat (i mod size) in
  let y1 := Z.of_nat (i / size) in
  let angle := f_mul M (lit_nat (pass * n + i)) (lit M 2.399963) in
  let radius := (2 + pass mod 3)%nat in
  let x2 := Z.rem (x1 + f_round M (f_mul M (f_cos M angle) (lit_nat radius))
                      + Z.of_nat size) (Z.of_nat size) in
  let y2 := Z.rem (y1 + f_round M (f_mul M (f_sin M angle) (lit_nat radius))
                      + Z.of_nat size) (Z.of_nat size) in
  let j := y2 * Z.of_nat size + x2 in
  if Z.of_nat i =? j then pixels
  else
    match u8_get pixels (Z.of_nat i), u8_get pixels j with
    | Some v1, Some v2 =>
        let diff := Z.abs (v1 - v2) in
        if (64 <? diff) && (diff <? 192)
        then u8_set (u8_set pixels i v2) (Z.to_nat j) v1
        else pixels
    | _, _ => pixels   (* [diff] is [NaN]: both comparisons fail *)
    end.

Definition refine_pass (size : nat) (pixels : list Z) (pass : nat) : list Z :=
  fold_left (fun px i => refine_step size pass i px) (seq 0 (size * size)) pixels.

Definition generateBlueNoise (size : nat) : list Z :=
  let n := (size * size)%nat in
  let pixels := u8_new n in
  let sorted := stable_sort val_before (values size) in
  let pixels := assign_ranks v_idx (rank_byte n) sorted pixels in
  fold_left (refine_pass size) (seq 0 8) pixels.

Definition blueNoiseTexture : list Z := generateBlueNoise 64.
End BlueNoise.

(** ** Observations on textures *)

(** Every element is a byte. *)
Definition is_bytes (l : list Z) : Prop := Forall (fun b => 0 <= b < 256) l.

(** The order in which [generateClusteredDot] sorts: by distance. *)
Definition by_distance (a b : dist_entry) : Prop := (d_dist a <= d_dist b)%Q.

(** The entry that the loops of [generateClusteredDot] push for the pixel
    [(x, y)]. *)
Definition entry_of (size x y : nat) : dist_entry :=
  {| d_idx := y * size + x; d_dist := dist_sq size x y |}.

End Texture.

(* ===================================================================== *)
(** * The generators as callers of the environment *)
(* ===================================================================== *)

(** The bodies of [generateBlueNoise] and [generateClusteredDot] once more,
    with every call on a global object made explicit, so that what a body
    asks of its environment can be read off it.  The arithmetic, the
    integer operations and the array operations are those of [Texture];
    [ScriptFacts.run_generateBlueNoise] and
    [ScriptFacts.run_generateClusteredDot] show that, run in the
    environment of an engine, the bodies return the textures of
    [Texture]. *)
Module Script.
Import Texture.

Section Programs.
Variable M : JSMath.

(** The functions of the global objects that a script can call.  The
    last four are the sources of entropy of a page: what they return is
    not a function of their arguments.  [Math.abs] is only applied to the
    difference of two array elements, an integer, or [NaN] when an element
    is [undefined]. *)
Inductive call : Type -> Type :=
| Math_floor (x : float M) : call Z
| Math_round (x : float M) : call Z
| Math_cos (x : float M) : call (float M)
| Math_sin (x : float M) : call (float M)
| Math_sqrt (x : float M) : call (float M)
| Math_abs (x : option Z) : call (option Z)
| Math_random : call (float M)
| Date_now : call (float M)
| performance_now : call (float M)
| crypto_getRandomValues (n : nat) : call (list Z).

Definition entropy {X : Type} (c : call X) : bool :=
  match c with
  | Math_random | Date_now | performance_now | crypto_getRandomValues _ => true
  | _ => false
  end.

(** A function body: it returns, or it calls a function of the
    environment and goes on with the result. *)
Inductive prog (R : Type) : Type :=
| Ret (r : R)
| Call {X : Type} (c : call X) (k : X -> prog R).
Arguments Ret {R} r.
Arguments Call {R X} c k.

Fixpoint bind {A B : Type} (p : prog A) (k : A -> prog B) : prog B :=
  match p with
  | Ret a => k a
  | Call c k' => Call c (fun x => bind (k' x) k)
  end.

#[local] Instance prog_ret : MRet prog := @Ret.
#[local] Instance prog_bind : MBind prog := fun A B k p => bind p k.

Definition perform {X : Type} (c : call X) : prog X := Call c Ret.

(** [for (... of l) { s = body(s, a) }] *)
Fixpoint for_each {A S : Type} (l : list A) (body : S -> A -> prog S) (s : S) : prog S :=
  match l with
  | [] => Ret s
  | a :: l => s' ← body s a; for_each l body s'
  end.

(** The body never calls a source of entropy. *)
Fixpoint pure {R : Type} (p : prog R) : Prop :=
  match p with
  | Ret _ => True
  | Call c k => entropy c = false /\ forall x, pure (k x)
  end.

(** An environment answers a call from the state [W] of the world (the
    clock, the state of the random generator), and moves the world on. *)
Definition answers (W : Type) : Type := forall X : Type, call X -> W -> X * W.

Fixpoint run {W R : Type} (h : answers W) (p : prog R) (w : W) : R * W :=
  match p with
  | Ret r => (r, w)
  | Call c k => let '(x, w') := h _ c w in run h (k x) w'
  end.

(** Two environments with the same engine: every function that is not a
    source of entropy returns the same in both, whatever the worlds. *)
Definition same_engine {W1 W2 : Type} (h1 : answers W1) (h2 : answers W2) : Prop :=
  forall (X : Type) (c : call X), entropy c = false ->
  forall (w1 : W1) (w2 : W2), (h1 X c w1).1 = (h2 X c w2).1.

(** The sources of entropy over a world [W]. *)
Record sources (W : Type) : Type := {
  random : W -> float M * W;
  now : W -> float M * W;
  monotonic_now : W -> float M * W;
  random_values : nat -> W -> list Z * W
}.
Arguments random {W} _ _.
Arguments now {W} _ _.
Arguments monotonic_now {W} _ _.
Arguments random_values {W} _ _ _.

(** The environment whose Math functions are those of [M], with [sqrt]
    for [Math.sqrt]; the sources of entropy read the world. *)
Definition engine {W : Type} (sqrt : float M -> float M) (src : sources W) : answers W :=
  fun X c =>
    match c in call X return W -> X * W with
    | Math_floor x => fun w => (f_floor M x, w)
    | Math_round x => fun w => (f_round M x, w)
    | Math_cos x => fun w => (f_cos M x, w)
    | Math_sin x => fun w => (f_sin M x, w)
    | Math_sqrt x => fun w => (sqrt x, w)
    | Math_abs x => fun w => (Z.abs <$> x, w)
    | Math_random => random src
    | Date_now => now src
    | performance_now => monotonic_now src
    | crypto_getRandomValues n => random_values src n
    end.

(** ** The generators *)

(** One iteration of the first loop of [generateBlueNoise]. *)
Definition push_r2 (size : nat) (values : list (val_entry M)) (i : nat)
    : prog (list (val_entry M)) :=
  let x := (i mod size)%nat in
  y ← perform (Math_floor (f_div M (lit_nat M i) (lit_nat M size)));
  let r2 := f_rem M (f_add M (f_add M (lit M 0.5) (f_mul M (a1 M) (lit_nat M x)))
                             (f_mul M (a2 M) (lit_Z M y)))
                    (lit M 1) in
  mret (values ++ [{| v_idx := i; v_val := r2 |}]).

(** One iteration of a loop over the ranks:
    [pixels[sorted[rank].idx] = Math.floor((rank / n) * 255)]. *)
Definition set_rank (n : nat) (pixels : list Z) (re : nat * val_entry M) : prog (list Z) :=
  v ← perform (Math_floor (f_mul M (f_div M (lit_nat M re.1) (lit_nat M n)) (lit M 255)));
  mret (u8_set pixels (v_idx M re.2) v).

(** One iteration of the inner refinement loop. *)
Definition refine (size pass : nat) (pixels : list Z) (i : nat) : prog (list Z) :=
  let n := (size * size)%nat in
  let x1 := Z.of_nat (i mod size) in
  y1 ← perform (Math_floor (f_div M (lit_nat M i) (lit_nat M size)));
  let angle := f_mul M (lit_nat M (pass * n + i)) (lit M 2.399963) in
  let radius := (2 + pass mod 3)%nat in
  c ← perform (Math_cos angle);
  rx ← perform (Math_round (f_mul M c (lit_nat M radius)));
  let x2 := Z.rem (x1 + rx + Z.of_nat size) (Z.of_nat size) in
  s ← perform (Math_sin angle);
  ry ← perform (Math_round (f_mul M s (lit_nat M radius)));
  let y2 := Z.rem (y1 + ry + Z.of_nat size) (Z.of_nat size) in
  let j := y2 * Z.of_nat size + x2 in
  if Z.of_nat i =? j then mret pixels
  else
    let v1 := u8_get pixels (Z.of_nat i) in
    let v2 := u8_get pixels j in
    diff ← perform (Math_abs (match v1, v2 with
                              | Some a, Some b => Some (a - b)
                              | _, _ => None
                              end));
    match diff, v1, v2 with
    | Some d, Some a, Some b =>
        if (64 <? d) && (d <? 192)
        then mret (u8_set (u8_set pixels i b) (Z.to_nat j) a)
        else mret pixels
    | _, _, _ => mret pixels
    end.

Definition generateBlueNoise (size : nat) : prog (list Z) :=
  let pixels := u8_new (size * size) in
  let n := (size * size)%nat in
  values ← for_each (seq 0 n) (push_r2 size) [];
  let values := stable_sort (val_before M) values in
  pixels ← for_each (combine (seq 0 (length values)) values) (set_rank n) pixels;
  for_each (seq 0 8)
           (fun pixels pass => for_each (seq 0 n) (refine size pass) pixels)
           pixels.

(** One iteration of the inner loop of [generateClusteredDot]; the entries
    [{ idx, dist }] have the shape of those of [generateBlueNoise]. *)
Definition push_dist (size : nat) (center : float M) (y : nat)
    (distances : list (val_entry M)) (x : nat) : prog (list (val_entry M)) :=
  let dx := f_sub M (lit_nat M x) center in
  let dy := f_sub M (lit_nat M y) center in
  dist ← perform (Math_sqrt (f_add M (f_mul M dx dx) (f_mul M dy dy)));
  mret (distances ++ [{| v_idx := (y * size + x)%nat; v_val := dist |}]).

Definition generateClusteredDot (size : nat) : prog (list Z) :=
  let pixels := u8_new (size * size) in
  let center := f_div M (f_sub M (lit_nat M size) (lit M 1)) (lit M 2) in
  distances ← for_each (seq 0 size)
                       (fun distances y =>
                          for_each (seq 0 size) (push_dist size center y) distances)
                       [];
  let distances := stable_sort (val_before M) distances in
  for_each (combine (seq 0 (length distances)) distances)
           (set_rank (length distances)) pixels.

End Programs.
End Script.

(* ===================================================================== *)
(** * The fragment shaders *)
(* ===================================================================== *)

Module Shader.

Local Open Scope Q_scope.

Definition vec2 : Type := Q * Q.
Definition vec3 : Type := Q * Q * Q.

(** ** GLSL built-in functions *)

Definition floorQ (x : Q) : Q := inject_Z (Qfloor x).
Definition fract (x : Q) : Q := x - floorQ x.
Definition glsl_mod (x y : Q) : Q := x - y * floorQ (x / y).
(** [int(x)]: the fractional part is dropped. *)
Definition glsl_int (x : Q) : Z :=
  if Qle_bool 0 x then Qfloor x else Qceiling x.
Definition clamp (x lo hi : Q) : Q := Qmin (Qmax x lo) hi.
Definition mix (a b t : Q) : Q := a * (1 - t) + b * t.
Definition mix3 (a b : vec3) (t : Q) : vec3 :=
  let '(a1, a2, a3) := a in
  let '(b1, b2, b3) := b in
  (mix a1 b1 t, mix a2 b2 t, mix a3 b3 t).
(** [step(edge, x)] is 0.0 if [x < edge] and 1.0 otherwise. *)
Definition step (edge x : Q) : Q := if Qle_bool edge x then 1 else 0.
Definition smoothstep (edge0 edge1 x : Q) : Q :=
  let t := clamp ((x - edge0) / (edge1 - edge0)) 0 1 in
  t * t * (3 - 2 * t).
Definition dot3 (a b : vec3) : Q :=
  let '(a1, a2, a3) := a in
  let '(b1, b2, b3) := b in
  a1 * b1 + a2 * b2 + a3 * b3.
Definition scale2 (p : vec2) (k : Q) : vec2 := (fst p * k, snd p * k).
Definition add2 (p : vec2) (k : Q) : vec2 := (fst p + k, snd p + k).

(** [texture2D(tex, coord).r] for a [size] by [size] LUMINANCE texture of
    unsigned bytes with NEAREST filtering and REPEAT wrapping: the texel
    that contains the wrapped coordinate, as byte / 255. *)
Definition texture2D (size : nat) (tex : list Z) (coord : vec2) : Q :=
  let s := inject_Z (Z.of_nat size) in
  let i := Qfloor (fract (fst coord) * s) in
  let j := Qfloor (fract (snd coord) * s) in
  inject_Z (nth (Z.to_nat (j * Z.of_nat size + i)) tex 0%Z) / 255.

(** ** Functions of the shader source *)

(** [hash]: [p3 = fract(vec3(p.xyx) * 0.1031); p3 += dot(p3, p3.yzx + 33.33);
    return fract((p3.x + p3.y) * p3.z)] *)
Definition hash (p : vec2) : Q :=
  let '(px, py) := p in
  let x := fract (px * 0.1031) in
  let y := fract (py * 0.1031) in
  let z := fract (px * 0.1031) in
  let d := dot3 (x, y, z) (y + 33.33, z + 33.33, x + 33.33) in
  let x := x + d in
  let y := y + d in
  let z := z + d in
  fract ((x + y) * z).

(** The loop [for (int i = 0; i < 16; i++) if (i == idx) return
    thresholds[i] / 16.0; return 0.0]. *)
Definition table_lookup (thresholds : list Q) (idx : Z) : Q :=
  match find (fun i => Z.eqb (Z.of_nat i) idx) (seq 0 16) with
  | Some i => nth i thresholds 0 / 16
  | None => 0
  end.

Definition atkinson_table : list Q :=
  [ 0; 12; 3; 15;
    8; 4; 11; 7;
    2; 14; 1; 13;
    10; 6; 9; 5 ].

Definition atkinsonThreshold (pos : vec2) : Q :=
  let x := glsl_int (glsl_mod (fst pos) 4) in
  let y := glsl_int (glsl_mod (snd pos) 4) in
  let idx := (y * 4 + x)%Z in
  table_lookup atkinson_table idx.

Definition clusteredThreshold (pos : vec2) : Q :=
  let x := glsl_int (glsl_mod (fst pos) 2) in
  let y := glsl_int (glsl_mod (snd pos) 2) in
  let idx := (y * 2 + x)%Z in
  if (idx =? 0)%Z then 0
  else if (idx =? 1)%Z then 0.5
  else if (idx =? 2)%Z then 0.75
  else 0.25.

Definition clustered4_table : list Q :=
  [ 12; 5; 6; 13;
    4; 0; 1; 7;
    11; 3; 2; 8;
    15; 10; 9; 14 ].

Definition clustered4Threshold (pos : vec2) : Q :=
  let x := glsl_int (glsl_mod (fst pos) 4) in
  let y := glsl_int (glsl_mod (snd pos) 4) in
  let idx := (y * 4 + x)%Z in
  table_lookup clustered4_table idx.

(** ** The dither dispatch *)

(** The four threshold textures bound to the program. *)
Record samplers : Type := {
  u_bayer : list Z;
  u_blueNoise : list Z;
  u_cluster8 : list Z;
  u_cluster16 : list Z
}.

(** [mod(gl_FragCoord.xy, k) / k] *)
Definition tile_coord (frag : vec2) (k : Q) : vec2 :=
  (glsl_mod (fst frag) k / k, glsl_mod (snd frag) k / k).

(** The chain [if (u_ditherMode == 7) ... else if ... else ...], the same
    in both shaders: from the gray value and the fragment coordinate to the
    gray value that is compared and the threshold. *)
Definition dispatch (tx : samplers) (u_ditherMode : Z) (frag : vec2) (gray : Q)
    : Q * Q :=
  if (u_ditherMode =? 7)%Z then
    let gray := gray * 1.08 - 0.02 in
    let gray := clamp gray 0 1 in
    (gray, texture2D 16 (u_cluster16 tx) (tile_coord frag 16))
  else if (u_ditherMode =? 6)%Z then
    let gray := gray * 1.1 - 0.03 in
    let gray := clamp gray 0 1 in
    (gray, texture2D 8 (u_cluster8 tx) (tile_coord frag 8))
  else if (u_ditherMode =? 5)%Z then
    let gray := gray * 1.15 - 0.05 in
    let gray := clamp gray 0 1 in
    (gray, clustered4Threshold frag)
  else if (u_ditherMode =? 4)%Z then
    let gray := gray * 1.1 in
    let gray := clamp gray 0 1 in
    (gray, clusteredThreshold frag)
  else if (u_ditherMode =? 3)%Z then
    (gray, texture2D 64 (u_blueNoise tx) (tile_coord frag 64))
  else if (u_ditherMode =? 2)%Z then
    (gray, hash frag)
  else if (u_ditherMode =? 1)%Z then
    let gray := gray * 1.2 - 0.1 in
    let gray := clamp gray 0 1 in
    (gray, atkinsonThreshold frag)
  else
    (gray, texture2D 8 (u_bayer tx) (tile_coord frag 8)).

Definition adjusted_gray (tx : samplers) (mode : Z) (frag : vec2) (gray : Q) : Q :=
  fst (dispatch tx mode frag gray).

Definition threshold (tx : samplers) (mode : Z) (frag : vec2) : Q :=
  snd (dispatch tx mode frag 0).

(** The textures that [init] and [setup] upload. *)
Definition program_samplers (M : Texture.JSMath) : samplers :=
  {| u_bayer := Texture.bayer;
     u_blueNoise := Texture.blueNoiseTexture M;
     u_cluster8 := Texture.clustered8;
     u_cluster16 := Texture.clustered16 |}.

(** ** [main] of the header shader *)

Record header_inputs : Type := {
  h_color : vec3;          (* texture2D(u_image, v_texCoord).rgb *)
  h_fragCoord : vec2;      (* gl_FragCoord.xy *)
  h_resolution : vec2;
  h_scroll : Q;
  h_ditherMode : Z;
  h_bgColor : vec3;
  h_fgColor : vec3
}.

Definition luma : vec3 := (0.299, 0.587, 0.114).

(** The gray value that enters the dispatch. *)
Definition header_gray (i : header_inputs) : Q :=
  let gray := dot3 (h_color i) luma in
  let screenY := snd (h_fragCoord i) / snd (h_resolution i) in
  let fadeHeight := mix 0.4 0.85 (h_scroll i) in
  let fade := smoothstep 0 fadeHeight screenY in
  let fade := fade * mix 1 0.7 (h_scroll i * 0.5) in
  gray * fade.

Definition header_dithered (tx : samplers) (i : header_inputs) : Q :=
  let '(gray, threshold) :=
    dispatch tx (h_ditherMode i) (h_fragCoord i) (header_gray i) in
  step (threshold + 0.1) gray.

Definition header_main (tx : samplers) (i : header_inputs) : vec3 :=
  mix3 (h_bgColor i) (h_fgColor i) (header_dithered tx i).

(** ** [main] of the image shader *)

Record image_inputs : Type := {
  i_color : vec3;
  i_fragCoord : vec2;
  i_resolution : vec2;
  i_ditherMode : Z;
  i_time : Q;
  i_bgColor : vec3;
  i_fgColor : vec3;
  i_invert : Q
}.

Section ImageShader.
(** GLSL [sin]. *)
Variable glsl_sin : Q -> Q.

Definition animatedNoise (p : vec2) (t : Q) : Q :=
  let n1 := hash (add2 p (floorQ t)) in
  let n2 := hash (add2 (add2 p (floorQ t)) 1) in
  let blend := fract t in
  mix n1 n2 (smoothstep 0 1 blend).

Definition image_gray (i : image_inputs) : Q :=
  let gray := dot3 (i_color i) luma in
  let gray := mix gray (1 - gray) (i_invert i) in
  let uvx := fst (i_fragCoord i) / fst (i_resolution i) in
  let uvy := snd (i_fragCoord i) / snd (i_resolution i) in
  let edgeNoise := hash (scale2 (i_fragCoord i) 0.5) * 0.15 in
  let fadeLeft := smoothstep 0 (0.1 + edgeNoise) uvx in
  let fadeRight := smoothstep 0 (0.1 + edgeNoise) (1 - uvx) in
  let fadeBottom := smoothstep 0 (0.1 + edgeNoise) uvy in
  let fadeTop := smoothstep 0 (0.1 + edgeNoise) (1 - uvy) in
  let fade := fadeLeft * fadeRight * fadeBottom * fadeTop in
  gray * fade.

(** What is added to [threshold + 0.1] for a compared gray value. *)
Definition animation_term (i : image_inputs) (gray : Q) : Q :=
  let noiseCoord := scale2 (i_fragCoord i) 0.15 in
  let noise := animatedNoise noiseCoord (i_time i) - 0.5 in
  let flicker :=
    0.08 * glsl_sin (i_time i * 2 + hash (scale2 (i_fragCoord i) 0.2) * 6.28) in
  let effectIntensity := smoothstep 0.05 0.3 gray in
  (noise * 0.15 + flicker) * effectIntensity.

Definition image_dithered (tx : samplers) (i : image_inputs) : Q :=
  let '(gray, threshold) :=
    dispatch tx (i_ditherMode i) (i_fragCoord i) (image_gray i) in
  let animatedThreshold := threshold + 0.1 + animation_term i gray in
  step animatedThreshold gray.

Definition image_main (tx : samplers) (i : image_inputs) : vec3 :=
  mix3 (i_bgColor i) (i_fgColor i) (image_dithered tx i).
End ImageShader.

(** ** The pre-adjustment of each branch, as the source writes it *)

(** The gain and the bias of the statement [gray = gray * gain - bias'] of a
    branch, or [None] for a branch without one. *)
Definition pre_adjustment (mode : Z) : option (Q * Q) :=
  if (mode =? 7)%Z then Some (1.08, -0.02)
  else if (mode =? 6)%Z then Some (1.1, -0.03)
  else if (mode =? 5)%Z then Some (1.15, -0.05)
  else if (mode =? 4)%Z then Some (1.1, 0)
  else if (mode =? 1)%Z then Some (1.2, -0.1)
  else None.

(** Equality of colours, component by component. *)
Definition same_color (a b : vec3) : Prop :=
  let '(a1, a2, a3) := a in
  let '(b1, b2, b3) := b in
  (a1 == b1 /\ a2 == b2 /\ a3 == b3)%Q.

(** A colour read from a texture: every channel lies in [0, 1]. *)
Definition is_color (c : vec3) : Prop :=
  let '(r, g, b) := c in
  (0 <= r /\ r <= 1 /\ 0 <= g /\ g <= 1 /\ 0 <= b /\ b <= 1)%Q.

End Shader.

(* ===================================================================== *)
(** * Life cycle of the header surface *)
(* ===================================================================== *)

Module Header.

Local Open Scope string_scope.
Local Open Scope nat_scope.

(** ** The page as the header script sees it *)

Inductive source : Type := SVideo | SImage.

(** The closure variables of one call of [init] that got a context. *)
Record closure : Type := {
  c_animationId : option nat;
  c_currentSource : option source;
  c_videoPlaying : bool
}.

(** Event targets: [document], [window], and the two media elements that a
    call of [init] creates. *)
Inductive target : Type :=
| Document
| Window
| FallbackImage (s : nat)
| Video (s : nat).

(** The functions that [init] registers, by the call that created them. *)
Inductive handler : Type :=
| OnFirstInteraction (s : nat)
| OnResize (s : nat)
| UpdateScroll (s : nat)
| OnLoad (s : nat)
| OnLoadedData (s : nat).

Record listener : Type := {
  l_target : target;
  l_type : string;
  l_handler : handler
}.

#[global] Instance source_eq_dec : EqDecision source.
Proof. solve_decision. Defined.
#[global] Instance target_eq_dec : EqDecision target.
Proof. solve_decision. Defined.
#[global] Instance handler_eq_dec : EqDecision handler.
Proof. solve_decision. Defined.
#[global] Instance listener_eq_dec : EqDecision listener.
Proof. solve_decision. Defined.

Definition owner (h : handler) : nat :=
  match h with
  | OnFirstInteraction s | OnResize s | UpdateScroll s | OnLoad s | OnLoadedData s => s
  end.

(** The object stored in the variable [currentState]. *)
Record state_record : Type := {
  animationId : option nat;
  loseContext : bool;     (* the [WEBGL_lose_context] object, or [null] *)
  surface : nat           (* the call whose [onFirstInteraction], [onResize],
                             [onScroll] and [darkModeObserver] are stored *)
}.

(** Where a pending [video.play()] promise was created. *)
Inductive play_origin : Type := FromLoadedData | FromTryPlay.

Record page : Type := {
  currentState : option state_record;
  closures : list closure;             (* by call of [init] *)
  listeners : list listener;           (* the registered event listeners *)
  observers : list nat;                (* the connected dark-mode observers *)
  frames : list (nat * nat);           (* pending animation frames: id, surface *)
  nextFrame : nat;
  plays : list (nat * play_origin);    (* pending [play()] promises *)
  lost : list nat                      (* surfaces on which [loseContext()] ran *)
}.

Definition initial : page :=
  {| currentState := None; closures := []; listeners := []; observers := [];
     frames := []; nextFrame := 1; plays := []; lost := [] |}.

Definition set_currentState (v : option state_record) (p : page) : page :=
  {| currentState := v; closures := closures p; listeners := listeners p;
     observers := observers p; frames := frames p; nextFrame := nextFrame p;
     plays := plays p; lost := lost p |}.

Definition set_closures (v : list closure) (p : page) : page :=
  {| currentState := currentState p; closures := v; listeners := listeners p;
     observers := observers p; frames := frames p; nextFrame := nextFrame p;
     plays := plays p; lost := lost p |}.

Definition set_listeners (v : list listener) (p : page) : page :=
  {| currentState := currentState p; closures := closures p; listeners := v;
     observers := observers p; frames := frames p; nextFrame := nextFrame p;
     plays := plays p; lost := lost p |}.

Definition set_observers (v : list nat) (p : page) : page :=
  {| currentState := currentState p; closures := closures p; listeners := listeners p;
     observers := v; frames := frames p; nextFrame := nextFrame p;
     plays := plays p; lost := lost p |}.

Definition set_frames (v : list (nat * nat)) (n : nat) (p : page) : page :=
  {| currentState := currentState p; closures := closures p; listeners := listeners p;
     observers := observers p; frames := v; nextFrame := n;
     plays := plays p; lost := lost p |}.

Definition set_plays (v : list (nat * play_origin)) (p : page) : page :=
  {| currentState := currentState p; closures := closures p; listeners := listeners p;
     observers := observers p; frames := frames p; nextFrame := nextFrame p;
     plays := v; lost := lost p |}.

Definition set_lost (v : list nat) (p : page) : page :=
  {| currentState := currentState p; closures := closures p; listeners := listeners p;
     observers := observers p; frames := frames p; nextFrame := nextFrame p;
     plays := plays p; lost := v |}.

(** ** Browser operations *)

(** [target.addEventListener(type, h)]: a listener that is already
    registered is not added again. *)
Definition addEventListener (t : target) (type : string) (h : handler) (p : page) : page :=
  let l := {| l_target := t; l_type := type; l_handler := h |} in
  if bool_decide (l ∈ listeners p) then p
  else set_listeners (listeners p ++ [l]) p.

Definition removeEventListener (t : target) (type : string) (h : handler) (p : page) : page :=
  let l := {| l_target := t; l_type := type; l_handler := h |} in
  set_listeners (filter (fun l' => l' ≠ l) (listeners p)) p.

Definition cancelAnimationFrame (id : nat) (p : page) : page :=
  set_frames (filter (fun f => f.1 ≠ id) (frames p)) (nextFrame p) p.

(** [requestAnimationFrame(render)] in the closure of surface [s]; the
    result is the new id. *)
Definition requestAnimationFrame (s : nat) (p : page) : nat * page :=
  let id := nextFrame p in
  (id, set_frames (frames p ++ [(id, s)]) (S id) p).

(** ** The functions of the script *)

Definition cleanup (p : page) : page :=
  match currentState p with
  | None => p
  | Some cs =>
      let p := match animationId cs with
               | Some id => cancelAnimationFrame id p
               | None => p
               end in
      let p := removeEventListener Document "click" (OnFirstInteraction (surface cs)) p in
      let p := removeEventListener Document "touchstart" (OnFirstInteraction (surface cs)) p in
      let p := removeEventListener Document "keydown" (OnFirstInteraction (surface cs)) p in
      let p := removeEventListener Document "scroll" (OnFirstInteraction (surface cs)) p in
      let p := removeEventListener Window "resize" (OnResize (surface cs)) p in
      let p := removeEventListener Window "scroll" (UpdateScroll (surface cs)) p in
      let p := set_observers (filter (fun o => o ≠ surface cs) (observers p)) p in
      let p := if loseContext cs then set_lost (surface cs :: lost p) p else p in
      set_currentState None p
  end.

(** What the browser answers when a callback asks. *)
Record answers : Type := {
  isConnected : bool;     (* [canvas.isConnected] *)
  hasSize : bool;         (* the media source has a width and a height *)
  videoReady : bool;      (* [video.readyState >= 2] *)
  imageReady : bool       (* [fallbackImage.complete && fallbackImage.naturalWidth] *)
}.

Definition update_closure (s : nat) (f : closure -> closure) (p : page) : page :=
  match closures p !! s with
  | Some c => set_closures (<[s := f c]> (closures p)) p
  | None => p
  end.

(** [setupCanvas(source)]: of the closure variables only [currentSource]
    matters to the life cycle. *)
Definition setupCanvas (s : nat) (src : source) (a : answers) (p : page) : page :=
  if negb (hasSize a) then p
  else update_closure s
         (fun c => {| c_animationId := c_animationId c;
                      c_currentSource := Some src;
                      c_videoPlaying := c_videoPlaying c |}) p.

Definition render (s : nat) (a : answers) (p : page) : page :=
  if negb (isConnected a) then cleanup p
  else
    match closures p !! s with
    | Some c =>
        match c_currentSource c, c_videoPlaying c with
        | Some SVideo, true =>
            let '(id, p) := requestAnimationFrame s p in
            let p := update_closure s
                       (fun c => {| c_animationId := Some id;
                                    c_currentSource := c_currentSource c;
                                    c_videoPlaying := c_videoPlaying c |}) p in
            match currentState p with
            | Some cs =>
                set_currentState
                  (Some {| animationId := Some id;
                           loseContext := loseContext cs;
                           surface := surface cs |}) p
            | None => p
            end
        | _, _ => p
        end
    | None => p
    end.

(** [tryPlayVideo]: [video.play()] returns a promise that settles later. *)
Definition tryPlayVideo (s : nat) (p : page) : page :=
  match closures p !! s with
  | Some c =>
      if c_videoPlaying c then p
      else set_plays (plays p ++ [(s, FromTryPlay)]) p
  | None => p
  end.

Definition set_videoPlaying (s : nat) (p : page) : page :=
  update_closure s
    (fun c => {| c_animationId := c_animationId c;
                 c_currentSource := c_currentSource c;
                 c_videoPlaying := true |}) p.

Definition source_is (s : nat) (src : option source) (p : page) : bool :=
  match closures p !! s with
  | Some c => bool_decide (c_currentSource c = src)
  | None => false
  end.

(** The reaction to a settled [play()] promise. *)
Definition settle (s : nat) (o : play_origin) (fulfilled : bool) (a : answers)
    (p : page) : page :=
  match o, fulfilled with
  | FromTryPlay, true =>
      let p := set_videoPlaying s p in
      let p := if source_is s (Some SImage) p && videoReady a
               then setupCanvas s SVideo a p else p in
      match closures p !! s with
      | Some c =>
          match c_animationId c with
          | None => render s a p
          | Some _ => p
          end
      | None => p
      end
  | FromTryPlay, false => p
  | FromLoadedData, true =>
      let p := set_videoPlaying s p in
      let p := setupCanvas s SVideo a p in
      render s a p
  | FromLoadedData, false =>
      if imageReady a
      then render s a (setupCanvas s SImage a p)
      else p
  end.

Definition run_handler (h : handler) (a : answers) (p : page) : page :=
  match h with
  | OnFirstInteraction s =>
      let p := tryPlayVideo s p in
      let p := removeEventListener Document "click" (OnFirstInteraction s) p in
      let p := removeEventListener Document "touchstart" (OnFirstInteraction s) p in
      let p := removeEventListener Document "keydown" (OnFirstInteraction s) p in
      removeEventListener Document "scroll" (OnFirstInteraction s) p
  | OnResize s =>
      if source_is s (Some SVideo) p && videoReady a then setupCanvas s SVideo a p
      else if source_is s (Some SImage) p && imageReady a then setupCanvas s SImage a p
      else p
  | UpdateScroll s =>
      if source_is s (Some SImage) p && isConnected a then render s a p else p
  | OnLoad s =>
      if source_is s None p then render s a (setupCanvas s SImage a p) else p
  | OnLoadedData s =>
      set_plays (plays p ++ [(s, FromLoadedData)]) p
  end.

(** The callback of the dark-mode observer of surface [s], for a mutation
    of the [class] attribute. *)
Definition on_mutation (s : nat) (a : answers) (p : page) : page :=
  if source_is s (Some SImage) p && isConnected a then render s a p else p.

(** [init]; [canvas], [gl] and [ext] say whether [getElementById],
    [getContext] and [getExtension] return an object. *)
Definition init (canvas gl ext : bool) (p : page) : page :=
  let p := cleanup p in
  if negb canvas then p
  else if negb gl then p
  else
    let s := length (closures p) in
    let p := set_closures
               (closures p ++ [{| c_animationId := None;
                                  c_currentSource := None;
                                  c_videoPlaying := false |}]) p in
    let p := set_observers (observers p ++ [s]) p in
    let p := set_currentState
               (Some {| animationId := None; loseContext := ext; surface := s |}) p in
    let p := addEventListener Document "click" (OnFirstInteraction s) p in
    let p := addEventListener Document "touchstart" (OnFirstInteraction s) p in
    let p := addEventListener Document "keydown" (OnFirstInteraction s) p in
    let p := addEventListener Document "scroll" (OnFirstInteraction s) p in
    let p := addEventListener Window "scroll" (UpdateScroll s) p in
    let p := addEventListener (FallbackImage s) "load" (OnLoad s) p in
    let p := addEventListener (Video s) "loadeddata" (OnLoadedData s) p in
    addEventListener Window "resize" (OnResize s) p.

(** ** What the browser does between two runs of the script *)

Inductive event : Type :=
| Init (canvas gl ext : bool)                       (* [init] is entered *)
| Dispatch (t : target) (type : string) (a : answers) (* an event reaches a target *)
| Mutation (a : answers)                            (* the root [class] changed *)
| Frame (id : nat) (a : answers)                    (* a pending frame is run *)
| Settle (n : nat) (fulfilled : bool) (a : answers). (* a [play()] promise settles *)

Definition step (e : event) (p : page) : page :=
  match e with
  | Init canvas gl ext => init canvas gl ext p
  | Dispatch t type a =>
      fold_left (fun p l => run_handler (l_handler l) a p)
                (filter (fun l => l_target l = t ∧ l_type l = type) (listeners p)) p
  | Mutation a =>
      fold_left (fun p s => on_mutation s a p) (observers p) p
  | Frame id a =>
      match list_find (fun f => f.1 = id) (frames p) with
      | Some (_, (_, s)) => render s a (cancelAnimationFrame id p)
      | None => p
      end
  | Settle n fulfilled a =>
      match plays p !! n with
      | Some (s, o) => settle s o fulfilled a (set_plays (delete n (plays p)) p)
      | None => p
      end
  end.

Definition run (trace : list event) (p : page) : page :=
  fold_left (fun p e => step e p) trace p.

Definition reachable (p : page) : Prop := ∃ trace, p = run trace initial.

(** ** Observations *)

Definition on_page (l : listener) : bool :=
  match l_target l with
  | Document | Window => true
  | _ => false
  end.

(** The listeners that [init] registers on [document] and [window] for
    surface [s]. *)
Definition page_listeners (s : nat) : list listener :=
  [ {| l_target := Document; l_type := "click"; l_handler := OnFirstInteraction s |};
    {| l_target := Document; l_type := "touchstart"; l_handler := OnFirstInteraction s |};
    {| l_target := Document; l_type := "keydown"; l_handler := OnFirstInteraction s |};
    {| l_target := Document; l_type := "scroll"; l_handler := OnFirstInteraction s |};
    {| l_target := Window; l_type := "scroll"; l_handler := UpdateScroll s |};
    {| l_target := Window; l_type := "resize"; l_handler := OnResize s |} ].

(** Surface [s] holds something that can still run its code or draw: a
    pending frame, a listener on the page, or a connected observer. *)
Definition active (p : page) (s : nat) : Prop :=
  (∃ id, (id, s) ∈ frames p)
  ∨ (∃ l, l ∈ listeners p ∧ on_page l = true ∧ owner (l_handler l) = s)
  ∨ s ∈ observers p.

(** The registrations on the page belong to the surface recorded in
    [currentState]: every listener on [document] or [window] is one of the
    six that [init] registered for it, every connected observer is its
    observer, and the surface is one that [init] created. *)
Definition tidy (p : page) : Prop :=
  (∀ l, l ∈ listeners p → on_page l = true →
        ∃ cs, currentState p = Some cs ∧ l ∈ page_listeners (surface cs))
  ∧ (∀ s, s ∈ observers p → ∃ cs, currentState p = Some cs ∧ s = surface cs)
  ∧ (∀ cs, currentState p = Some cs → surface cs < length (closures p)).

(** [q] registers nothing that [p] does not, for the same surface. *)
Definition keeps (p q : page) : Prop :=
  (∀ l, l ∈ listeners q → l ∈ listeners p)
  ∧ (∀ s, s ∈ observers q → s ∈ observers p)
  ∧ (surface <$> currentState q) = (surface <$> currentState p)
  ∧ length (closures p) ≤ length (closures q).

(** The surface of [cs] holds nothing in [q] of what [cleanup] releases. *)
Definition released (cs : state_record) (q : page) : Prop :=
  (∀ id s, animationId cs = Some id → (id, s) ∉ frames q)
  ∧ (∀ l, l ∈ listeners q → on_page l = true → owner (l_handler l) ≠ surface cs)
  ∧ (surface cs ∉ observers q)
  ∧ (loseContext cs = true → surface cs ∈ lost q).

(** Every question is answered with yes. *)
Definition yes : answers :=
  {| isConnected := true; hasSize := true; videoReady := true; imageReady := true |}.

(** [init] is entered twice; then the video of the first call fires
    [loadeddata] and its [play()] promise is fulfilled. *)
Definition late_video_trace : list event :=
  [ Init true true true; Init true true true;
    Dispatch (Video 0) "loadeddata" yes; Settle 0 true yes ].

End Header.

(* ===================================================================== *)
(** * Life cycle of a dithered-image surface *)
(* ===================================================================== *)

Module Image.

Local Open Scope nat_scope.

(** The functions that [setup] registers on [window]. *)
Inductive handler : Type := OnResize | OnScroll.

(** The two observers that [setup] creates. *)
Inductive observer_kind : Type := Intersection | DarkMode.

#[global] Instance handler_eq_dec : EqDecision handler.
Proof. solve_decision. Defined.
#[global] Instance observer_kind_eq_dec : EqDecision observer_kind.
Proof. solve_decision. Defined.

(** One call of [setup] that got a context: its closure variables, and
    what the browser holds for it. *)
Record surface : Type := {
  (* closure variables *)
  needsResize : bool;
  isVisible : bool;
  lastFrameTime : Q;
  animationId : option nat;
  didCleanup : bool;
  observer : bool;              (* holds an IntersectionObserver, or [null] *)
  darkModeObserver : bool;      (* holds a MutationObserver, or [null] *)
  loseContext : bool;           (* the [WEBGL_lose_context] object, or [null] *)
  (* held by the browser *)
  cleanupHook : bool;           (* [canvas.__darkDitherCleanup] is set *)
  windowListeners : list handler;
  observing : list observer_kind;   (* the observers that are connected *)
  frames : list nat;                (* pending animation frames *)
  nextFrame : nat;
  contextLost : bool
}.

(** [const FRAME_INTERVAL = 20] *)
Definition FRAME_INTERVAL : Q := 20.

Definition cancelAnimationFrame (id : nat) (fs : list nat) : list nat :=
  filter (fun f => f ≠ id) fs.

Definition cleanup (s : surface) : surface :=
  if didCleanup s then s
  else
    {| needsResize := needsResize s;
       isVisible := isVisible s;
       lastFrameTime := lastFrameTime s;
       animationId := None;
       didCleanup := true;
       observer := false;
       darkModeObserver := false;
       loseContext := loseContext s;
       cleanupHook := false;
       windowListeners :=
         filter (fun h => h ≠ OnScroll)
                (filter (fun h => h ≠ OnResize) (windowListeners s));
       observing :=
         (let o := if observer s
                   then filter (fun k => k ≠ Intersection) (observing s)
                   else observing s in
          if darkModeObserver s then filter (fun k => k ≠ DarkMode) o else o);
       frames :=
         match animationId s with
         | Some id => cancelAnimationFrame id (frames s)
         | None => frames s
         end;
       nextFrame := nextFrame s;
       contextLost := if loseContext s then true else contextLost s |}.

(** [animationId = requestAnimationFrame(render)] *)
Definition request_frame (s : surface) : surface :=
  {| needsResize := needsResize s;
     isVisible := isVisible s;
     lastFrameTime := lastFrameTime s;
     animationId := Some (nextFrame s);
     didCleanup := didCleanup s;
     observer := observer s;
     darkModeObserver := darkModeObserver s;
     loseContext := loseContext s;
     cleanupHook := cleanupHook s;
     windowListeners := windowListeners s;
     observing := observing s;
     frames := frames s ++ [nextFrame s];
     nextFrame := S (nextFrame s);
     contextLost := contextLost s |}.

(** [lastFrameTime = timestamp] and, through the resize branch,
    [needsResize = false]. *)
Definition drawn (timestamp : Q) (s : surface) : surface :=
  {| needsResize := false;
     isVisible := isVisible s;
     lastFrameTime := timestamp;
     animationId := animationId s;
     didCleanup := didCleanup s;
     observer := observer s;
     darkModeObserver := darkModeObserver s;
     loseContext := loseContext s;
     cleanupHook := cleanupHook s;
     windowListeners := windowListeners s;
     observing := observing s;
     frames := frames s;
     nextFrame := nextFrame s;
     contextLost := contextLost s |}.

Definition set_flags (resize visible : bool) (id : option nat) (s : surface) : surface :=
  {| needsResize := resize;
     isVisible := visible;
     lastFrameTime := lastFrameTime s;
     animationId := id;
     didCleanup := didCleanup s;
     observer := observer s;
     darkModeObserver := darkModeObserver s;
     loseContext := loseContext s;
     cleanupHook := cleanupHook s;
     windowListeners := windowListeners s;
     observing := observing s;
     frames := frames s;
     nextFrame := nextFrame s;
     contextLost := contextLost s |}.

(** The registrations at the end of [setup]: a new observer is stored in
    its variable and connected; a listener is added to [window]. *)
Definition observe (k : observer_kind) (s : surface) : surface :=
  {| needsResize := needsResize s;
     isVisible := isVisible s;
     lastFrameTime := lastFrameTime s;
     animationId := animationId s;
     didCleanup := didCleanup s;
     observer := match k with Intersection => true | DarkMode => observer s end;
     darkModeObserver := match k with DarkMode => true | Intersection => darkModeObserver s end;
     loseContext := loseContext s;
     cleanupHook := cleanupHook s;
     windowListeners := windowListeners s;
     observing := observing s ++ [k];
     frames := frames s;
     nextFrame := nextFrame s;
     contextLost := contextLost s |}.

Definition addEventListener (h : handler) (s : surface) : surface :=
  {| needsResize := needsResize s;
     isVisible := isVisible s;
     lastFrameTime := lastFrameTime s;
     animationId := animationId s;
     didCleanup := didCleanup s;
     observer := observer s;
     darkModeObserver := darkModeObserver s;
     loseContext := loseContext s;
     cleanupHook := cleanupHook s;
     windowListeners :=
       if bool_decide (h ∈ windowListeners s) then windowListeners s
       else windowListeners s ++ [h];
     observing := observing s;
     frames := frames s;
     nextFrame := nextFrame s;
     contextLost := contextLost s |}.

Section Setup.
(** [REDUCED_MOTION], read once when the script is loaded. *)
Variable REDUCED_MOTION : bool.

(** [render(timestamp)]; [connected] is [canvas.isConnected]. *)
Definition render (timestamp : Q) (connected : bool) (s : surface) : surface :=
  if negb connected then cleanup s
  else if negb (Qle_bool FRAME_INTERVAL (timestamp - lastFrameTime s)) then
    if isVisible s && negb REDUCED_MOTION then request_frame s else s
  else
    let s := drawn timestamp s in
    if isVisible s && negb REDUCED_MOTION then request_frame s else s.

(** What [setup] finds: whether [getContext] and [getExtension] return an
    object, whether the image has a parent node, whether the canvas that
    replaced it is in the document, and the clock. *)
Record setup_env : Type := {
  gl : bool;
  ext : bool;
  hasParent : bool;
  connected : bool;
  now : Q
}.

(** The closure variables as [setup] declares them, with
    [canvas.__darkDitherCleanup = cleanup] done. *)
Definition declared (e : setup_env) : surface :=
  {| needsResize := true;
     isVisible := true;
     lastFrameTime := 0;
     animationId := None;
     didCleanup := false;
     observer := false;
     darkModeObserver := false;
     loseContext := ext e;
     cleanupHook := true;
     windowListeners := [];
     observing := [];
     frames := [];
     nextFrame := 1;
     contextLost := false |}.

(** [setup]; without a context there is no surface. *)
Definition setup (e : setup_env) : option surface :=
  if negb (gl e) then None
  else
    let s := declared e in
    if negb (hasParent e) then Some (cleanup s)
    else
      (* img.parentNode.replaceChild(canvas, img) *)
      let s := render (now e) (connected e) s in
      let s := observe Intersection s in
      let s := observe DarkMode s in
      let s := addEventListener OnResize s in
      let s := addEventListener OnScroll s in
      Some s.

(** ** Callbacks after [setup] *)

Inductive event : Type :=
| Frame (id : nat) (timestamp : Q) (connected : bool)
| Intersect (isIntersecting connected : bool)
| ClassMutation (timestamp : Q) (connected : bool)
| Scroll (timestamp : Q) (connected : bool)
| Resize
| BeforeSwap (inDocument : bool)
| CallCleanup.

(** [onScroll] and the dark-mode callback end the same way. *)
Definition force_render (timestamp : Q) (connected : bool) (s : surface) : surface :=
  match animationId s with
  | None =>
      if connected
      then render timestamp connected (set_flags true (isVisible s) (animationId s) s)
      else s
  | Some _ => s
  end.

Definition on_intersect (isIntersecting connected : bool) (s : surface) : surface :=
  if negb connected then cleanup s
  else
    let s := set_flags (needsResize s) isIntersecting (animationId s) s in
    match animationId s with
    | None =>
        if isVisible s && negb REDUCED_MOTION then request_frame s else s
    | Some id =>
        if negb (isVisible s)
        then
          let s := set_flags (needsResize s) (isVisible s) None s in
          {| needsResize := needsResize s; isVisible := isVisible s;
             lastFrameTime := lastFrameTime s; animationId := animationId s;
             didCleanup := didCleanup s; observer := observer s;
             darkModeObserver := darkModeObserver s; loseContext := loseContext s;
             cleanupHook := cleanupHook s; windowListeners := windowListeners s;
             observing := observing s;
             frames := cancelAnimationFrame id (frames s);
             nextFrame := nextFrame s; contextLost := contextLost s |}
        else s
    end.

(** A callback runs only while the browser still holds its
    registration. *)
Definition step (e : event) (s : surface) : surface :=
  match e with
  | Frame id timestamp connected =>
      if bool_decide (id ∈ frames s)
      then render timestamp connected
             {| needsResize := needsResize s; isVisible := isVisible s;
                lastFrameTime := lastFrameTime s; animationId := animationId s;
                didCleanup := didCleanup s; observer := observer s;
                darkModeObserver := darkModeObserver s; loseContext := loseContext s;
                cleanupHook := cleanupHook s; windowListeners := windowListeners s;
                observing := observing s;
                frames := cancelAnimationFrame id (frames s);
                nextFrame := nextFrame s; contextLost := contextLost s |}
      else s
  | Intersect isIntersecting connected =>
      if bool_decide (Intersection ∈ observing s)
      then on_intersect isIntersecting connected s else s
  | ClassMutation timestamp connected =>
      if bool_decide (DarkMode ∈ observing s)
      then force_render timestamp connected s else s
  | Scroll timestamp connected =>
      if bool_decide (OnScroll ∈ windowListeners s)
      then force_render timestamp connected s else s
  | Resize =>
      if bool_decide (OnResize ∈ windowListeners s)
      then set_flags true (isVisible s) (animationId s) s else s
  | BeforeSwap inDocument =>
      (* the [htmx:beforeSwap] listener calls the hook of every canvas
         of the document that has one *)
      if inDocument && cleanupHook s then cleanup s else s
  | CallCleanup => cleanup s
  end.

Definition run (trace : list event) (s : surface) : surface :=
  fold_left (fun s e => step e s) trace s.
End Setup.

(** Nothing registered by the surface is left with the browser. *)
Definition released (s : surface) : Prop :=
  windowListeners s = [] ∧ observing s = [] ∧ frames s = [].

(** A usual run: the image is in the document when [setup] runs, one second
    after the page was loaded; the first frame is run, then the canvas
    leaves the view. *)
Definition usual_env : setup_env :=
  {| gl := true; ext := true; hasParent := true; connected := true; now := 1000 |}.

Definition usual_trace : list event :=
  [ Frame 1 1040 true; Intersect false true ].

(** What holds of a surface whose canvas was in the document when [setup]
    ran: at most the frame recorded in [animationId] is pending, none while
    the canvas is out of view, the connected observers are the ones held in
    the closure variables, and after [cleanup] nothing is registered. *)
Definition sound (s : surface) : Prop :=
  (frames s = [] ∨ ∃ id, animationId s = Some id ∧ frames s = [id])
  ∧ (isVisible s = false → frames s = [])
  ∧ (Intersection ∈ observing s → observer s = true)
  ∧ (DarkMode ∈ observing s → darkModeObserver s = true)
  ∧ (didCleanup s = true → released s).

(** What holds of every surface: at most the frame recorded in
    [animationId] is pending, and none while the canvas is out of view. *)
Definition paced (s : surface) : Prop :=
  (frames s = [] ∨ ∃ id, animationId s = Some id ∧ frames s = [id])
  ∧ (isVisible s = false → frames s = []).

(** The image finishes loading while its subtree is out of the document;
    later the subtree is inserted and the canvas comes into view. *)
Definition detached_env : setup_env :=
  {| gl := true; ext := true; hasParent := true; connected := false; now := 1000 |}.

Definition inserted_trace : list event :=
  [ Intersect true true ].

End Image.

(* ===================================================================== *)
(** * Colours derived from the scroll position *)
(* ===================================================================== *)

Module Warmth.
Import Color.

Local Open Scope Q_scope.

(** [Math.round]: the nearest integer, a tie going up. *)
Definition js_round (x : Q) : Q := inject_Z (Qfloor (x + (1 # 2))).

(** Arithmetic on numbers: an operand that is [NaN] gives [NaN]. *)
Definition num_add (a b : num) : num :=
  match a, b with Some x, Some y => Some (x + y) | _, _ => None end.
Definition num_sub (a b : num) : num :=
  match a, b with Some x, Some y => Some (x - y) | _, _ => None end.
Definition num_mul (a b : num) : num :=
  match a, b with Some x, Some y => Some (x * y) | _, _ => None end.
Definition num_round (a : num) : num :=
  match a with Some x => Some (js_round x) | None => None end.

(** [color[i]]; outside the array it is [undefined], [NaN] in arithmetic. *)
Definition component (color : list num) (i : nat) : num := nth i color None.

(** [color1[i] + (color2[i] - color1[i]) * t] *)
Definition blend (color1 color2 : list num) (t : Q) (i : nat) : num :=
  num_add (component color1 i)
          (num_mul (num_sub (component color2 i) (component color1 i)) (Some t)).

(** [lerpColor] *)
Definition lerpColor (color1 color2 : list num) (t : Q) : list num :=
  [ num_round (blend color1 color2 t 0);
    num_round (blend color1 color2 t 1);
    num_round (blend color1 color2 t 2) ].

(** [getColorEndpoints], from the values of [--bg-start] and [--bg-end]. *)
Record endpoints : Type := { c_start : list num; c_end : list num }.

Definition getColorEndpoints (bg_start bg_end : string) : endpoints :=
  {| c_start := hexToRgb (trim bg_start); c_end := hexToRgb (trim bg_end) |}.

(** The colour that [updateWarmth] gives to the body. *)
Definition currentColor (colors : endpoints) (headerHeight scrollY : Q) : list num :=
  lerpColor (c_start colors) (c_end colors) (Easing.updateWarmth headerHeight scrollY).

(** [getBgColor] of both renderers: the colour sent to [u_bgColor]. *)
Definition getBgColor (bg_start bg_end : string) (scrollProgress : Q) : list num :=
  let bgStart := parseHexColor (trim bg_start) in
  let bgEnd := parseHexColor (trim bg_end) in
  [ blend bgStart bgEnd scrollProgress 0;
    blend bgStart bgEnd scrollProgress 1;
    blend bgStart bgEnd scrollProgress 2 ].

(** An array of numbers that are integers. *)
Definition integers (l : list Z) : list num := map (fun n => Some (inject_Z n)) l.

(** Every character of the string is a hex digit / is white space / is not
    the hash. *)
Fixpoint all_chars (P : ascii -> bool) (s : string) : bool :=
  match s with
  | EmptyString => true
  | String c r => P c && all_chars P r
  end.

Definition is_hash (c : ascii) : bool := Ascii.eqb "#"%char c.

(** Every component is a number between [lo] and [hi]. *)
Definition components_within (lo hi : Q) (color : list num) : Prop :=
  Forall (fun c => exists q, c = Some q /\ lo <= q /\ q <= hi) color.

End Warmth.

(* ===================================================================== *)
(** * The scroll effect of the header *)
(* ===================================================================== *)

Module Scroll.

Local Open Scope Q_scope.

(** What [updateScroll] computes from [canvas.offsetHeight] and
    [window.scrollY]. *)
Record effect : Type := {
  scrollProgress : Q;          (* the shared warmth progress *)
  easedHeaderProgress : Q;     (* sent to [u_scroll] *)
  scale : Q;                   (* scaleY of the header container *)
  translateY : Q;              (* in pixels *)
  opacity : Q
}.

Definition updateScroll (headerHeight scrollY : Q) : effect :=
  let warmthDistance := headerHeight * 0.3 in
  let scrollProgress := Qmin 1 (scrollY / warmthDistance) in
  let scrollProgress := scrollProgress * scrollProgress * (3 - 2 * scrollProgress) in
  let headerScrollProgress := Qmin 1 (scrollY / headerHeight) in
  let easedHeaderProgress :=
    headerScrollProgress * headerScrollProgress * (3 - 2 * headerScrollProgress) in
  {| scrollProgress := scrollProgress;
     easedHeaderProgress := easedHeaderProgress;
     scale := 1 - easedHeaderProgress * 0.15;
     translateY := easedHeaderProgress * -10;
     opacity := 1 - easedHeaderProgress * 0.3 |}.

End Scroll.

(* ===================================================================== *)
(** * Texture coordinates of the header source *)
(* ===================================================================== *)

Module Cover.

Local Open Scope Q_scope.

Record coords : Type := { texLeft : Q; texBottom : Q; texRight : Q; texTop : Q }.

(** The coordinates that [setupCanvas] uploads, from the size of the source
    and the size of the canvas; nothing when the source has no width or no
    height.  The quotients are those of the source for a canvas with a
    width and a height other than zero. *)
Definition setupCanvas (sourceWidth sourceHeight width height : Q) : option coords :=
  if Qeq_bool sourceWidth 0 || Qeq_bool sourceHeight 0 then None
  else
    let canvasAspect := width / height in
    let sourceAspect := sourceWidth / sourceHeight in
    if negb (Qle_bool sourceAspect canvasAspect) then
      let scale := canvasAspect / sourceAspect in
      let texLeft := (1 - scale) / 2 in
      Some {| texLeft := texLeft; texBottom := 0; texRight := 1 - texLeft; texTop := 1 |}
    else
      let scale := sourceAspect / canvasAspect in
      Some {| texLeft := 0; texBottom := 0; texRight := 1; texTop := scale |}.

End Cover.

(* ===================================================================== *)
(** * Inputs of the examples *)
(* ===================================================================== *)

Module Sample.

Local Open Scope Q_scope.

(** An arithmetic for [generateBlueNoise]: exact rationals, with the first
    terms of the series of the cosine and the sine. *)
Definition math : Texture.JSMath :=
  {| Texture.float := Q;
     Texture.lit := fun q => q;
     Texture.f_add := Qplus;
     Texture.f_sub := Qminus;
     Texture.f_mul := Qmult;
     Texture.f_div := Qdiv;
     Texture.f_rem := fun x y => x - y * inject_Z (Shader.glsl_int (x / y));
     Texture.f_cos := fun x => 1 - x * x / 2;
     Texture.f_sin := fun x => x - x * x * x / 6;
     Texture.f_floor := Qfloor;
     Texture.f_round := fun x => Qfloor (x + (1 # 2));
     Texture.f_negative := fun x => negb (Qle_bool 0 x) |}.

Definition sine (x : Q) : Q := x - x * x * x / 6.

(** One step of Heron's method from 1, for [Math.sqrt]. *)
Definition root (x : Q) : Q := (1 + x) / 2.

(** Sources of entropy that count their reads, and sources that always
    return the same. *)
Definition counting : Script.sources math nat :=
  Script.Build_sources math nat
    (fun w => (1 / (inject_Z (Z.of_nat w) + 2), S w))
    (fun w => (inject_Z (Z.of_nat w) + 1700000000000, S w))
    (fun w => (inject_Z (Z.of_nat w) / 1000, S w))
    (fun n w => (repeat (Z.of_nat w mod 256)%Z n, S w)).

Definition frozen : Script.sources math unit :=
  Script.Build_sources math unit
    (fun w => (1 # 2, w))
    (fun w => (0, w))
    (fun w => (0, w))
    (fun n w => (repeat 0%Z n, w)).

(** A dark fragment of the header, half way through the scroll effect. *)
Definition header_fragment : Shader.header_inputs :=
  {| Shader.h_color := (0.1, 0.05, 0.05);
     Shader.h_fragCoord := (100.5, 60.5);
     Shader.h_resolution := (800, 256);
     Shader.h_scroll := 0.5;
     Shader.h_ditherMode := 1%Z;
     Shader.h_bgColor := (1, 0.98, 0.94);
     Shader.h_fgColor := (0.1, 0.1, 0.1) |}.

(** A dark fragment of an inline image, three seconds after the start. *)
Definition image_fragment : Shader.image_inputs :=
  {| Shader.i_color := (0.04, 0.04, 0.04);
     Shader.i_fragCoord := (10.5, 20.5);
     Shader.i_resolution := (640, 480);
     Shader.i_ditherMode := 5%Z;
     Shader.i_time := 3;
     Shader.i_bgColor := (1, 0.98, 0.94);
     Shader.i_fgColor := (0.1, 0.1, 0.1);
     Shader.i_invert := 0 |}.

End Sample.

(* ===================================================================== *)
(** * Properties of the colour parsers *)
(* ===================================================================== *)

Module ColorFacts.
Import Color.

Lemma hex_digit_not_ws (c : ascii) : is_hex_digit c = true -> is_ws c = false.
Proof.
  destruct c as [[] [] [] [] [] [] [] []]; vm_compute; intros H;
    first [reflexivity | discriminate H].
Qed.

Lemma hex_digit_not_hash (c : ascii) :
  is_hex_digit c = true -> Ascii.eqb "#"%char c = false.
Proof.
  destruct c as [[] [] [] [] [] [] [] []]; vm_compute; intros H;
    first [reflexivity | discriminate H].
Qed.

(** Trimming and removing the hash leave the digits of a colour alone. *)
Ltac strip_digits Ha Hb Hc :=
  unfold trim, with_hash, short_form, long_form;
  cbn [trim_start trim_end];
  repeat first
    [ rewrite (hex_digit_not_ws _ Ha)
    | rewrite (hex_digit_not_ws _ Hb)
    | rewrite (hex_digit_not_ws _ Hc)
    | progress change (is_ws "#"%char) with false
    | progress cbn [trim_start trim_end] ];
  cbn [remove_first];
  repeat first
    [ rewrite (hex_digit_not_hash _ Ha)
    | rewrite (hex_digit_not_hash _ Hb)
    | rewrite (hex_digit_not_hash _ Hc) ];
  try reflexivity.

Section Digits.
Variables a b c : ascii.
Hypothesis Ha : is_hex_digit a = true.
Hypothesis Hb : is_hex_digit b = true.
Hypothesis Hc : is_hex_digit c = true.

Lemma prepare_short :
  remove_first "#"%char (trim (short_form a b c)) = short_form a b c.
Proof. strip_digits Ha Hb Hc. Qed.

Lemma prepare_long :
  remove_first "#"%char (trim (long_form a b c)) = long_form a b c.
Proof. strip_digits Ha Hb Hc. Qed.

Lemma prepare_hash_short :
  remove_first "#"%char (trim (with_hash (short_form a b c))) = short_form a b c.
Proof. strip_digits Ha Hb Hc. Qed.

Lemma prepare_hash_long :
  remove_first "#"%char (trim (with_hash (long_form a b c))) = long_form a b c.
Proof. strip_digits Ha Hb Hc. Qed.
End Digits.

(** A doubled digit reads as seventeen times the digit: the components of
    a shorthand colour are numbers, not [NaN]. *)
Lemma parseInt16_doubled (a : ascii) (d : Z) :
  hex_digit a = Some d ->
  parseInt16 (String a (String a EmptyString)) = Some (inject_Z (17 * d)).
Proof.
  destruct a as [[] [] [] [] [] [] [] []]; vm_compute; intros H;
    first [discriminate H | injection H as <-; reflexivity].
Qed.

(** C8.  A three-digit hex colour and the six-digit colour obtained by
    doubling each digit parse to the same RGB triple, with or without
    the leading hash, for [parseHexColor] and for [hexToRgb]. *)
Theorem shorthand_parses_like_expansion (a b c : ascii) :
  is_hex_digit a = true -> is_hex_digit b = true -> is_hex_digit c = true ->
  parseHexColor (short_form a b c) = parseHexColor (long_form a b c)
  /\ parseHexColor (with_hash (short_form a b c))
     = parseHexColor (with_hash (long_form a b c))
  /\ hexToRgb (short_form a b c) = hexToRgb (long_form a b c)
  /\ hexToRgb (with_hash (short_form a b c)) = hexToRgb (with_hash (long_form a b c)).
Proof.
  intros Ha Hb Hc. unfold parseHexColor, hexToRgb.
  rewrite (prepare_short a b c Ha Hb Hc), (prepare_long a b c Ha Hb Hc),
    (prepare_hash_short a b c Ha Hb Hc), (prepare_hash_long a b c Ha Hb Hc).
  repeat split; reflexivity.
Qed.

Lemma shorthand_parses_like_expansion_abc :
  parseHexColor "abc" = parseHexColor "aabbcc"
  /\ parseHexColor "#abc" = parseHexColor "#aabbcc"
  /\ hexToRgb "abc" = hexToRgb "aabbcc"
  /\ hexToRgb "#abc" = hexToRgb "#aabbcc".
Proof.
  exact (shorthand_parses_like_expansion "a" "b" "c" eq_refl eq_refl eq_refl).
Defined.

(** The triple of a shorthand colour, component by component. *)
Lemma hexToRgb_short (a b c : ascii) (x y z : Z) :
  hex_digit a = Some x -> hex_digit b = Some y -> hex_digit c = Some z ->
  hexToRgb (with_hash (short_form a b c))
  = [Some (inject_Z (17 * x)); Some (inject_Z (17 * y)); Some (inject_Z (17 * z))].
Proof.
  intros Hx Hy Hz. unfold hexToRgb.
  rewrite prepare_hash_short by (unfold is_hex_digit; rewrite ?Hx, ?Hy, ?Hz; reflexivity).
  unfold short_form, expand_shorthand, slice. cbn [substring Nat.sub].
  rewrite (parseInt16_doubled a x Hx), (parseInt16_doubled b y Hy),
    (parseInt16_doubled c z Hz).
  reflexivity.
Qed.

(** C10.  For every string, each component of [parseHexColor] is the
    corresponding component of [hexToRgb] divided by 255 (a [NaN]
    component of one is a [NaN] component of the other). *)
Theorem parseHexColor_is_hexToRgb_over_255 (hex : string) :
  parseHexColor hex = map (fun c => num_div c 255) (hexToRgb hex).
Proof. reflexivity. Qed.

End ColorFacts.

(* ===================================================================== *)
(** * Properties of the easing *)
(* ===================================================================== *)

Module EasingFacts.
Import Easing.
Local Open Scope Q_scope.

(** The cubic [p * p * (3 - 2 * p)] is non-decreasing on [0, 1]. *)
Lemma cubic_monotone (p q : Q) :
  0 <= p -> p <= q -> q <= 1 ->
  p * p * (3 - 2 * p) <= q * q * (3 - 2 * q).
Proof.
  intros Hp Hpq Hq.
  assert (E : q * q * (3 - 2 * q) - p * p * (3 - 2 * p)
              == (q - p) * (2 * (p * (1 - p)) + 2 * (q * (1 - q))
                            + p * (1 - q) + q * (1 - p))) by ring.
  assert (H1 : 0 <= p * (1 - p)) by (apply Qmult_le_0_compat; lra).
  assert (H2 : 0 <= q * (1 - q)) by (apply Qmult_le_0_compat; lra).
  assert (H3 : 0 <= p * (1 - q)) by (apply Qmult_le_0_compat; lra).
  assert (H4 : 0 <= q * (1 - p)) by (apply Qmult_le_0_compat; lra).
  assert (H5 : 0 <= (q - p) * (2 * (p * (1 - p)) + 2 * (q * (1 - q))
                               + p * (1 - q) + q * (1 - p)))
    by (apply Qmult_le_0_compat; lra).
  lra.
Qed.

Lemma cubic_range (p : Q) : 0 <= p -> p <= 1 -> 0 <= p * p * (3 - 2 * p) <= 1.
Proof.
  intros Hp Hp1. split.
  - pose proof (cubic_monotone 0 p (Qle_refl 0) Hp Hp1) as H. lra.
  - pose proof (cubic_monotone p 1 Hp Hp1 (Qle_refl 1)) as H. lra.
Qed.

(** The clamped progress [Math.min(1.0, scrollY / scrollDistance)]. *)
Lemma progress_bounds (y d : Q) : 0 < d -> 0 <= y -> 0 <= Qmin 1 (y / d) <= 1.
Proof.
  intros Hd Hy. split.
  - apply Q.min_glb; [lra |]. apply Qle_shift_div_l; [exact Hd | lra].
  - apply Q.le_min_l.
Qed.



(** The two callers compute [ease] with 30% of the header height, which is
    positive as soon as the header has a positive height. *)
Lemma updateWarmth_is_ease (h y : Q) : updateWarmth h y = ease y (h * 0.3).
Proof. reflexivity. Qed.

Lemma updateScrollProgress_is_ease (header : option Q) (y : Q) :
  updateScrollProgress header y
  = ease y ((match header with Some h => h | None => 256 end) * 0.3).
Proof. reflexivity. Qed.

Lemma distance_positive (h : Q) : 0 < h -> 0 < h * 0.3.
Proof. intros Hh. apply Qmult_lt_0_compat; [exact Hh | reflexivity]. Qed.

End EasingFacts.

(* ===================================================================== *)
(** * The easing as the script computes it *)
(* ===================================================================== *)

Module DoubleFacts.
Import Floats Double.
Local Open Scope float_scope.
#[local] Set Warnings "-inexact-float".










End DoubleFacts.


(* ===================================================================== *)
(** * Properties of the dither-mode selection *)
(* ===================================================================== *)

Module DitherParamFacts.
Import DitherParam.
Local Open Scope string_scope.

(** Each of the eight names selects its integer, in both contexts. *)
Lemma named_mode_selected :
  Forall (fun nm => header_ditherMode (Some nm.1) = VNumber nm.2
                    /\ image_ditherMode (Some nm.1) = VNumber nm.2)
         named_modes.
Proof. repeat constructor. Qed.

(** An absent parameter selects the default of the context. *)
Lemma absent_parameter_defaults :
  header_ditherMode None = VNumber 1 /\ image_ditherMode None = VNumber 5.
Proof. split; reflexivity. Qed.

(** A value that names neither an own property of [ditherModes] nor a
    property of [Object.prototype] selects the default of the context. *)
Lemma unknown_name_defaults (s : string) :
  own ditherModes !! s = None ->
  proto ditherModes !! s = None ->
  header_ditherMode (Some s) = VNumber 1 /\ image_ditherMode (Some s) = VNumber 5.
Proof.
  intros Ho Hp. unfold header_ditherMode, image_ditherMode, ditherMode, get.
  cbn [property_key]. rewrite Ho, Hp. split; reflexivity.
Qed.

(** C3, at [?dither=toString].  The value names none of the eight modes, yet
    the lookup does not fall back to the default: the read reaches
    [Object.prototype.toString], which is neither [null] nor [undefined],
    and [gl.uniform1i] stores 0 (the Bayer branch) for it, not 1 (atkinson)
    in the header and not 5 (cluster4) for images. *)
Theorem inherited_name_is_not_defaulted :
  ~ In "toString" (map fst named_modes)
  /\ header_ditherMode (Some "toString") = VFunction "toString"
  /\ image_ditherMode (Some "toString") = VFunction "toString"
  /\ uniform1i (header_ditherMode (Some "toString")) = 0
  /\ uniform1i (header_ditherMode None) = 1
  /\ uniform1i (image_ditherMode (Some "toString")) = 0
  /\ uniform1i (image_ditherMode None) = 5.
Proof.
  split; [| repeat split; reflexivity].
  cbn. intros H. repeat (destruct H as [H | H]; [discriminate H |]). exact H.
Qed.

(** The same happens for every property name of [Object.prototype]. *)
Lemma inherited_names_select_bayer (s : string) (v : value) :
  Object_prototype !! s = Some v ->
  uniform1i (header_ditherMode (Some s)) = 0
  /\ uniform1i (image_ditherMode (Some s)) = 0.
Proof.
  intros H. unfold header_ditherMode, image_ditherMode, ditherMode, get.
  cbn [property_key].
  destruct (own ditherModes !! s) as [w|] eqn:Ho.
  - exfalso. revert Ho H. unfold ditherModes, Object_prototype. cbn [own].
    rewrite !lookup_insert_Some, !lookup_empty.
    intros Ho H.
    repeat (destruct Ho as [[<- _] | [_ Ho]];
            [ repeat (destruct H as [[H _] | [_ H]]; [discriminate H |]);
              discriminate H |]).
    discriminate Ho.
  - cbn [proto ditherModes]. rewrite H.
    revert H. unfold Object_prototype.
    rewrite !lookup_insert_Some, !lookup_empty.
    intros H.
    repeat (destruct H as [[_ <-] | [_ H]]; [split; reflexivity |]).
    discriminate H.
Qed.

End DitherParamFacts.


(* ===================================================================== *)
(** * Properties of the threshold textures *)
(* ===================================================================== *)

Module TextureFacts.
Import Texture.

(** ** Stable sorting *)

Section Sorting.
Context {A : Type} (before : A -> A -> bool).

Lemma sort_insert_perm (x : A) (l : list A) :
  Permutation (sort_insert before x l) (x :: l).
Proof.
  induction l as [|y l IH]; cbn.
  - reflexivity.
  - destruct (before x y).
    + reflexivity.
    + rewrite IH. apply perm_swap.
Qed.

Lemma stable_sort_perm (l : list A) : Permutation (stable_sort before l) l.
Proof.
  unfold stable_sort.
  assert (G : forall acc, Permutation (fold_left (fun acc x => sort_insert before x acc) l acc)
                                      (acc ++ l)).
  { induction l as [|x l IH]; intros acc; cbn.
    - rewrite app_nil_r. reflexivity.
    - rewrite IH, sort_insert_perm. apply Permutation_middle. }
  apply (G []).
Qed.

Context (key : A -> Q).
Hypothesis before_spec : forall a b, before a b = true <-> (key a < key b)%Q.

Let ordered (a b : A) : Prop := (key a <= key b)%Q.

Lemma sort_insert_sorted (x : A) (l : list A) :
  StronglySorted ordered l -> StronglySorted ordered (sort_insert before x l).
Proof.
  induction 1 as [|y l Hs IH Hy]; cbn.
  - repeat constructor.
  - destruct (before x y) eqn:E.
    + apply before_spec in E.
      constructor; [constructor; assumption |].
      constructor; [apply Qlt_le_weak, E |].
      eapply Forall_impl; [exact Hy |].
      intros z Hz. unfold ordered in *. cbv beta in Hz.
      eapply Qle_trans; [apply Qlt_le_weak, E | exact Hz].
    + constructor; [exact IH |].
      assert (Hxy : ordered y x).
      { unfold ordered. apply Qnot_lt_le. intros C. apply before_spec in C. congruence. }
      rewrite (sort_insert_perm x l). constructor; assumption.
Qed.

Lemma stable_sort_sorted (l : list A) : StronglySorted ordered (stable_sort before l).
Proof.
  unfold stable_sort.
  assert (G : forall acc, StronglySorted ordered acc ->
              StronglySorted ordered (fold_left (fun acc x => sort_insert before x acc) l acc)).
  { induction l as [|x l IH]; intros acc Hacc; cbn; [exact Hacc |].
    apply IH, sort_insert_sorted, Hacc. }
  apply G. constructor.
Qed.

Lemma sorted_lookup (l : list A) (i j : nat) (a b : A) :
  StronglySorted ordered l -> (i < j)%nat ->
  l !! i = Some a -> l !! j = Some b -> ordered a b.
Proof.
  intros Hs. revert i j. induction Hs as [|y l Hs IH Hy]; intros i j Hij Hi Hj.
  - discriminate Hi.
  - destruct j as [|j]; [lia |]. cbn in Hj.
    destruct i as [|i].
    + cbn in Hi. injection Hi as <-.
      rewrite Forall_forall in Hy. apply Hy.
      eapply list_elem_of_lookup_2, Hj.
    + cbn in Hi. apply (IH i j); [lia | assumption | assumption].
Qed.
End Sorting.

(** The indices pushed by the two loops are [0 .. size * size - 1], in
    order. *)
Lemma distances_rows (size a k : nat) :
  map d_idx
      (flat_map (fun y => map (fun x => {| d_idx := y * size + x;
                                           d_dist := dist_sq size x y |})
                              (seq 0 size))
                (seq a k))
  = seq (a * size) (k * size).
Proof.
  revert a. induction k as [|k IH]; intros a; [reflexivity |].
  cbn [seq flat_map]. rewrite map_app, IH, map_map. cbn [d_idx].
  replace (S k * size)%nat with (size + k * size)%nat by lia.
  rewrite seq_app. f_equal.
  - assert (G : forall n b c, map (fun x => (c + x)%nat) (seq b n) = seq (c + b) n).
    { clear. induction n as [|n IHn]; intros b c; [reflexivity |].
      cbn [seq map]. rewrite IHn. f_equal. f_equal. lia. }
    rewrite G. f_equal. lia.
  - f_equal. lia.
Qed.

Lemma distances_indices (size : nat) :
  map d_idx (distances size) = seq 0 (size * size).
Proof. unfold distances. rewrite distances_rows. reflexivity. Qed.

Lemma entry_in_distances (size x y : nat) :
  (x < size)%nat -> (y < size)%nat -> In (entry_of size x y) (distances size).
Proof.
  intros Hx Hy. unfold distances. apply in_flat_map. exists y. split.
  - apply in_seq. lia.
  - apply in_map_iff. exists x. split; [reflexivity | apply in_seq; lia].
Qed.

Lemma dist_before_spec (a b : dist_entry) :
  dist_before a b = true <-> (d_dist a < d_dist b)%Q.
Proof.
  unfold dist_before. rewrite negb_true_iff.
  split.
  - intros H. apply Qnot_le_lt. intros C. apply Qle_bool_iff in C. congruence.
  - intros H. destruct (Qle_bool (d_dist b) (d_dist a)) eqn:E; [| reflexivity].
    apply Qle_bool_iff in E. exfalso. apply (Qlt_not_le _ _ H E).
Qed.


(** ** The loop over the ranks *)

Section Ranks.
Context {A : Type} (index : A -> nat) (value : nat -> Z).

Let write (px : list Z) (re : nat * A) : list Z :=
  u8_set px (index re.2) (value re.1).

Lemma writes_keep_length (l : list (nat * A)) (px : list Z) :
  length (fold_left write l px) = length px.
Proof.
  revert px. induction l as [|re l IH]; intros px; cbn; [reflexivity |].
  rewrite IH. unfold write, u8_set. apply length_insert.
Qed.

Lemma writes_elsewhere (l : list (nat * A)) (px : list Z) (i : nat) :
  Forall (fun re => index re.2 <> i) l ->
  fold_left write l px !! i = px !! i.
Proof.
  revert px. induction l as [|re l IH]; intros px Hl; cbn; [reflexivity |].
  apply Forall_cons in Hl as [Hre Hl]. rewrite (IH _ Hl).
  unfold write, u8_set. apply list_lookup_insert_ne. exact Hre.
Qed.

Lemma ranks_from (es : list A) (k : nat) (px : list Z) (r : nat) (e : A) :
  NoDup (map index es) ->
  Forall (fun e => (index e < length px)%nat) es ->
  es !! r = Some e ->
  fold_left write (combine (seq k (length es)) es) px !! index e
  = Some (to_uint8 (value (k + r))).
Proof.
  revert k px r. induction es as [|e0 es IH]; intros k px r Hnd Hlen Hr.
  - discriminate Hr.
  - cbn [length seq combine fold_left map] in *.
    apply NoDup_cons in Hnd as [Hnotin Hnd].
    apply Forall_cons in Hlen as [Hlt Hlen].
    destruct r as [|r]; cbn in Hr.
    + injection Hr as <-.
      rewrite writes_elsewhere.
      * unfold write, u8_set. cbn [fst snd].
        rewrite list_lookup_insert_eq by exact Hlt.
        repeat f_equal. lia.
      * apply Forall_forall. intros [r' e'] Hin Heq. cbn [snd] in Heq.
        apply Hnotin. rewrite <- Heq.
        apply list_elem_of_In, in_map.
        apply (in_combine_r (seq (S k) (length es)) es r' e').
        apply list_elem_of_In, Hin.
    + replace (k + S r)%nat with (S k + r)%nat by lia.
      apply IH; [exact Hnd | | exact Hr].
      eapply Forall_impl; [exact Hlen |].
      intros e' He'. unfold write, u8_set. rewrite length_insert. exact He'.
Qed.

Lemma assign_ranks_lookup (es : list A) (px : list Z) (r : nat) (e : A) :
  NoDup (map index es) ->
  Forall (fun e => (index e < length px)%nat) es ->
  es !! r = Some e ->
  assign_ranks index value es px !! index e = Some (to_uint8 (value r)).
Proof.
  intros Hnd Hlen Hr. unfold assign_ranks.
  exact (ranks_from es 0 px r e Hnd Hlen Hr).
Qed.

Lemma assign_ranks_bytes (es : list A) (px : list Z) :
  is_bytes px -> is_bytes (assign_ranks index value es px).
Proof.
  unfold assign_ranks. generalize (combine (seq 0 (length es)) es) as l.
  intros l. revert px. induction l as [|re l IH]; intros px Hpx; cbn; [exact Hpx |].
  apply IH. unfold u8_set, is_bytes. apply Forall_insert; [exact Hpx |].
  unfold to_uint8. apply Z.mod_pos_bound. lia.
Qed.
End Ranks.

(** ** The value of a rank *)

Lemma rank_value_monotone (r1 r2 n : nat) :
  (r1 <= r2)%nat -> (0 < n)%nat -> rank_value r1 n <= rank_value r2 n.
Proof.
  intros Hr Hn. unfold rank_value. apply Qfloor_resp_le.
  apply Qmult_le_compat_r; [| discriminate].
  unfold Qdiv. apply Qmult_le_compat_r.
  - rewrite <- Zle_Qle. lia.
  - apply Qlt_le_weak, Qinv_lt_0_compat.
    replace 0%Q with (inject_Z 0) by reflexivity. rewrite <- Zlt_Qlt. lia.
Qed.

Lemma rank_value_range (r n : nat) :
  (r < n)%nat -> 0 <= rank_value r n <= 255.
Proof.
  intros Hr.
  assert (Hn : (0 < inject_Z (Z.of_nat n))%Q).
  { replace 0%Q with (inject_Z 0) by reflexivity. rewrite <- Zlt_Qlt. lia. }
  assert (H0 : (0 <= inject_Z (Z.of_nat r))%Q).
  { replace 0%Q with (inject_Z 0) by reflexivity. rewrite <- Zle_Qle. lia. }
  assert (H1 : (inject_Z (Z.of_nat r) <= inject_Z (Z.of_nat n))%Q).
  { rewrite <- Zle_Qle. lia. }
  assert (H2 : (0 <= inject_Z (Z.of_nat r) / inject_Z (Z.of_nat n) <= 1)%Q).
  { split; [apply Qle_shift_div_l | apply Qle_shift_div_r]; first [exact Hn | lra]. }
  unfold rank_value. split.
  - apply (Qfloor_resp_le 0). lra.
  - apply (fun q H => Qfloor_resp_le q 255 H). lra.
Qed.

Lemma to_uint8_byte (v : Z) : 0 <= v <= 255 -> to_uint8 v = v.
Proof. intros H. unfold to_uint8. apply Z.mod_small. lia. Qed.


(** ** Clustered dots *)

Lemma sorted_distances_length (size : nat) :
  length (stable_sort dist_before (distances size)) = (size * size)%nat.
Proof.
  rewrite (Permutation_length (stable_sort_perm dist_before (distances size))).
  rewrite <- (length_map d_idx), distances_indices. apply length_seq.
Qed.

(** The pixel of an entry of the sorted list holds the value of its rank. *)
Lemma pixel_of_rank (size r : nat) (e : dist_entry) :
  stable_sort dist_before (distances size) !! r = Some e ->
  generateClusteredDot size !! d_idx e = Some (rank_value r (size * size)).
Proof.
  intros Hr. unfold generateClusteredDot. cbv zeta.
  pose proof (stable_sort_perm dist_before (distances size)) as Hp.
  rewrite sorted_distances_length.
  rewrite (assign_ranks_lookup d_idx _ _ _ r e).
  - f_equal. apply to_uint8_byte, rank_value_range.
    rewrite <- (sorted_distances_length size). eapply lookup_lt_Some, Hr.
  - rewrite (Permutation_map d_idx Hp), distances_indices. apply NoDup_seq.
  - apply Forall_forall. intros e' He'.
    unfold u8_new. rewrite length_replicate.
    assert (Hin : In (d_idx e') (map d_idx (distances size))).
    { apply in_map. rewrite <- Hp. apply list_elem_of_In, He'. }
    rewrite distances_indices in Hin. apply in_seq in Hin. lia.
  - exact Hr.
Qed.

Lemma rank_of_pixel (size x y : nat) :
  (x < size)%nat -> (y < size)%nat ->
  exists r, stable_sort dist_before (distances size) !! r = Some (entry_of size x y).
Proof.
  intros Hx Hy. apply list_elem_of_lookup_1, list_elem_of_In.
  rewrite (stable_sort_perm dist_before (distances size)).
  apply entry_in_distances; assumption.
Qed.

(** C9.  The pixels are ranked by their distance from the centre
    [(size - 1) / 2]: the sorted list is ordered by distance, every pixel
    holds [floor(rank / n * 255)] for its rank in that list, and of two
    pixels of the cell the one strictly closer to the centre has the
    smaller rank and a threshold that is less than or equal to the
    other's. *)
Theorem closer_pixel_has_lower_threshold (size x1 y1 x2 y2 : nat) :
  (x1 < size)%nat -> (y1 < size)%nat -> (x2 < size)%nat -> (y2 < size)%nat ->
  (dist_sq size x1 y1 < dist_sq size x2 y2)%Q ->
  let sorted := stable_sort dist_before (distances size) in
  let pixels := generateClusteredDot size in
  StronglySorted by_distance sorted
  /\ exists r1 r2 : nat,
       sorted !! r1 = Some (entry_of size x1 y1)
       /\ sorted !! r2 = Some (entry_of size x2 y2)
       /\ pixel_at size pixels x1 y1 = rank_value r1 (size * size)
       /\ pixel_at size pixels x2 y2 = rank_value r2 (size * size)
       /\ (r1 < r2)%nat
       /\ pixel_at size pixels x1 y1 <= pixel_at size pixels x2 y2.
Proof.
  intros Hx1 Hy1 Hx2 Hy2 Hd sorted pixels.
  assert (Hs : StronglySorted by_distance sorted)
    by exact (stable_sort_sorted dist_before d_dist dist_before_spec (distances size)).
  split; [exact Hs |].
  destruct (rank_of_pixel size x1 y1 Hx1 Hy1) as [r1 Hr1].
  destruct (rank_of_pixel size x2 y2 Hx2 Hy2) as [r2 Hr2].
  exists r1, r2.
  assert (P1 : pixel_at size pixels x1 y1 = rank_value r1 (size * size)).
  { unfold pixel_at. apply nth_lookup_Some. exact (pixel_of_rank size r1 _ Hr1). }
  assert (P2 : pixel_at size pixels x2 y2 = rank_value r2 (size * size)).
  { unfold pixel_at. apply nth_lookup_Some. exact (pixel_of_rank size r2 _ Hr2). }
  assert (Hlt : (r1 < r2)%nat).
  { destruct (Nat.lt_trichotomy r1 r2) as [H | [H | H]]; [exact H | |]; exfalso.
    - subst r2.
      assert (Heq : entry_of size x1 y1 = entry_of size x2 y2) by congruence.
      apply (f_equal d_dist) in Heq.
      change (dist_sq size x1 y1 = dist_sq size x2 y2) in Heq.
      rewrite Heq in Hd. exact (Qlt_irrefl _ Hd).
    - pose proof (sorted_lookup d_dist sorted r2 r1 _ _ Hs H Hr2 Hr1) as Hle.
      cbn [entry_of d_dist] in Hle. exact (Qlt_not_le _ _ Hd Hle). }
  repeat split; try assumption.
  rewrite P1, P2. apply rank_value_monotone; [lia | nia].
Qed.

Lemma closer_pixel_has_lower_threshold_16 :
  pixel_at 16 clustered16 7 7 <= pixel_at 16 clustered16 0 0.
Proof.
  assert (H7 : (7 < 16)%nat) by lia.
  assert (H0 : (0 < 16)%nat) by lia.
  assert (Hd : (dist_sq 16 7 7 < dist_sq 16 0 0)%Q) by reflexivity.
  destruct (closer_pixel_has_lower_threshold 16 7 7 0 0 H7 H7 H0 H0 Hd)
    as [_ [r1 [r2 [_ [_ [_ [_ [_ H]]]]]]]].
  exact H.
Defined.

(** ** Every texture is an array of bytes *)

Lemma to_uint8_range (v : Z) : 0 <= to_uint8 v < 256.
Proof. unfold to_uint8. apply Z.mod_pos_bound. lia. Qed.

Lemma u8_new_bytes (n : nat) : is_bytes (u8_new n).
Proof. unfold is_bytes, u8_new. apply Forall_replicate. lia. Qed.

Lemma u8_set_bytes (a : list Z) (i : nat) (v : Z) :
  is_bytes a -> is_bytes (u8_set a i v).
Proof. intros H. apply Forall_insert; [exact H | apply to_uint8_range]. Qed.

Lemma u8_of_list_bytes (l : list Z) : is_bytes (u8_of_list l).
Proof.
  unfold is_bytes, u8_of_list. apply Forall_forall. intros b Hb.
  apply list_elem_of_In, in_map_iff in Hb as [v [<- _]]. apply to_uint8_range.
Qed.

Lemma generateClusteredDot_bytes (size : nat) : is_bytes (generateClusteredDot size).
Proof. unfold generateClusteredDot. apply assign_ranks_bytes, u8_new_bytes. Qed.

Lemma refine_step_bytes (M : JSMath) (size pass i : nat) (px : list Z) :
  is_bytes px -> is_bytes (refine_step M size pass i px).
Proof.
  intros H. unfold refine_step. cbv zeta.
  destruct (_ =? _); [exact H |].
  destruct (u8_get px _) as [v1|]; [| exact H].
  destruct (u8_get px _) as [v2|]; [| exact H].
  destruct (_ && _); [| exact H].
  apply u8_set_bytes, u8_set_bytes, H.
Qed.

Lemma generateBlueNoise_bytes (M : JSMath) (size : nat) :
  is_bytes (generateBlueNoise M size).
Proof.
  unfold generateBlueNoise. cbv zeta.
  generalize (seq 0 8) as passes.
  generalize (assign_ranks_bytes (v_idx M) (rank_byte M (size * size))
                (stable_sort (val_before M) (values M size))
                (u8_new (size * size)) (u8_new_bytes _)).
  generalize (assign_ranks (v_idx M) (rank_byte M (size * size))
                (stable_sort (val_before M) (values M size)) (u8_new (size * size))).
  intros px Hpx passes. revert px Hpx.
  induction passes as [|pass passes IH]; intros px Hpx; cbn [fold_left]; [exact Hpx |].
  apply IH. unfold refine_pass.
  generalize (seq 0 (size * size)) as cells. intros cells. revert px Hpx.
  induction cells as [|i cells IHi]; intros px Hpx; cbn [fold_left]; [exact Hpx |].
  apply IHi, refine_step_bytes, Hpx.
Qed.

End TextureFacts.


(* ===================================================================== *)
(** * Properties of the fragment shaders *)
(* ===================================================================== *)

Module ShaderFacts.
Import Shader.
Local Open Scope Q_scope.

(** ** Built-in functions *)

Lemma floorQ_bounds (x : Q) : floorQ x <= x /\ x < floorQ x + 1.
Proof.
  unfold floorQ. split; [apply Qfloor_le |].
  pose proof (Qlt_floor x) as H. rewrite inject_Z_plus in H. exact H.
Qed.

Lemma fract_range (x : Q) : 0 <= fract x /\ fract x < 1.
Proof. unfold fract. destruct (floorQ_bounds x). split; lra. Qed.

Lemma glsl_mod_range (x k : Q) : 0 < k -> 0 <= glsl_mod x k /\ glsl_mod x k < k.
Proof.
  intros Hk. unfold glsl_mod.
  destruct (floorQ_bounds (x / k)) as [L U].
  assert (E : k * (x / k) == x) by (apply Qmult_div_r; lra).
  assert (L' : k * floorQ (x / k) <= k * (x / k)) by (apply Qmult_le_l; assumption).
  assert (U' : k * (x / k) < k * (floorQ (x / k) + 1)) by (apply Qmult_lt_l; assumption).
  rewrite E in L', U'. split; lra.
Qed.

Lemma glsl_int_range (v : Q) (k : Z) :
  0 <= v -> v < inject_Z k -> (0 <= glsl_int v < k)%Z.
Proof.
  intros L U. unfold glsl_int.
  assert (E : Qle_bool 0 v = true) by (apply Qle_bool_iff; exact L).
  rewrite E. split.
  - apply (Qfloor_resp_le 0 v L).
  - rewrite Zlt_Qlt. eapply Qle_lt_trans; [apply Qfloor_le | exact U].
Qed.

(** The cell coordinate [int(mod(c, k))] is one of [0 .. k - 1]. *)
Lemma cell_coordinate (c : Q) (k : Z) :
  (0 < k)%Z -> (0 <= glsl_int (glsl_mod c (inject_Z k)) < k)%Z.
Proof.
  intros Hk.
  assert (Hq : 0 < inject_Z k).
  { replace 0 with (inject_Z 0) by reflexivity. rewrite <- Zlt_Qlt. exact Hk. }
  destruct (glsl_mod_range c (inject_Z k) Hq) as [L U].
  apply glsl_int_range; assumption.
Qed.

Lemma clamp_range (x : Q) : 0 <= clamp x 0 1 /\ clamp x 0 1 <= 1.
Proof.
  unfold clamp. split.
  - apply Q.min_glb; [apply Q.le_max_r | discriminate].
  - apply Q.le_min_r.
Qed.

Lemma clamp_inside (x : Q) : 0 <= x -> x <= 1 -> clamp x 0 1 == x.
Proof.
  intros L U. unfold clamp.
  rewrite (Q.max_l x 0 L). apply Q.min_l. exact U.
Qed.

Lemma clamp_below (x : Q) : x <= 0 -> clamp x 0 1 == 0.
Proof.
  intros L. unfold clamp.
  rewrite (Q.max_r x 0 L). apply Q.min_l. discriminate.
Qed.

Lemma clamp_wd (x y : Q) : x == y -> clamp x 0 1 == clamp y 0 1.
Proof.
  intros E. unfold clamp.
  assert (A : Qmax x 0 == Qmax y 0).
  { destruct (Q.max_spec x 0) as [[? Hx] | [? Hx]],
             (Q.max_spec y 0) as [[? Hy] | [? Hy]]; rewrite Hx, Hy; lra. }
  destruct (Q.min_spec (Qmax x 0) 1) as [[? Hx] | [? Hx]],
           (Q.min_spec (Qmax y 0) 1) as [[? Hy] | [? Hy]]; rewrite Hx, Hy; lra.
Qed.

(** ** The threshold functions *)

Lemma hash_range (p : vec2) : 0 <= hash p /\ hash p < 1.
Proof. unfold hash. destruct p as [px py]. cbv zeta. apply fract_range. Qed.

Lemma table_lookup_index (thresholds : list Q) (idx : Z) :
  (0 <= idx < 16)%Z ->
  table_lookup thresholds idx = nth (Z.to_nat idx) thresholds 0 / 16.
Proof.
  intros H.
  assert (C : (idx = 0 \/ idx = 1 \/ idx = 2 \/ idx = 3 \/ idx = 4 \/ idx = 5
              \/ idx = 6 \/ idx = 7 \/ idx = 8 \/ idx = 9 \/ idx = 10 \/ idx = 11
              \/ idx = 12 \/ idx = 13 \/ idx = 14 \/ idx = 15)%Z) by lia.
  repeat (destruct C as [-> | C]; [reflexivity |]). subst idx. reflexivity.
Qed.

Lemma cell_index (pos : vec2) (k : Z) :
  (0 < k)%Z ->
  (0 <= glsl_int (glsl_mod (snd pos) (inject_Z k)) * k
        + glsl_int (glsl_mod (fst pos) (inject_Z k)) < k * k)%Z.
Proof.
  intros Hk.
  pose proof (cell_coordinate (fst pos) k Hk).
  pose proof (cell_coordinate (snd pos) k Hk).
  nia.
Qed.

(** The entries of both 4x4 tables are the integers 0 to 15. *)
Lemma table_entry_range (thresholds : list Q) (i : nat) :
  thresholds = atkinson_table \/ thresholds = clustered4_table ->
  (i < 16)%nat ->
  exists n : Z, (0 <= n <= 15)%Z /\ nth i thresholds 0 = inject_Z n.
Proof.
  intros [-> | ->] Hi;
    do 16 (destruct i as [|i]; [eexists; split; [| reflexivity]; lia |]); lia.
Qed.

Lemma atkinsonThreshold_entry (pos : vec2) :
  exists n : Z, (0 <= n <= 15)%Z /\ atkinsonThreshold pos = inject_Z n / 16.
Proof.
  unfold atkinsonThreshold. cbv zeta.
  pose proof (cell_index pos 4 eq_refl) as H. change (inject_Z 4) with 4 in H.
  rewrite table_lookup_index by lia.
  destruct (table_entry_range atkinson_table
              (Z.to_nat (glsl_int (glsl_mod (snd pos) 4) * 4
                         + glsl_int (glsl_mod (fst pos) 4))))
    as [n [Hn E]]; [left; reflexivity | lia |].
  exists n. split; [exact Hn |]. rewrite E. reflexivity.
Qed.

Lemma clustered4Threshold_entry (pos : vec2) :
  exists n : Z, (0 <= n <= 15)%Z /\ clustered4Threshold pos = inject_Z n / 16.
Proof.
  unfold clustered4Threshold. cbv zeta.
  pose proof (cell_index pos 4 eq_refl) as H. change (inject_Z 4) with 4 in H.
  rewrite table_lookup_index by lia.
  destruct (table_entry_range clustered4_table
              (Z.to_nat (glsl_int (glsl_mod (snd pos) 4) * 4
                         + glsl_int (glsl_mod (fst pos) 4))))
    as [n [Hn E]]; [right; reflexivity | lia |].
  exists n. split; [exact Hn |]. rewrite E. reflexivity.
Qed.

Lemma sixteenth_range (n : Z) : (0 <= n <= 15)%Z -> 0 <= inject_Z n / 16 /\ inject_Z n / 16 <= 1.
Proof.
  intros [L U].
  assert (L' : inject_Z 0 <= inject_Z n) by (rewrite <- Zle_Qle; exact L).
  assert (U' : inject_Z n <= inject_Z 15) by (rewrite <- Zle_Qle; exact U).
  change (inject_Z 0) with 0 in L'. change (inject_Z 15) with 15 in U'.
  split; [apply Qle_shift_div_l | apply Qle_shift_div_r]; lra.
Qed.

Lemma clusteredThreshold_values (pos : vec2) :
  clusteredThreshold pos = 0 \/ clusteredThreshold pos = 0.25
  \/ clusteredThreshold pos = 0.5 \/ clusteredThreshold pos = 0.75.
Proof.
  unfold clusteredThreshold. cbv zeta.
  repeat match goal with |- context [if ?b then _ else _] => destruct b end; auto.
Qed.

(** ** Sampling *)

Lemma texture2D_byte (size : nat) (tex : list Z) (coord : vec2) :
  Texture.is_bytes tex ->
  exists b : Z, (0 <= b <= 255)%Z /\ texture2D size tex coord = inject_Z b / 255.
Proof.
  intros Hb. unfold texture2D. cbv zeta.
  eexists. split; [| reflexivity].
  generalize (Z.to_nat
    (Qfloor (fract (snd coord) * inject_Z (Z.of_nat size)) * Z.of_nat size
     + Qfloor (fract (fst coord) * inject_Z (Z.of_nat size)))) as i.
  intros i. rewrite nth_lookup. destruct (tex !! i) as [b|] eqn:E; unfold default; cbn.
  - pose proof (Forall_lookup_1 _ _ _ _ Hb E) as H. cbv beta in H. lia.
  - lia.
Qed.

Lemma byte_range (b : Z) : (0 <= b <= 255)%Z -> 0 <= inject_Z b / 255 /\ inject_Z b / 255 <= 1.
Proof.
  intros [L U].
  assert (L' : inject_Z 0 <= inject_Z b) by (rewrite <- Zle_Qle; exact L).
  assert (U' : inject_Z b <= inject_Z 255) by (rewrite <- Zle_Qle; exact U).
  change (inject_Z 0) with 0 in L'. change (inject_Z 255) with 255 in U'.
  split; [apply Qle_shift_div_l | apply Qle_shift_div_r]; lra.
Qed.

Lemma program_samplers_bytes (M : Texture.JSMath) :
  Texture.is_bytes (u_bayer (program_samplers M))
  /\ Texture.is_bytes (u_blueNoise (program_samplers M))
  /\ Texture.is_bytes (u_cluster8 (program_samplers M))
  /\ Texture.is_bytes (u_cluster16 (program_samplers M)).
Proof.
  split; [| split; [| split]].
  - exact (TextureFacts.u8_of_list_bytes _).
  - exact (TextureFacts.generateBlueNoise_bytes M 64).
  - exact (TextureFacts.u8_of_list_bytes _).
  - exact (TextureFacts.generateClusteredDot_bytes 16).
Qed.

(** C1.  For every value of [u_ditherMode] (the eight modes, and any other
    integer, which takes the Bayer branch) and every fragment coordinate,
    the threshold chosen by the dispatch lies in [0, 1].  The Atkinson and
    the clustered 4x4 functions return an entry of their table over 16, the
    clustered 2x2 function returns 0, 0.25, 0.5 or 0.75, the hash returns a
    fractional part in [0, 1), and the four textures hold bytes, sampled as
    byte / 255. *)
Theorem threshold_in_unit_interval (M : Texture.JSMath) (mode : Z) (frag : vec2) :
  (0 <= threshold (program_samplers M) mode frag
   /\ threshold (program_samplers M) mode frag <= 1)
  /\ (exists n : Z, (0 <= n <= 15)%Z /\ atkinsonThreshold frag = inject_Z n / 16)
  /\ (exists n : Z, (0 <= n <= 15)%Z /\ clustered4Threshold frag = inject_Z n / 16)
  /\ (clusteredThreshold frag = 0 \/ clusteredThreshold frag = 0.25
      \/ clusteredThreshold frag = 0.5 \/ clusteredThreshold frag = 0.75)
  /\ (0 <= hash frag /\ hash frag < 1)
  /\ (forall (size : nat) (tex : list Z) (coord : vec2),
        In tex [u_bayer (program_samplers M); u_blueNoise (program_samplers M);
                u_cluster8 (program_samplers M); u_cluster16 (program_samplers M)] ->
        exists b : Z, (0 <= b <= 255)%Z /\ texture2D size tex coord = inject_Z b / 255).
Proof.
  destruct (program_samplers_bytes M) as [Bb [Bn [B8 B16]]].
  assert (T : forall size tex coord, Texture.is_bytes tex ->
                0 <= texture2D size tex coord /\ texture2D size tex coord <= 1).
  { intros size tex coord Hb.
    destruct (texture2D_byte size tex coord Hb) as [b [Hr ->]].
    apply byte_range, Hr. }
  split; [| split; [apply atkinsonThreshold_entry |
            split; [apply clustered4Threshold_entry |
            split; [apply clusteredThreshold_values |
            split; [apply hash_range |]]]]].
  - unfold threshold, dispatch.
    repeat match goal with |- context [if ?b then _ else _] => destruct b end;
      cbn [snd].
    + exact (T _ _ _ B16).
    + exact (T _ _ _ B8).
    + destruct (clustered4Threshold_entry frag) as [n [Hn ->]].
      apply sixteenth_range, Hn.
    + destruct (clusteredThreshold_values frag) as [-> | [-> | [-> | ->]]];
        split; discriminate.
    + exact (T _ _ _ Bn).
    + destruct (hash_range frag). split; lra.
    + destruct (atkinsonThreshold_entry frag) as [n [Hn ->]].
      apply sixteenth_range, Hn.
    + exact (T _ _ _ Bb).
  - intros size tex coord [<- | [<- | [<- | [<- | []]]]];
      apply texture2D_byte; assumption.
Qed.


(** ** The dispatch, branch by branch *)

Lemma threshold_independent_of_gray (tx : samplers) (mode : Z) (frag : vec2) (gray : Q) :
  snd (dispatch tx mode frag gray) = threshold tx mode frag.
Proof.
  unfold threshold, dispatch.
  repeat match goal with |- context [if ?b then _ else _] => destruct b end;
    reflexivity.
Qed.

Lemma adjusted_gray_as_written (tx : samplers) (mode : Z) (frag : vec2) (gray : Q) :
  adjusted_gray tx mode frag gray
  == match pre_adjustment mode with
     | Some (gain, bias) => clamp (gray * gain + bias) 0 1
     | None => gray
     end.
Proof.
  unfold adjusted_gray, dispatch, pre_adjustment.
  repeat match goal with
         | |- context [(mode =? ?k)%Z] => destruct (Z.eqb_spec mode k)
         end;
    cbn [fst]; first [reflexivity | apply clamp_wd; ring | exfalso; lia].
Qed.

Lemma unadjusted_modes (mode : Z) :
  (0 <= mode <= 7)%Z ->
  (pre_adjustment mode = None <-> (mode = 0 \/ mode = 2 \/ mode = 3)%Z).
Proof.
  intros H.
  assert (C : (mode = 0 \/ mode = 1 \/ mode = 2 \/ mode = 3 \/ mode = 4
               \/ mode = 5 \/ mode = 6 \/ mode = 7)%Z) by lia.
  repeat (destruct C as [-> | C];
          [cbn; split; [intros E; first [discriminate E | lia] | intros E; first [reflexivity | lia]] |]).
  subst mode. cbn. split; [intros E; discriminate E | lia].
Qed.

Lemma smoothstep_below (e0 e1 x : Q) : e0 < e1 -> x <= e0 -> smoothstep e0 e1 x == 0.
Proof.
  intros He Hx. unfold smoothstep. cbv zeta.
  assert (H : (x - e0) / (e1 - e0) <= 0).
  { apply Qle_shift_div_r; lra. }
  rewrite (clamp_below _ H). ring.
Qed.

Lemma step_edge_eq (e e' x : Q) : e == e' -> step e x = step e' x.
Proof.
  intros H. unfold step.
  destruct (Qle_bool e x) eqn:A, (Qle_bool e' x) eqn:B; try reflexivity; exfalso.
  - apply Qle_bool_iff in A. rewrite H in A. apply Qle_bool_iff in A. congruence.
  - apply Qle_bool_iff in B. rewrite <- H in B. apply Qle_bool_iff in B. congruence.
Qed.

(** C4, as stated, fails: in the Bayer branch (mode 0) the gray value that
    is compared is the gray value that came in, so no gain and bias other
    than the identity describe it.  The claim would need, for each of the
    eight modes, a gain and a bias that are not both trivial. *)
Lemma bayer_branch_has_no_adjustment :
  ~ (forall mode : Z, (0 <= mode <= 7)%Z ->
       exists gain bias : Q,
         ~ (gain == 1 /\ bias == 0)
         /\ forall (tx : samplers) (frag : vec2) (gray : Q),
              0 <= gray -> gray <= 1 ->
              adjusted_gray tx mode frag gray == clamp (gray * gain + bias) 0 1).
Proof.
  intros H. destruct (H 0%Z ltac:(lia)) as [gain [bias [Hne Hadj]]].
  pose (tx := {| u_bayer := []; u_blueNoise := []; u_cluster8 := []; u_cluster16 := [] |}).
  assert (Inside : forall v x : Q, 0 < x -> x < 1 -> x == clamp v 0 1 -> v == x).
  { intros v x L U E. unfold clamp in E.
    destruct (Q.max_spec v 0) as [[A B] | [A B]]; rewrite B in E;
      destruct (Q.min_spec 0 1) as [[C D] | [C D]];
      destruct (Q.min_spec v 1) as [[C' D'] | [C' D']];
      try rewrite D in E; try rewrite D' in E; lra. }
  pose proof (Hadj tx (0, 0) (1 # 2) ltac:(lra) ltac:(lra)) as E2.
  pose proof (Hadj tx (0, 0) (1 # 4) ltac:(lra) ltac:(lra)) as E4.
  change (adjusted_gray tx 0 (0, 0) (1 # 2)) with (1 # 2) in E2.
  change (adjusted_gray tx 0 (0, 0) (1 # 4)) with (1 # 4) in E4.
  apply Inside in E2; [| lra | lra]. apply Inside in E4; [| lra | lra].
  apply Hne. split; lra.
Qed.

(** C4, amended.  Modes 1, 4, 5, 6 and 7 replace the gray value by
    [clamp(gray * gain + bias, 0, 1)] with the gain and bias of their branch;
    modes 0, 2 and 3 compare the gray value unchanged.  The threshold does
    not depend on the gray value.  The header shader emits
    [mix(bg, fg, step(threshold + 0.1, gray))].  The image shader emits
    [mix(bg, fg, step(threshold + 0.1 + a, gray))], where [a] is the
    animation term (noise and flicker scaled by the effect intensity); for a
    compared gray value of at most 0.05 the term vanishes and the offset is
    the fixed 0.1. *)
Theorem dispatch_adjusts_five_modes (glsl_sin : Q -> Q) (tx : samplers) :
  (forall (mode : Z) (frag : vec2) (gray : Q),
     adjusted_gray tx mode frag gray
     == match pre_adjustment mode with
        | Some (gain, bias) => clamp (gray * gain + bias) 0 1
        | None => gray
        end)
  /\ (forall mode : Z, (0 <= mode <= 7)%Z ->
        (pre_adjustment mode = None <-> (mode = 0 \/ mode = 2 \/ mode = 3)%Z))
  /\ (forall (mode : Z) (frag : vec2) (gray : Q),
        snd (dispatch tx mode frag gray) = threshold tx mode frag)
  /\ (forall i : header_inputs,
        let gray := adjusted_gray tx (h_ditherMode i) (h_fragCoord i) (header_gray i) in
        let t := threshold tx (h_ditherMode i) (h_fragCoord i) in
        header_main tx i = mix3 (h_bgColor i) (h_fgColor i) (step (t + 0.1) gray))
  /\ (forall i : image_inputs,
        let gray := adjusted_gray tx (i_ditherMode i) (i_fragCoord i)
                      (image_gray i) in
        let t := threshold tx (i_ditherMode i) (i_fragCoord i) in
        image_main glsl_sin tx i
        = mix3 (i_bgColor i) (i_fgColor i)
               (step (t + 0.1 + animation_term glsl_sin i gray) gray)
        /\ (gray <= 0.05 ->
            image_main glsl_sin tx i
            = mix3 (i_bgColor i) (i_fgColor i) (step (t + 0.1) gray))).
Proof.
  split; [exact (adjusted_gray_as_written tx) |].
  split; [exact unadjusted_modes |].
  split; [exact (threshold_independent_of_gray tx) |].
  split.
  - intros i gray t. unfold header_main, header_dithered.
    subst gray t. unfold adjusted_gray.
    rewrite <- (threshold_independent_of_gray tx _ _ (header_gray i)).
    destruct (dispatch tx (h_ditherMode i) (h_fragCoord i) (header_gray i)) as [g th].
    reflexivity.
  - intros i gray t.
    assert (E : image_main glsl_sin tx i
                = mix3 (i_bgColor i) (i_fgColor i)
                       (step (t + 0.1 + animation_term glsl_sin i gray) gray)).
    { unfold image_main, image_dithered. subst gray t. unfold adjusted_gray.
      rewrite <- (threshold_independent_of_gray tx _ _ (image_gray i)).
      destruct (dispatch tx (i_ditherMode i) (i_fragCoord i) (image_gray i)) as [g th].
      reflexivity. }
    split; [exact E |].
    intros Hdark. rewrite E. f_equal. apply step_edge_eq.
    unfold animation_term. cbv zeta.
    rewrite (smoothstep_below 0.05 0.3 gray); [ring | reflexivity | exact Hdark].
Qed.

End ShaderFacts.


(* ===================================================================== *)
(** * Properties of the header life cycle *)
(* ===================================================================== *)

Module HeaderFacts.
Import Header.
Local Open Scope string_scope.
Local Open Scope nat_scope.

(** ** Operations that keep the registrations *)

Lemma keeps_refl (p : page) : keeps p p.
Proof. repeat split; auto. Qed.

Lemma keeps_trans (p q r : page) : keeps p q -> keeps q r -> keeps p r.
Proof.
  intros (A1 & A2 & A3 & A4) (B1 & B2 & B3 & B4). repeat split; auto.
  - congruence.
  - lia.
Qed.

Lemma keeps_tidy (p q : page) : tidy p -> keeps p q -> tidy q.
Proof.
  intros (T1 & T2 & T3) (K1 & K2 & K3 & K4). repeat split.
  - intros l Hl Hon. destruct (T1 l (K1 l Hl) Hon) as (cs & Hcs & Hin).
    rewrite Hcs in K3. destruct (currentState q) as [cs'|]; [| discriminate K3].
    injection K3 as K3. exists cs'. rewrite K3. auto.
  - intros s Hs. destruct (T2 s (K2 s Hs)) as (cs & Hcs & ->).
    rewrite Hcs in K3. destruct (currentState q) as [cs'|]; [| discriminate K3].
    injection K3 as K3. exists cs'. auto.
  - intros cs' Hcs'. rewrite Hcs' in K3.
    destruct (currentState p) as [cs|] eqn:Hcs; [| discriminate K3].
    injection K3 as K3. rewrite K3. specialize (T3 cs eq_refl). lia.
Qed.

Lemma update_closure_keeps (s : nat) (f : closure -> closure) (p : page) :
  keeps p (update_closure s f p).
Proof.
  unfold update_closure. destruct (closures p !! s); [| apply keeps_refl].
  repeat split; auto. cbn. rewrite length_insert. lia.
Qed.

Lemma setupCanvas_keeps (s : nat) (src : source) (a : answers) (p : page) :
  keeps p (setupCanvas s src a p).
Proof.
  unfold setupCanvas. destruct (negb (hasSize a));
    [apply keeps_refl | apply update_closure_keeps].
Qed.

Lemma removeEventListener_keeps (t : target) (type : string) (h : handler) (p : page) :
  keeps p (removeEventListener t type h p).
Proof.
  repeat split; auto. cbn. intros l Hl.
  apply list_elem_of_filter in Hl. tauto.
Qed.

Lemma set_plays_keeps (v : list (nat * play_origin)) (p : page) : keeps p (set_plays v p).
Proof. repeat split; auto. Qed.

Lemma cancelAnimationFrame_keeps (id : nat) (p : page) : keeps p (cancelAnimationFrame id p).
Proof. repeat split; auto. Qed.

(** ** [cleanup] *)

Lemma cleanup_none (p : page) : currentState p = None -> cleanup p = p.
Proof. intros H. unfold cleanup. rewrite H. reflexivity. Qed.

Lemma cleanup_currentState (p : page) : currentState (cleanup p) = None.
Proof.
  unfold cleanup. destruct (currentState p) as [cs|] eqn:E; [| exact E].
  destruct (animationId cs), (loseContext cs); reflexivity.
Qed.

Lemma header_cleanup_idempotent (p : page) : cleanup (cleanup p) = cleanup p.
Proof. apply cleanup_none, cleanup_currentState. Qed.

Lemma cleanup_listeners (p : page) (cs : state_record) (l : listener) :
  currentState p = Some cs ->
  l ∈ listeners (cleanup p) ->
  l ∈ listeners p /\ l ∉ page_listeners (surface cs).
Proof.
  intros E. unfold cleanup. rewrite E.
  destruct (animationId cs), (loseContext cs); cbn;
    rewrite !list_elem_of_filter; intros (H1 & H2 & H3 & H4 & H5 & H6 & H);
    (split; [exact H |]); unfold page_listeners;
    rewrite !elem_of_cons, elem_of_nil; tauto.
Qed.

Lemma cleanup_observers (p : page) (cs : state_record) (s : nat) :
  currentState p = Some cs ->
  s ∈ observers (cleanup p) -> s ∈ observers p /\ s <> surface cs.
Proof.
  intros E. unfold cleanup. rewrite E.
  destruct (animationId cs), (loseContext cs); cbn;
    rewrite list_elem_of_filter; tauto.
Qed.

Lemma cleanup_closures (p : page) : closures (cleanup p) = closures p.
Proof.
  unfold cleanup. destruct (currentState p) as [cs|]; [| reflexivity].
  destruct (animationId cs), (loseContext cs); reflexivity.
Qed.

Lemma cleanup_frames (p : page) (cs : state_record) (f : nat * nat) :
  currentState p = Some cs ->
  f ∈ frames (cleanup p) ->
  f ∈ frames p /\ animationId cs <> Some f.1.
Proof.
  intros E. unfold cleanup. rewrite E.
  destruct (animationId cs) as [id|], (loseContext cs); cbn;
    rewrite ?list_elem_of_filter; intros H; split; try tauto;
    first [discriminate | intros [= ->]; tauto].
Qed.

Lemma cleanup_lost (p : page) (cs : state_record) :
  currentState p = Some cs ->
  lost (cleanup p) = if loseContext cs then surface cs :: lost p else lost p.
Proof.
  intros E. unfold cleanup. rewrite E.
  destruct (animationId cs), (loseContext cs); reflexivity.
Qed.

(** After [cleanup] of a tidy page nothing is registered on the page. *)
Lemma cleanup_clears (p : page) :
  tidy p ->
  (forall l, l ∈ listeners (cleanup p) -> on_page l = false)
  /\ observers (cleanup p) = [].
Proof.
  intros T.
  destruct (currentState p) as [cs|] eqn:E; destruct T as (T1 & T2 & T3).
  - split.
    + intros l Hl. destruct (cleanup_listeners p cs l E Hl) as [Hin Hnot].
      destruct (on_page l) eqn:Hon; [| reflexivity].
      destruct (T1 l Hin Hon) as (cs' & Hcs' & Hpl).
      rewrite E in Hcs'. injection Hcs' as <-. contradiction.
    + apply elem_of_nil_inv. intros s Hs.
      destruct (cleanup_observers p cs s E Hs) as [Hin Hne].
      destruct (T2 s Hin) as (cs' & Hcs' & ->).
      rewrite E in Hcs'. injection Hcs' as <-. contradiction.
  - rewrite (cleanup_none p E). split.
    + intros l Hl. destruct (on_page l) eqn:Hon; [| reflexivity].
      destruct (T1 l Hl Hon) as (cs' & Hcs' & _). rewrite E in Hcs'. discriminate.
    + apply elem_of_nil_inv. intros s Hs.
      destruct (T2 s Hs) as (cs' & Hcs' & _). rewrite E in Hcs'. discriminate.
Qed.

Lemma cleanup_tidy (p : page) : tidy p -> tidy (cleanup p).
Proof.
  intros T. destruct (cleanup_clears p T) as [Hl Ho]. repeat split.
  - intros l Hin Hon. rewrite (Hl l Hin) in Hon. discriminate.
  - intros s Hs. rewrite Ho in Hs. apply elem_of_nil in Hs. contradiction.
  - intros cs Hcs. rewrite cleanup_currentState in Hcs. discriminate.
Qed.


(** ** The callbacks keep the page tidy *)

Lemma render_tidy (s : nat) (a : answers) (p : page) : tidy p -> tidy (render s a p).
Proof.
  intros T. unfold render.
  destruct (negb (isConnected a)); [apply cleanup_tidy, T |].
  destruct (closures p !! s) as [c|] eqn:Ec; [| exact T].
  destruct (c_currentSource c) as [[|]|]; try exact T.
  destruct (c_videoPlaying c); [| exact T].
  unfold requestAnimationFrame. cbv zeta.
  match goal with
  | |- tidy (match currentState ?q with _ => _ end) =>
      assert (K : keeps p q) by
        (eapply keeps_trans; [| apply update_closure_keeps]; repeat split; auto);
      pose proof (keeps_tidy p q T K) as Tq;
      destruct (currentState q) as [cs|] eqn:Eq; [| exact Tq];
      apply (keeps_tidy q); [exact Tq |];
      repeat split; auto; cbn; rewrite Eq; reflexivity
  end.
Qed.

Lemma settle_tidy (s : nat) (o : play_origin) (fulfilled : bool) (a : answers) (p : page) :
  tidy p -> tidy (settle s o fulfilled a p).
Proof.
  intros T. unfold settle, set_videoPlaying.
  destruct o, fulfilled; try exact T.
  - apply render_tidy. eapply keeps_tidy; [exact T |].
    eapply keeps_trans; [apply update_closure_keeps | apply setupCanvas_keeps].
  - destruct (imageReady a); [| exact T].
    apply render_tidy. eapply keeps_tidy; [exact T | apply setupCanvas_keeps].
  - match goal with
    | |- tidy (match closures ?q !! s with _ => _ end) =>
        assert (Tq : tidy q);
        [ eapply keeps_tidy; [exact T |];
          destruct (_ && _);
          [ eapply keeps_trans; [apply update_closure_keeps | apply setupCanvas_keeps]
          | apply update_closure_keeps ]
        | destruct (closures q !! s) as [c|]; [| exact Tq];
          destruct (c_animationId c); [exact Tq | apply render_tidy, Tq] ]
    end.
Qed.

Lemma run_handler_tidy (h : handler) (a : answers) (p : page) :
  tidy p -> tidy (run_handler h a p).
Proof.
  intros T. destruct h as [s|s|s|s|s]; cbn [run_handler].
  - eapply keeps_tidy; [exact T |].
    repeat (eapply keeps_trans; [| apply removeEventListener_keeps]).
    unfold tryPlayVideo. destruct (closures p !! s) as [c|]; [| apply keeps_refl].
    destruct (c_videoPlaying c); [apply keeps_refl | apply set_plays_keeps].
  - repeat match goal with |- context [if ?b then _ else _] => destruct b end;
      first [exact T | eapply keeps_tidy; [exact T | apply setupCanvas_keeps]].
  - destruct (_ && _); [apply render_tidy, T | exact T].
  - destruct (source_is s None p); [| exact T].
    apply render_tidy. eapply keeps_tidy; [exact T | apply setupCanvas_keeps].
  - eapply keeps_tidy; [exact T | apply set_plays_keeps].
Qed.

Lemma on_mutation_tidy (s : nat) (a : answers) (p : page) :
  tidy p -> tidy (on_mutation s a p).
Proof.
  intros T. unfold on_mutation. destruct (_ && _); [apply render_tidy, T | exact T].
Qed.

(** ** [init] *)

Section AddEventListener.
Variables (t : target) (type : string) (h : handler) (p : page).

Lemma addEventListener_currentState :
  currentState (addEventListener t type h p) = currentState p.
Proof. unfold addEventListener. destruct (bool_decide _); reflexivity. Qed.

Lemma addEventListener_observers :
  observers (addEventListener t type h p) = observers p.
Proof. unfold addEventListener. destruct (bool_decide _); reflexivity. Qed.

Lemma addEventListener_closures :
  closures (addEventListener t type h p) = closures p.
Proof. unfold addEventListener. destruct (bool_decide _); reflexivity. Qed.

Lemma addEventListener_frames :
  frames (addEventListener t type h p) = frames p.
Proof. unfold addEventListener. destruct (bool_decide _); reflexivity. Qed.

Lemma addEventListener_lost :
  lost (addEventListener t type h p) = lost p.
Proof. unfold addEventListener. destruct (bool_decide _); reflexivity. Qed.

Lemma addEventListener_listeners (l : listener) :
  l ∈ listeners (addEventListener t type h p) ->
  l ∈ listeners p \/ l = {| l_target := t; l_type := type; l_handler := h |}.
Proof.
  unfold addEventListener. destruct (bool_decide _); cbn; [auto |].
  intros Hl. apply elem_of_app in Hl as [Hl | Hl]; [auto |].
  apply list_elem_of_singleton in Hl. auto.
Qed.
End AddEventListener.

(** What [init] leaves when it creates a surface. *)
Lemma init_creates (ext : bool) (p : page) :
  let q := init true true ext p in
  let s := length (closures p) in
  currentState q = Some {| animationId := None; loseContext := ext; surface := s |}
  /\ observers q = (observers (cleanup p) ++ [s])%list
  /\ length (closures q) = S s
  /\ frames q = frames (cleanup p)
  /\ lost q = lost (cleanup p)
  /\ (forall l, l ∈ listeners q ->
         l ∈ listeners (cleanup p) \/ l ∈ page_listeners s \/ on_page l = false).
Proof.
  cbv zeta. unfold init. cbn [negb]. rewrite cleanup_closures.
  rewrite !addEventListener_currentState, !addEventListener_observers,
    !addEventListener_closures, !addEventListener_frames, !addEventListener_lost.
  cbn. rewrite ?cleanup_closures, ?length_app. cbn.
  repeat split; try reflexivity; try lia.
  intros l Hl. unfold page_listeners. rewrite !elem_of_cons, elem_of_nil.
  repeat (apply addEventListener_listeners in Hl;
          destruct Hl as [Hl | ->]; [| cbn; tauto]).
  cbn in Hl. tauto.
Qed.

Lemma init_without_surface (canvas gl ext : bool) (p : page) :
  canvas && gl = false -> init canvas gl ext p = cleanup p.
Proof. unfold init. destruct canvas, gl; cbn; intros H; first [discriminate H | reflexivity]. Qed.

Lemma init_tidy (canvas gl ext : bool) (p : page) :
  tidy p -> tidy (init canvas gl ext p).
Proof.
  intros T. destruct (canvas && gl) eqn:E.
  - apply andb_true_iff in E as [-> ->].
    destruct (init_creates ext p) as (Hc & Ho & Hlen & _ & _ & Hl).
    destruct (cleanup_clears p T) as [Cl Co].
    repeat split.
    + intros l Hin Hon. eexists. split; [exact Hc |]. cbn [surface].
      destruct (Hl l Hin) as [H | [H | H]]; [| exact H |].
      * rewrite (Cl l H) in Hon. discriminate.
      * rewrite H in Hon. discriminate.
    + intros s Hs. eexists. split; [exact Hc |]. cbn [surface].
      rewrite Ho, Co in Hs. cbn in Hs. apply list_elem_of_singleton in Hs. exact Hs.
    + intros cs Hcs. rewrite Hc in Hcs. injection Hcs as <-. cbn [surface].
      rewrite Hlen. lia.
  - rewrite (init_without_surface canvas gl ext p E). apply cleanup_tidy, T.
Qed.

(** ** Every reachable page is tidy *)

Lemma fold_tidy {A : Type} (f : page -> A -> page) (l : list A) (p : page) :
  (forall q x, tidy q -> tidy (f q x)) -> tidy p -> tidy (fold_left f l p).
Proof.
  intros Hf. revert p. induction l as [|x l IH]; intros p T; cbn; [exact T |].
  apply IH, Hf, T.
Qed.

Lemma step_tidy (e : event) (p : page) : tidy p -> tidy (step e p).
Proof.
  intros T. destruct e as [canvas gl ext | t type a | a | id a | n fulfilled a];
    cbn [step].
  - apply init_tidy, T.
  - apply fold_tidy; [| exact T]. intros q l. apply run_handler_tidy.
  - apply fold_tidy; [| exact T]. intros q s. apply on_mutation_tidy.
  - destruct (list_find _ _) as [[i [id' s]]|]; [| exact T].
    apply render_tidy. eapply keeps_tidy; [exact T | apply cancelAnimationFrame_keeps].
  - destruct (plays p !! n) as [[s o]|]; [| exact T].
    apply settle_tidy. eapply keeps_tidy; [exact T | apply set_plays_keeps].
Qed.

Lemma initial_tidy : tidy initial.
Proof.
  repeat split; cbn.
  - intros l Hl. apply elem_of_nil in Hl. contradiction.
  - intros s Hs. apply elem_of_nil in Hs. contradiction.
  - intros cs Hcs. discriminate Hcs.
Qed.

Lemma run_tidy (trace : list event) (p : page) : tidy p -> tidy (run trace p).
Proof.
  unfold run. apply fold_tidy. intros q e. apply step_tidy.
Qed.

Lemma reachable_tidy (p : page) : reachable p -> tidy p.
Proof. intros [trace ->]. apply run_tidy, initial_tidy. Qed.

(** [init] releases what the surface recorded in [currentState] held. *)
Lemma init_releases (canvas gl ext : bool) (p : page) (cs : state_record) :
  tidy p -> currentState p = Some cs -> released cs (init canvas gl ext p).
Proof.
  intros T E.
  assert (R : released cs (cleanup p)).
  { destruct (cleanup_clears p T) as [Cl Co]. repeat split.
    - intros id s Hid Hin. destruct (cleanup_frames p cs _ E Hin) as [_ Hne].
      apply Hne. exact Hid.
    - intros l Hin Hon. rewrite (Cl l Hin) in Hon. discriminate.
    - rewrite Co. apply not_elem_of_nil.
    - intros Hlose. rewrite (cleanup_lost p cs E), Hlose. apply list_elem_of_here. }
  destruct (canvas && gl) eqn:Ecg.
  - apply andb_true_iff in Ecg as [-> ->].
    destruct (init_creates ext p) as (Hc & Ho & Hlen & Hf & Hlost & Hl).
    destruct R as (R1 & R2 & R3 & R4).
    destruct T as (_ & _ & T3). specialize (T3 cs E).
    repeat split.
    + intros id s Hid. rewrite Hf. apply R1. exact Hid.
    + intros l Hin Hon. destruct (Hl l Hin) as [H | [H | H]].
      * apply R2; assumption.
      * unfold page_listeners in H. rewrite !elem_of_cons, elem_of_nil in H.
        destruct H as [-> | [-> | [-> | [-> | [-> | [-> | []]]]]]]; cbn; lia.
      * rewrite H in Hon. discriminate.
    + rewrite Ho. intros Hin. apply elem_of_app in Hin as [Hin | Hin]; [exact (R3 Hin) |].
      apply list_elem_of_singleton in Hin. lia.
    + intros Hlose. rewrite Hlost. apply R4, Hlose.
  - rewrite (init_without_surface canvas gl ext p Ecg). exact R.
Qed.

(** ** Re-entry to [init] *)

(** C5, as stated, fails in two ways.  Without the [WEBGL_lose_context]
    extension [cleanup] does not release the context.  And when [init] is
    entered again before the video of the first call has loaded, the
    [loadeddata] listener of that video, which [cleanup] does not remove,
    restarts the render loop of the first surface: a frame of surface 0 is
    pending while surface 1 holds the listeners and the observer. *)
Lemma reinit_can_leave_two_active_surfaces :
  (let p := run [Init true true false] initial in
   (exists cs, currentState p = Some cs) /\ lost (cleanup p) = [])
  /\ (let p := run late_video_trace initial in
      active p 0 /\ active p 1
      /\ (surface <$> currentState p) = Some 1
      /\ frames p = [(1, 0)]).
Proof.
  split.
  - cbv zeta. split; [eexists |]; vm_compute; reflexivity.
  - cbv zeta.
    assert (F : frames (run late_video_trace initial) = [(1, 0)])
      by (vm_compute; reflexivity).
    assert (O : observers (run late_video_trace initial) = [1])
      by (vm_compute; reflexivity).
    split; [| split; [| split]].
    + left. exists 1. rewrite F. apply list_elem_of_here.
    + right. right. rewrite O. apply list_elem_of_here.
    + vm_compute. reflexivity.
    + exact F.
Qed.

(** C5, amended.  At every reachable state of the page (with [init]
    entered at any time, and every callback of every surface, also of
    cleaned-up ones, running at any time) the listeners on [document] and
    [window] and the connected dark-mode observers belong to the one
    surface recorded in [currentState].  Every entry to [init] runs
    [cleanup] first: whatever [init] goes on to do, the frame recorded in
    [currentState] is no longer pending, the listeners and the observer of
    the recorded surface are gone, and its context is lost if the
    extension was available; without the extension the context is kept. *)
Theorem init_tears_down_recorded_surface (p : page) :
  reachable p ->
  tidy p
  /\ (forall (canvas gl ext : bool) (cs : state_record),
        currentState p = Some cs -> released cs (init canvas gl ext p))
  /\ (forall canvas gl ext : bool,
        init canvas gl ext p = init canvas gl ext (cleanup p))
  /\ (forall cs : state_record,
        currentState p = Some cs -> loseContext cs = false ->
        lost (cleanup p) = lost p).
Proof.
  intros R. pose proof (reachable_tidy p R) as T.
  split; [exact T |]. split; [| split].
  - intros canvas gl ext cs E. apply init_releases; assumption.
  - intros canvas gl ext. unfold init. rewrite header_cleanup_idempotent. reflexivity.
  - intros cs E Hlose. rewrite (cleanup_lost p cs E), Hlose. reflexivity.
Qed.

Lemma init_tears_down_recorded_surface_after_init :
  reachable (run [Init true true true] initial)
  /\ tidy (run [Init true true true] initial).
Proof.
  assert (R : reachable (run [Init true true true] initial))
    by (exists [Init true true true]; reflexivity).
  split; [exact R |].
  exact (proj1 (init_tears_down_recorded_surface _ R)).
Defined.

End HeaderFacts.


(* ===================================================================== *)
(** * Properties of the life cycle of a dithered image *)
(* ===================================================================== *)

Module ImageFacts.
Import Image.
Local Open Scope nat_scope.

Lemma image_cleanup_idempotent (s : surface) : cleanup (cleanup s) = cleanup s.
Proof.
  unfold cleanup at 1. destruct (didCleanup (cleanup s)) eqn:E; [reflexivity |].
  exfalso. unfold cleanup in E. destruct (didCleanup s) eqn:E'; cbn in E; congruence.
Qed.

Lemma cleanup_after_cleanup (s : surface) : didCleanup s = true -> cleanup s = s.
Proof. intros H. unfold cleanup. rewrite H. reflexivity. Qed.

(** Once [didCleanup] is set, no callback changes what is registered. *)
Lemma step_after_cleanup (rm : bool) (e : event) (s : surface) :
  didCleanup s = true ->
  didCleanup (step rm e s) = true
  /\ windowListeners (step rm e s) = windowListeners s
  /\ observing (step rm e s) = observing s.
Proof.
  intros H.
  assert (R : forall t c s', didCleanup s' = true ->
            didCleanup (render rm t c s') = true
            /\ windowListeners (render rm t c s') = windowListeners s'
            /\ observing (render rm t c s') = observing s').
  { intros t c s' H'. unfold render.
    destruct (negb c); [rewrite (cleanup_after_cleanup s' H'); auto |].
    destruct (negb _); cbn;
      repeat match goal with |- context [if ?b then _ else _] => destruct b end;
      cbn; auto. }
  destruct e as [id t c | i c | t c | t c | | d |]; cbn [step].
  - destruct (bool_decide _); [| auto].
    match goal with |- context [render rm t c ?s'] =>
      destruct (R t c s' H) as (R1 & R2 & R3) end.
    cbn in R2, R3. auto.
  - destruct (bool_decide _); [| auto]. unfold on_intersect.
    destruct (negb c); [rewrite (cleanup_after_cleanup s H); auto |].
    cbn. destruct (animationId s);
      repeat match goal with |- context [if ?b then _ else _] => destruct b end;
      cbn; auto.
  - destruct (bool_decide _); [| auto]. unfold force_render.
    destruct (animationId s); [auto |]. destruct c; [| auto].
    match goal with |- context [render rm t true ?s'] =>
      destruct (R t true s' H) as (R1 & R2 & R3) end.
    cbn in R2, R3. auto.
  - destruct (bool_decide _); [| auto]. unfold force_render.
    destruct (animationId s); [auto |]. destruct c; [| auto].
    match goal with |- context [render rm t true ?s'] =>
      destruct (R t true s' H) as (R1 & R2 & R3) end.
    cbn in R2, R3. auto.
  - destruct (bool_decide _); cbn; auto.
  - destruct (d && cleanupHook s); [rewrite (cleanup_after_cleanup s H) |]; auto.
  - rewrite (cleanup_after_cleanup s H); auto.
Qed.

Lemma run_after_cleanup (rm : bool) (trace : list event) (s : surface) :
  didCleanup s = true ->
  didCleanup (run rm trace s) = true
  /\ windowListeners (run rm trace s) = windowListeners s
  /\ observing (run rm trace s) = observing s.
Proof.
  revert s. induction trace as [|e trace IH]; intros s H; [cbn; auto |].
  change (run rm (e :: trace) s) with (run rm trace (step rm e s)).
  destruct (step_after_cleanup rm e s H) as (H1 & H2 & H3).
  destruct (IH (step rm e s) H1) as (I1 & I2 & I3).
  repeat split; congruence.
Qed.

(** C6, at an image that finishes loading after its subtree has left the
    document ([img.parentNode] is set, [canvas.isConnected] is false).  The
    first [render] of [setup] calls [cleanup], and [setup] goes on to create
    both observers and to add the two window listeners.  [didCleanup] is
    set, so every later [cleanup] returns at once, and no later callback
    removes them: they stay registered for ever. *)
Theorem cleanup_during_setup_leaves_registrations
    (REDUCED_MOTION ext : bool) (now : Q) (trace : list event) :
  exists s : surface,
    setup REDUCED_MOTION
      {| gl := true; ext := ext; hasParent := true; connected := false; now := now |}
    = Some s
    /\ didCleanup s = true
    /\ windowListeners s = [OnResize; OnScroll]
    /\ observing s = [Intersection; DarkMode]
    /\ cleanup s = s
    /\ windowListeners (run REDUCED_MOTION trace s) = [OnResize; OnScroll]
    /\ observing (run REDUCED_MOTION trace s) = [Intersection; DarkMode].
Proof.
  eexists. split; [reflexivity |].
  match goal with |- didCleanup ?s = true /\ _ =>
    assert (D : didCleanup s = true) by reflexivity;
    destruct (run_after_cleanup REDUCED_MOTION trace s D) as (_ & W & O)
  end.
  split; [exact D |]. split; [reflexivity |]. split; [reflexivity |].
  split; [apply cleanup_after_cleanup, D |].
  split; [rewrite W | rewrite O]; reflexivity.
Qed.

End ImageFacts.


(* ===================================================================== *)
(** * Invariants of the life cycle of a dithered image *)
(* ===================================================================== *)

Module ImageInvariants.
Import Image.
Local Open Scope nat_scope.

Lemma no_other_handler (l : list handler) :
  filter (fun h => h <> OnScroll) (filter (fun h => h <> OnResize) l) = [].
Proof.
  induction l as [|h l IH]; [reflexivity |].
  destruct h.
  - rewrite filter_cons_False by (intros H; apply H; reflexivity). exact IH.
  - rewrite filter_cons_True by discriminate.
    rewrite filter_cons_False by (intros H; apply H; reflexivity). exact IH.
Qed.

Lemma filter_none {A : Type} (P : A -> Prop) `{forall x, Decision (P x)} (l : list A) :
  (forall x, x ∈ l -> ~ P x) -> filter P l = [].
Proof.
  intros H'. apply elem_of_nil_inv. intros x Hx.
  apply list_elem_of_filter in Hx as [HP Hin]. exact (H' x Hin HP).
Qed.

(** [cleanup] of a sound surface releases everything. *)
Lemma cleanup_releases (s : surface) : sound s -> released (cleanup s).
Proof.
  intros (F & V & I & D & C). unfold cleanup.
  destruct (didCleanup s) eqn:E; [exact (C eq_refl) |].
  unfold released. cbn. split; [apply no_other_handler |]. split.
  - apply elem_of_nil_inv. intros k Hk.
    assert (Hin : k ∈ observing s).
    { destruct (observer s), (darkModeObserver s);
        rewrite ?list_elem_of_filter in Hk; tauto. }
    destruct k.
    + specialize (I Hin). rewrite I in Hk.
      destruct (darkModeObserver s); rewrite ?list_elem_of_filter in Hk; tauto.
    + specialize (D Hin). rewrite D in Hk.
      rewrite list_elem_of_filter in Hk. tauto.
  - destruct F as [F | (id & Ha & F)].
    + rewrite F. destruct (animationId s); reflexivity.
    + rewrite Ha, F. unfold cancelAnimationFrame.
      apply filter_none. intros x Hx. apply list_elem_of_singleton in Hx. tauto.
Qed.

Lemma cleanup_sound (s : surface) : sound s -> sound (cleanup s).
Proof.
  intros S. pose proof (cleanup_releases s S) as (W & O & F).
  repeat split.
  - left. exact F.
  - intros _. exact F.
  - rewrite O. intros H. apply elem_of_nil in H. contradiction.
  - rewrite O. intros H. apply elem_of_nil in H. contradiction.
  - exact W.
  - exact O.
  - exact F.
Qed.


Lemma registered_not_cleaned (s : surface) :
  sound s ->
  windowListeners s <> [] \/ observing s <> [] \/ frames s <> [] ->
  didCleanup s = false.
Proof.
  intros (_ & _ & _ & _ & C) H.
  destruct (didCleanup s); [| reflexivity].
  destruct (C eq_refl) as (W & O & F). tauto.
Qed.

Lemma request_frame_sound (s : surface) :
  sound s -> frames s = [] -> didCleanup s = false -> isVisible s = true ->
  sound (request_frame s).
Proof.
  intros (F & V & I & D & C) Hf Hc Hv. unfold sound, request_frame. cbn.
  rewrite Hf, Hc, Hv. cbn. repeat split; auto; try discriminate.
  right. eexists. split; reflexivity.
Qed.

Lemma drawn_sound (t : Q) (s : surface) : sound s -> sound (drawn t s).
Proof. intros S. exact S. Qed.

Lemma set_flags_sound (r v : bool) (s : surface) :
  sound s -> (v = false -> frames s = []) -> sound (set_flags r v (animationId s) s).
Proof.
  intros (F & V & I & D & C) Hv. unfold sound, set_flags. cbn.
  split; [exact F |]. split; [exact Hv |]. split; [exact I |]. split; [exact D | exact C].
Qed.

Lemma render_sound (rm : bool) (t : Q) (c : bool) (s : surface) :
  sound s -> frames s = [] -> didCleanup s = false -> sound (render rm t c s).
Proof.
  intros S Hf Hc. unfold render.
  destruct (negb c); [apply cleanup_sound, S |].
  destruct (negb (Qle_bool _ _)).
  - destruct (isVisible s) eqn:Hv; cbn [andb]; [| exact S].
    destruct (negb rm); [| exact S]. apply request_frame_sound; assumption.
  - cbv zeta. change (isVisible (drawn t s)) with (isVisible s).
    destruct (isVisible s) eqn:Hv; cbn [andb]; [| exact S].
    destruct (negb rm); [| exact S].
    apply request_frame_sound; [exact S | exact Hf | exact Hc | exact Hv].
Qed.

Lemma no_frame_without_id (s : surface) :
  sound s -> animationId s = None -> frames s = [].
Proof.
  intros ([F | (id & Ha & F)] & _) Hn; [exact F |]. rewrite Hn in Ha. discriminate.
Qed.

Lemma step_sound (rm : bool) (e : event) (s : surface) : sound s -> sound (step rm e s).
Proof.
  intros S. destruct e as [id t c | i c | t c | t c | | d |]; cbn [step].
  - destruct (bool_decide_reflect (id ∈ frames s)) as [Hin |]; [| exact S].
    assert (Hc : didCleanup s = false).
    { apply (registered_not_cleaned s S). right. right. intros E.
      rewrite E in Hin. apply elem_of_nil in Hin. exact Hin. }
    destruct S as (F & V & I & D & C).
    assert (Hf : cancelAnimationFrame id (frames s) = []).
    { destruct F as [F | (id' & Ha & F)]; rewrite F in *.
      - apply elem_of_nil in Hin. contradiction.
      - apply list_elem_of_singleton in Hin. subst id'.
        apply filter_none. intros x Hx. apply list_elem_of_singleton in Hx. tauto. }
    apply render_sound; [| exact Hf | exact Hc].
    unfold sound, released.
    cbn [frames isVisible observing observer darkModeObserver didCleanup
         animationId windowListeners].
    rewrite Hf, Hc. repeat split; auto; discriminate.
  - destruct (bool_decide_reflect (Intersection ∈ observing s)) as [Hin |]; [| exact S].
    assert (Hc : didCleanup s = false).
    { apply (registered_not_cleaned s S). right. left. intros E.
      rewrite E in Hin. apply elem_of_nil in Hin. exact Hin. }
    unfold on_intersect. destruct (negb c); [apply cleanup_sound, S |].
    cbv zeta. cbn [animationId isVisible needsResize set_flags].
    destruct (animationId s) as [id|] eqn:Ha.
    + destruct i; cbn [negb].
      * rewrite <- Ha. apply set_flags_sound; [exact S | discriminate].
      * destruct S as (F & V & I & D & C).
        assert (Hf : cancelAnimationFrame id (frames s) = []).
        { destruct F as [F | (id' & Ha' & F)]; rewrite F; [reflexivity |].
          rewrite Ha in Ha'. injection Ha' as <-.
          apply filter_none. intros x Hx. apply list_elem_of_singleton in Hx. tauto. }
        unfold sound, released.
        cbn [frames isVisible observing observer darkModeObserver didCleanup
             animationId windowListeners set_flags].
        rewrite Hf, Hc. repeat split; auto; discriminate.
    + pose proof (no_frame_without_id s S Ha) as Hf.
      assert (S' : sound (set_flags (needsResize s) i None s)).
      { rewrite <- Ha. apply set_flags_sound; [exact S | intros _; exact Hf]. }
      destruct i; cbn [andb]; [| exact S'].
      destruct (negb rm); [| exact S'].
      apply request_frame_sound; [exact S' | exact Hf | exact Hc | reflexivity].
  - destruct (bool_decide_reflect (DarkMode ∈ observing s)) as [Hin |]; [| exact S].
    assert (Hc : didCleanup s = false).
    { apply (registered_not_cleaned s S). right. left. intros E.
      rewrite E in Hin. apply elem_of_nil in Hin. exact Hin. }
    unfold force_render. destruct (animationId s) eqn:Ha; [exact S |].
    destruct c; [| exact S].
    pose proof (no_frame_without_id s S Ha) as Hf.
    apply render_sound; [| exact Hf | exact Hc].
    rewrite <- Ha. apply set_flags_sound; [exact S | intros _; exact Hf].
  - destruct (bool_decide_reflect (OnScroll ∈ windowListeners s)) as [Hin |]; [| exact S].
    assert (Hc : didCleanup s = false).
    { apply (registered_not_cleaned s S). left. intros E.
      rewrite E in Hin. apply elem_of_nil in Hin. exact Hin. }
    unfold force_render. destruct (animationId s) eqn:Ha; [exact S |].
    destruct c; [| exact S].
    pose proof (no_frame_without_id s S Ha) as Hf.
    apply render_sound; [| exact Hf | exact Hc].
    rewrite <- Ha. apply set_flags_sound; [exact S | intros _; exact Hf].
  - destruct (bool_decide _); [| exact S].
    apply set_flags_sound; [exact S |]. destruct S as (_ & V & _). exact V.
  - destruct (d && cleanupHook s); [apply cleanup_sound, S | exact S].
  - apply cleanup_sound, S.
Qed.

Lemma run_sound (rm : bool) (trace : list event) (s : surface) :
  sound s -> sound (run rm trace s).
Proof.
  revert s. induction trace as [|e trace IH]; intros s S; [exact S |].
  change (run rm (e :: trace) s) with (run rm trace (step rm e s)).
  apply IH, step_sound, S.
Qed.

Lemma declared_sound (e : setup_env) : sound (declared e).
Proof.
  unfold sound, declared. cbn. repeat split; auto; try discriminate.
  - intros H. apply elem_of_nil in H. contradiction.
  - intros H. apply elem_of_nil in H. contradiction.
Qed.

Lemma registrations_sound (s : surface) :
  sound s -> didCleanup s = false ->
  sound (addEventListener OnScroll (addEventListener OnResize
           (observe DarkMode (observe Intersection s)))).
Proof.
  intros (F & V & I & D & C) Hc. unfold sound. cbn. rewrite Hc.
  repeat split; auto; discriminate.
Qed.

Lemma render_not_cleaned (rm : bool) (t : Q) (s : surface) :
  didCleanup s = false -> didCleanup (render rm t true s) = false.
Proof.
  intros Hc. unfold render. cbn [negb].
  repeat match goal with |- context [if ?b then _ else _] => destruct b end;
    exact Hc.
Qed.

Lemma setup_sound (rm : bool) (e : setup_env) (s : surface) :
  hasParent e = false \/ connected e = true ->
  setup rm e = Some s -> sound s.
Proof.
  intros H. unfold setup. destruct (gl e); cbn [negb]; [| discriminate].
  destruct (hasParent e) eqn:Hp; cbn [negb].
  - destruct H as [H | H]; [discriminate H |]. rewrite H.
    intros [= <-]. apply registrations_sound.
    + apply render_sound; [apply declared_sound | reflexivity | reflexivity].
    + apply render_not_cleaned. reflexivity.
  - intros [= <-]. apply cleanup_sound, declared_sound.
Qed.


(** Whenever the canvas was in the document when [setup] ran (or the image
    had no parent and [setup] gave up), [cleanup] after any sequence of
    callbacks leaves no window listener, no connected observer and no
    pending frame. *)
Theorem teardown_releases_everything
    (rm : bool) (e : setup_env) (s : surface) (trace : list event) :
  hasParent e = false \/ connected e = true ->
  setup rm e = Some s ->
  released (cleanup (run rm trace s)).
Proof.
  intros H E. apply cleanup_releases, run_sound. exact (setup_sound rm e s H E).
Qed.

(** ** The pending frame *)

Lemma cancel_recorded (s : surface) (id : nat) :
  paced s -> id ∈ frames s \/ animationId s = Some id ->
  cancelAnimationFrame id (frames s) = [].
Proof.
  intros ([F | (id' & Ha & F)] & _) H; rewrite F in *; [reflexivity |].
  assert (E : id = id').
  { destruct H as [H | H]; [apply list_elem_of_singleton, H | congruence]. }
  subst id'. apply filter_none. intros x Hx. apply list_elem_of_singleton in Hx. tauto.
Qed.

Lemma cleanup_paced (s : surface) : paced s -> paced (cleanup s).
Proof.
  intros S. unfold cleanup. destruct (didCleanup s); [exact S |].
  assert (F : match animationId s with
              | Some id => cancelAnimationFrame id (frames s)
              | None => frames s
              end = []).
  { destruct (animationId s) as [id|] eqn:Ha.
    - apply cancel_recorded; [exact S | right; exact Ha].
    - destruct S as ([F | (id & Ha' & _)] & _); [exact F | congruence]. }
  unfold paced. cbn [frames animationId isVisible]. rewrite F.
  split; [left; reflexivity | reflexivity].
Qed.

Lemma request_frame_paced (s : surface) :
  frames s = [] -> isVisible s = true -> paced (request_frame s).
Proof.
  intros Hf Hv. unfold paced, request_frame. cbn [frames animationId isVisible].
  rewrite Hf, Hv. split; [| discriminate].
  right. eexists. split; reflexivity.
Qed.

Lemma render_paced (rm : bool) (t : Q) (c : bool) (s : surface) :
  paced s -> frames s = [] -> paced (render rm t c s).
Proof.
  intros S Hf. unfold render.
  destruct (negb c); [apply cleanup_paced, S |].
  destruct (negb (Qle_bool _ _)).
  - destruct (isVisible s) eqn:Hv; cbn [andb]; [| exact S].
    destruct (negb rm); [| exact S]. apply request_frame_paced; assumption.
  - cbv zeta. change (isVisible (drawn t s)) with (isVisible s).
    destruct (isVisible s) eqn:Hv; cbn [andb]; [| exact S].
    destruct (negb rm); [| exact S].
    apply request_frame_paced; [exact Hf | exact Hv].
Qed.

Lemma idle_paced (s : surface) : frames s = [] -> paced s.
Proof. intros F. split; [left; exact F | intros _; exact F]. Qed.

Lemma force_render_paced (rm : bool) (t : Q) (c : bool) (s : surface) :
  paced s -> paced (force_render rm t c s).
Proof.
  intros S. unfold force_render. destruct (animationId s) eqn:Ha; [exact S |].
  destruct c; [| exact S].
  assert (Hf : frames s = []).
  { destruct S as ([F | (id & Ha' & _)] & _); [exact F | congruence]. }
  apply render_paced; [apply idle_paced |]; exact Hf.
Qed.

Lemma step_paced (rm : bool) (e : event) (s : surface) : paced s -> paced (step rm e s).
Proof.
  intros S. destruct e as [id t c | i c | t c | t c | | d |]; cbn [step].
  - destruct (bool_decide_reflect (id ∈ frames s)) as [Hin |]; [| exact S].
    pose proof (cancel_recorded s id S (or_introl Hin)) as Hf.
    apply render_paced; [apply idle_paced |]; exact Hf.
  - destruct (bool_decide _); [| exact S].
    unfold on_intersect. destruct (negb c); [apply cleanup_paced, S |].
    cbv zeta. cbn [animationId isVisible needsResize set_flags].
    destruct (animationId s) as [id|] eqn:Ha.
    + destruct i; cbn [negb].
      * destruct S as (F & _). unfold paced. cbn [frames animationId isVisible set_flags].
        rewrite <- Ha. split; [exact F | discriminate].
      * apply idle_paced. cbn [frames set_flags].
        exact (cancel_recorded s id S (or_intror Ha)).
    + assert (Hf : frames s = []).
      { destruct S as ([F | (id & Ha' & _)] & _); [exact F | congruence]. }
      destruct i; cbn [andb]; [| apply idle_paced; exact Hf].
      destruct (negb rm); [| apply idle_paced; exact Hf].
      apply request_frame_paced; [exact Hf | reflexivity].
  - destruct (bool_decide _); [apply force_render_paced, S | exact S].
  - destruct (bool_decide _); [apply force_render_paced, S | exact S].
  - destruct (bool_decide _); exact S.
  - destruct (d && cleanupHook s); [apply cleanup_paced, S | exact S].
  - apply cleanup_paced, S.
Qed.

Lemma run_paced (rm : bool) (trace : list event) (s : surface) :
  paced s -> paced (run rm trace s).
Proof.
  revert s. induction trace as [|e trace IH]; intros s S; [exact S |].
  change (run rm (e :: trace) s) with (run rm trace (step rm e s)).
  apply IH, step_paced, S.
Qed.

Lemma setup_paced (rm : bool) (e : setup_env) (s : surface) :
  setup rm e = Some s -> paced s.
Proof.
  unfold setup. destruct (gl e); cbn [negb]; [| discriminate].
  assert (D : paced (declared e)) by (apply idle_paced; reflexivity).
  destruct (hasParent e); cbn [negb]; intros [= <-].
  - exact (render_paced rm (now e) (connected e) (declared e) D eq_refl).
  - apply cleanup_paced, D.
Qed.

(** At most one animation frame is pending at any time, and it is the one
    recorded in [animationId]: after any sequence of callbacks of any
    surface that [setup] created. *)
Theorem at_most_one_pending_frame
    (rm : bool) (e : setup_env) (s : surface) (trace : list event) :
  setup rm e = Some s ->
  frames (run rm trace s) = []
  \/ exists id, animationId (run rm trace s) = Some id /\ frames (run rm trace s) = [id].
Proof.
  intros E. exact (proj1 (run_paced rm trace s (setup_paced rm e s E))).
Qed.

(** While the canvas is out of view no frame is pending: the intersection
    observer pauses the redraw. *)
Theorem no_frame_while_hidden
    (rm : bool) (e : setup_env) (s : surface) (trace : list event) :
  setup rm e = Some s ->
  isVisible (run rm trace s) = false ->
  frames (run rm trace s) = [].
Proof.
  intros E. exact (proj2 (run_paced rm trace s (setup_paced rm e s E))).
Qed.

(** ** Reduced motion *)

Lemma cleanup_no_frames (s : surface) : frames s = [] -> frames (cleanup s) = [].
Proof.
  intros H. unfold cleanup. destruct (didCleanup s); [exact H |].
  cbn. rewrite H. destruct (animationId s); reflexivity.
Qed.

Lemma render_reduced (t : Q) (c : bool) (s : surface) :
  frames s = [] -> frames (render true t c s) = [].
Proof.
  intros H. unfold render. destruct (negb c); [apply cleanup_no_frames, H |].
  cbn [negb]. rewrite !andb_false_r. destruct (negb _); exact H.
Qed.

Lemma step_reduced (e : event) (s : surface) :
  frames s = [] -> frames (step true e s) = [].
Proof.
  intros H. destruct e as [id t c | i c | t c | t c | | d |]; cbn [step].
  - destruct (bool_decide _); [| exact H]. apply render_reduced. cbn. rewrite H. reflexivity.
  - destruct (bool_decide _); [| exact H]. unfold on_intersect.
    destruct (negb c); [apply cleanup_no_frames, H |].
    cbv zeta. cbn [animationId isVisible needsResize set_flags negb].
    rewrite andb_false_r.
    destruct (animationId s); [| exact H].
    destruct (negb i); [| exact H]. cbn. rewrite H. reflexivity.
  - destruct (bool_decide _); [| exact H]. unfold force_render.
    destruct (animationId s); [exact H |]. destruct c; [| exact H].
    apply render_reduced. exact H.
  - destruct (bool_decide _); [| exact H]. unfold force_render.
    destruct (animationId s); [exact H |]. destruct c; [| exact H].
    apply render_reduced. exact H.
  - destruct (bool_decide _); exact H.
  - destruct (d && cleanupHook s); [apply cleanup_no_frames, H | exact H].
  - apply cleanup_no_frames, H.
Qed.

(** With [prefers-reduced-motion] no animation frame is ever requested,
    whatever [setup] found and whatever callbacks run afterwards. *)
Theorem reduced_motion_never_animates
    (e : setup_env) (s : surface) (trace : list event) :
  setup true e = Some s -> frames (run true trace s) = [].
Proof.
  intros E.
  assert (H : frames s = []).
  { revert E. unfold setup. destruct (gl e); cbn [negb]; [| discriminate].
    destruct (hasParent e); cbn [negb]; intros [= <-].
    - cbn [frames addEventListener observe].
      apply render_reduced. reflexivity.
    - apply cleanup_no_frames. reflexivity. }
  clear E. revert s H. induction trace as [|ev trace IH]; intros s H; [exact H |].
  change (run true (ev :: trace) s) with (run true trace (step true ev s)).
  apply IH, step_reduced, H.
Qed.

Lemma teardown_releases_everything_usual :
  released (cleanup (run false usual_trace
                       (default (declared usual_env) (setup false usual_env)))).
Proof.
  apply (teardown_releases_everything false usual_env _ usual_trace);
    [right; reflexivity | reflexivity].
Defined.

Lemma at_most_one_pending_frame_inserted :
  let s := run false inserted_trace
             (default (declared detached_env) (setup false detached_env)) in
  frames s = [] \/ exists id, animationId s = Some id /\ frames s = [id].
Proof.
  apply (at_most_one_pending_frame false detached_env _ inserted_trace). reflexivity.
Defined.

Lemma no_frame_while_hidden_usual :
  frames (run false usual_trace
            (default (declared usual_env) (setup false usual_env))) = [].
Proof.
  apply (no_frame_while_hidden false usual_env _ usual_trace);
    [reflexivity | reflexivity].
Defined.

Lemma reduced_motion_never_animates_usual :
  frames (run true usual_trace
            (default (declared usual_env) (setup true usual_env))) = [].
Proof.
  apply (reduced_motion_never_animates usual_env _ usual_trace). reflexivity.
Defined.

End ImageInvariants.


(* ===================================================================== *)
(** * Properties of the colours derived from the scroll position *)
(* ===================================================================== *)

Module WarmthFacts.
Import Color Warmth.

(** ** Two hex digits *)

Lemma parseInt16_pair (a b : ascii) (x y : Z) :
  hex_digit a = Some x -> hex_digit b = Some y ->
  parseInt16 (String a (String b EmptyString)) = Some (inject_Z (16 * x + y)).
Proof.
  intros Ha Hb.
  destruct a as [[] [] [] [] [] [] [] []]; vm_compute in Ha; try discriminate Ha;
    injection Ha as <-;
    destruct b as [[] [] [] [] [] [] [] []]; vm_compute in Hb; try discriminate Hb;
    injection Hb as <-; vm_compute; reflexivity.
Qed.

Lemma hex_digit_range (a : ascii) (x : Z) : hex_digit a = Some x -> 0 <= x <= 15.
Proof.
  destruct a as [[] [] [] [] [] [] [] []]; vm_compute; intros H;
    first [discriminate H | injection H as <-; split; discriminate].
Qed.

(** ** Trimming *)

Local Open Scope string_scope.

Lemma append_cons (c : ascii) (r s : string) : String c r ++ s = String c (r ++ s).
Proof. reflexivity. Qed.

Lemma append_nil (s : string) : "" ++ s = s.
Proof. reflexivity. Qed.

Ltac step_string :=
  rewrite ?append_cons, ?append_nil;
  cbn [all_chars trim_start trim_end remove_first].

Lemma trim_start_pad (w s : string) :
  all_chars is_ws w = true -> trim_start (w ++ s) = trim_start s.
Proof.
  induction w as [|c w IH]; step_string; [reflexivity |].
  intros H. apply andb_true_iff in H as [Hc Hw]. rewrite Hc. exact (IH Hw).
Qed.

Lemma trim_start_blank (w : string) : all_chars is_ws w = true -> trim_start w = "".
Proof.
  induction w as [|c w IH]; step_string; [reflexivity |].
  intros H. apply andb_true_iff in H as [Hc Hw]. rewrite Hc. exact (IH Hw).
Qed.

Lemma trim_end_blank (w : string) : all_chars is_ws w = true -> trim_end w = "".
Proof.
  induction w as [|c w IH]; step_string; [reflexivity |].
  intros H. apply andb_true_iff in H as [Hc Hw]. rewrite (IH Hw), Hc. reflexivity.
Qed.

Lemma trim_end_pad (s w : string) :
  all_chars is_ws w = true -> trim_end (s ++ w) = trim_end s.
Proof.
  intros Hw. induction s as [|c s IH]; step_string.
  - apply trim_end_blank, Hw.
  - rewrite IH. reflexivity.
Qed.

Lemma trim_start_app (s w : string) :
  all_chars is_ws w = true ->
  trim_start (s ++ w) = match trim_start s with
                        | "" => ""
                        | r => r ++ w
                        end.
Proof.
  intros Hw. induction s as [|c s IH]; step_string.
  - apply trim_start_blank, Hw.
  - destruct (is_ws c); [exact IH | reflexivity].
Qed.

Lemma trim_pad (w1 s w2 : string) :
  all_chars is_ws w1 = true -> all_chars is_ws w2 = true ->
  trim (w1 ++ s ++ w2) = trim s.
Proof.
  intros H1 H2. unfold trim. rewrite (trim_start_pad w1 _ H1), (trim_start_app s w2 H2).
  destruct (trim_start s) as [|c r]; [reflexivity |].
  apply (trim_end_pad (String c r) w2 H2).
Qed.

Lemma trim_end_no_ws (s : string) :
  all_chars (fun c => negb (is_ws c)) s = true -> trim_end s = s.
Proof.
  induction s as [|c s IH]; step_string; [reflexivity |].
  intros H. apply andb_true_iff in H as [Hc Hs]. rewrite (IH Hs).
  apply negb_true_iff in Hc. rewrite Hc. destruct s; reflexivity.
Qed.

Lemma remove_first_absent (s : string) :
  all_chars (fun c => negb (is_hash c)) s = true -> remove_first "#" s = s.
Proof.
  induction s as [|c s IH]; step_string; [reflexivity |].
  intros H. apply andb_true_iff in H as [Hc Hs].
  apply negb_true_iff in Hc. unfold is_hash in Hc. rewrite Hc, (IH Hs). reflexivity.
Qed.

Lemma all_chars_impl (P Q : ascii -> bool) (s : string) :
  (forall c, P c = true -> Q c = true) ->
  all_chars P s = true -> all_chars Q s = true.
Proof.
  intros HPQ. induction s as [|c s IH]; step_string; [reflexivity |].
  intros H. apply andb_true_iff in H as [Hc Hs].
  rewrite (HPQ c Hc), (IH Hs). reflexivity.
Qed.

Lemma hex_no_ws (c : ascii) : is_hex_digit c = true -> negb (is_ws c) = true.
Proof. intros H. rewrite (ColorFacts.hex_digit_not_ws c H). reflexivity. Qed.

Lemma hex_no_hash (c : ascii) : is_hex_digit c = true -> negb (is_hash c) = true.
Proof.
  intros H. unfold is_hash. rewrite (ColorFacts.hex_digit_not_hash c H). reflexivity.
Qed.

(** What both parsers read after [trim] and [replace]. *)
Lemma prepared_hex (s : string) :
  all_chars is_hex_digit s = true ->
  remove_first "#" (trim s) = s /\ remove_first "#" (trim ("#" ++ s)) = s.
Proof.
  intros H.
  pose proof (all_chars_impl _ _ s hex_no_ws H) as Hw.
  pose proof (all_chars_impl _ _ s hex_no_hash H) as Hh.
  assert (Ht : trim s = s).
  { unfold trim. destruct s as [|c r]; [reflexivity |].
    cbn [trim_start]. pose proof Hw as Hw'.
    cbn [all_chars] in Hw'. apply andb_true_iff in Hw' as [Hc Hr].
    apply negb_true_iff in Hc. rewrite Hc. apply trim_end_no_ws, Hw. }
  split.
  - rewrite Ht. apply remove_first_absent, Hh.
  - unfold trim. step_string. change (is_ws "#") with false. cbn iota.
    cbn [trim_end]. rewrite (trim_end_no_ws s Hw). change (is_ws "#") with false.
    destruct s; reflexivity.
Qed.

(** Surrounding white space never changes the result, and for a string of
    hex digits neither does a leading hash. *)
Theorem lenient_colour_syntax (w1 w2 s : string) :
  all_chars is_ws w1 = true -> all_chars is_ws w2 = true ->
  (parseHexColor (w1 ++ s ++ w2) = parseHexColor s
   /\ hexToRgb (w1 ++ s ++ w2) = hexToRgb s)
  /\ (all_chars is_hex_digit s = true ->
      parseHexColor (w1 ++ ("#" ++ s) ++ w2) = parseHexColor s
      /\ hexToRgb (w1 ++ ("#" ++ s) ++ w2) = hexToRgb s).
Proof.
  intros H1 H2. unfold parseHexColor, hexToRgb. rewrite !(trim_pad w1 _ w2 H1 H2).
  split; [split; reflexivity |].
  intros H. destruct (prepared_hex s H) as [E1 E2]. rewrite E1, E2.
  split; reflexivity.
Qed.

Lemma lenient_colour_syntax_example :
  parseHexColor " #1a2b3c  " = parseHexColor "1a2b3c"
  /\ hexToRgb " #1a2b3c  " = hexToRgb "1a2b3c".
Proof.
  exact (proj2 (lenient_colour_syntax " " "  " "1a2b3c" eq_refl eq_refl) eq_refl).
Defined.

(** ** Six digits *)

Ltac six_digit_pairs Ha Hb Hc Hd He Hf :=
  match goal with
  | s := String ?a (String ?b (String ?c (String ?d (String ?e (String ?f ""))))) |- _ =>
      let H := fresh "H" in
      let E1 := fresh "E" in
      let E2 := fresh "E" in
      assert (H : all_chars is_hex_digit s = true)
        by (subst s; cbn [all_chars]; unfold is_hex_digit;
            rewrite Ha, Hb, Hc, Hd, He, Hf; reflexivity);
      destruct (prepared_hex s H) as [E1 E2];
      unfold parseHexColor, hexToRgb; rewrite ?E1, ?E2;
      change (slice 0 2 (expand_shorthand s)) with (String a (String b ""));
      change (slice 2 4 (expand_shorthand s)) with (String c (String d ""));
      change (slice 4 6 (expand_shorthand s)) with (String e (String f ""));
      rewrite (parseInt16_pair a b _ _ Ha Hb), (parseInt16_pair c d _ _ Hc Hd),
        (parseInt16_pair e f _ _ He Hf);
      pose proof (hex_digit_range a _ Ha); pose proof (hex_digit_range b _ Hb);
      pose proof (hex_digit_range c _ Hc); pose proof (hex_digit_range d _ Hd);
      pose proof (hex_digit_range e _ He); pose proof (hex_digit_range f _ Hf)
  end.

(** The three fractions that [parseHexColor] returns for six digits. *)
Lemma six_digit_fractions (a b c d e f : ascii) (xa xb xc xd xe xf : Z) :
  hex_digit a = Some xa -> hex_digit b = Some xb -> hex_digit c = Some xc ->
  hex_digit d = Some xd -> hex_digit e = Some xe -> hex_digit f = Some xf ->
  let s := String a (String b (String c (String d (String e (String f ""))))) in
  let r := 16 * xa + xb in
  let g := 16 * xc + xd in
  let bl := 16 * xe + xf in
  parseHexColor s
  = [Some (inject_Z r / 255)%Q; Some (inject_Z g / 255)%Q; Some (inject_Z bl / 255)%Q]
  /\ parseHexColor ("#" ++ s) = parseHexColor s
  /\ (0 <= r <= 255 /\ 0 <= g <= 255 /\ 0 <= bl <= 255).
Proof.
  intros Ha Hb Hc Hd He Hf s r g bl.
  six_digit_pairs Ha Hb Hc Hd He Hf.
  subst r g bl. repeat split; try reflexivity; lia.
Qed.

(** A six-digit colour is read as three base-16 pairs: [hexToRgb] returns
    the three integers, each between 0 and 255, and [parseHexColor] the same
    integers over 255. *)
Theorem six_digits_are_three_bytes (a b c d e f : ascii) (xa xb xc xd xe xf : Z) :
  hex_digit a = Some xa -> hex_digit b = Some xb -> hex_digit c = Some xc ->
  hex_digit d = Some xd -> hex_digit e = Some xe -> hex_digit f = Some xf ->
  let s := String a (String b (String c (String d (String e (String f ""))))) in
  let r := 16 * xa + xb in
  let g := 16 * xc + xd in
  let bl := 16 * xe + xf in
  hexToRgb s = integers [r; g; bl]
  /\ hexToRgb ("#" ++ s) = integers [r; g; bl]
  /\ parseHexColor s
     = [Some (inject_Z r / 255)%Q; Some (inject_Z g / 255)%Q; Some (inject_Z bl / 255)%Q]
  /\ parseHexColor ("#" ++ s) = parseHexColor s
  /\ (0 <= r <= 255 /\ 0 <= g <= 255 /\ 0 <= bl <= 255).
Proof.
  intros Ha Hb Hc Hd He Hf s r g bl.
  six_digit_pairs Ha Hb Hc Hd He Hf.
  subst r g bl. repeat split; try reflexivity; lia.
Qed.

Lemma six_digits_are_three_bytes_example :
  hexToRgb "1a2b3c" = integers [26; 43; 60].
Proof.
  exact (proj1 (six_digits_are_three_bytes "1" "a" "2" "b" "3" "c" 1 10 2 11 3 12
                  eq_refl eq_refl eq_refl eq_refl eq_refl eq_refl)).
Defined.


(** ** Interpolation *)

Local Open Scope Q_scope.

Lemma Qfloor_unique (x : Q) (n : Z) :
  inject_Z n <= x -> x < inject_Z n + 1 -> Qfloor x = n.
Proof.
  intros L U.
  pose proof (Qfloor_le x) as L'. pose proof (Qlt_floor x) as U'.
  rewrite inject_Z_plus in U'. change (inject_Z 1) with 1 in U'.
  assert (A : (Qfloor x < n + 1)%Z).
  { rewrite Zlt_Qlt, inject_Z_plus. change (inject_Z 1) with 1. lra. }
  assert (B : (n < Qfloor x + 1)%Z).
  { rewrite Zlt_Qlt, inject_Z_plus. change (inject_Z 1) with 1. lra. }
  lia.
Qed.

Lemma js_round_integer (x : Q) (n : Z) : x == inject_Z n -> js_round x = inject_Z n.
Proof.
  intros E. unfold js_round. f_equal. apply Qfloor_unique; lra.
Qed.

(** A value between two integers rounds to an integer between them. *)
Lemma js_round_between (x : Q) (lo hi : Z) :
  inject_Z lo <= x -> x <= inject_Z hi ->
  exists n : Z, js_round x = inject_Z n /\ (lo <= n <= hi)%Z.
Proof.
  intros L U. unfold js_round. eexists. split; [reflexivity |]. split.
  - rewrite <- (Qfloor_Z lo). apply Qfloor_resp_le. lra.
  - assert (H : (Qfloor (x + (1 # 2)) < hi + 1)%Z).
    { rewrite Zlt_Qlt, inject_Z_plus. change (inject_Z 1) with 1.
      pose proof (Qfloor_le (x + (1 # 2))). lra. }
    lia.
Qed.

Lemma mix_between (a b t : Q) :
  0 <= t -> t <= 1 -> Qmin a b <= a + (b - a) * t /\ a + (b - a) * t <= Qmax a b.
Proof.
  intros L U.
  destruct (Q.min_spec a b) as [[H Hm] | [H Hm]],
           (Q.max_spec a b) as [[H' HM] | [H' HM]]; rewrite Hm, HM.
  - assert (0 <= (b - a) * t) by (apply Qmult_le_0_compat; lra).
    assert (0 <= (b - a) * (1 - t)) by (apply Qmult_le_0_compat; lra). lra.
  - lra.
  - lra.
  - assert (0 <= (a - b) * t) by (apply Qmult_le_0_compat; lra).
    assert (0 <= (a - b) * (1 - t)) by (apply Qmult_le_0_compat; lra). lra.
Qed.

Lemma lerp_integer (a b : Z) (t : Q) :
  0 <= t -> t <= 1 ->
  exists n : Z,
    num_round (num_add (Some (inject_Z a))
                 (num_mul (num_sub (Some (inject_Z b)) (Some (inject_Z a))) (Some t)))
    = Some (inject_Z n)
    /\ (Z.min a b <= n <= Z.max a b)%Z.
Proof.
  intros L U. cbn [num_round num_add num_mul num_sub].
  destruct (mix_between (inject_Z a) (inject_Z b) t L U) as [Lo Hi].
  destruct (js_round_between (inject_Z a + (inject_Z b - inject_Z a) * t)
              (Z.min a b) (Z.max a b)) as [n [E R]].
  - destruct (Z.min_spec a b) as [[? ->] | [? ->]];
      destruct (Q.min_spec (inject_Z a) (inject_Z b)) as [[H1 Hm] | [H1 Hm]];
      rewrite Hm in Lo; try exact Lo;
      first [ rewrite Zle_Qle in *; lra
            | assert (inject_Z a <= inject_Z b) by (rewrite <- Zle_Qle; lia); lra
            | assert (inject_Z b <= inject_Z a) by (rewrite <- Zle_Qle; lia); lra ].
  - destruct (Z.max_spec a b) as [[? ->] | [? ->]];
      destruct (Q.max_spec (inject_Z a) (inject_Z b)) as [[H1 Hm] | [H1 Hm]];
      rewrite Hm in Hi; try exact Hi;
      first [ assert (inject_Z a <= inject_Z b) by (rewrite <- Zle_Qle; lia); lra
            | assert (inject_Z b <= inject_Z a) by (rewrite <- Zle_Qle; lia); lra ].
  - exists n. rewrite E. split; [reflexivity | exact R].
Qed.

(** Interpolating two colours of integers gives a colour of integers, each
    component between the two components it comes from: with endpoints in
    0..255 the result is in 0..255. *)
Theorem lerpColor_between (r1 g1 b1 r2 g2 b2 : Z) (t : Q) :
  0 <= t -> t <= 1 ->
  exists r g b : Z,
    lerpColor (integers [r1; g1; b1]) (integers [r2; g2; b2]) t = integers [r; g; b]
    /\ (Z.min r1 r2 <= r <= Z.max r1 r2)%Z
    /\ (Z.min g1 g2 <= g <= Z.max g1 g2)%Z
    /\ (Z.min b1 b2 <= b <= Z.max b1 b2)%Z.
Proof.
  intros L U.
  destruct (lerp_integer r1 r2 t L U) as [r [Er Rr]].
  destruct (lerp_integer g1 g2 t L U) as [g [Eg Rg]].
  destruct (lerp_integer b1 b2 t L U) as [b [Eb Rb]].
  exists r, g, b. unfold lerpColor, blend, component, integers.
  cbn [map nth]. rewrite Er, Eg, Eb. repeat split; try reflexivity; lia.
Qed.

Lemma lerpColor_between_example :
  exists r g b : Z,
    lerpColor (integers [0; 16; 32]%Z) (integers [255; 16; 0]%Z) (1 # 2)
    = integers [r; g; b]
    /\ (0 <= r <= 255)%Z /\ (16 <= g <= 16)%Z /\ (0 <= b <= 32)%Z.
Proof.
  assert (L : 0 <= 1 # 2) by discriminate.
  assert (U : 1 # 2 <= 1) by discriminate.
  exact (lerpColor_between 0 16 32 255 16 0 (1 # 2) L U).
Defined.

(** ** The warmth of the body *)

Lemma ease_start (d : Q) : Easing.ease 0 d == 0.
Proof.
  unfold Easing.ease. cbv zeta.
  assert (E : 0 / d == 0) by (unfold Qdiv; ring).
  assert (M : Qmin 1 (0 / d) == 0) by (rewrite E; reflexivity).
  rewrite M. ring.
Qed.

Lemma ease_end (y d : Q) : 0 < d -> d <= y -> Easing.ease y d == 1.
Proof.
  intros Hd Hy. unfold Easing.ease. cbv zeta.
  assert (M : Qmin 1 (y / d) == 1).
  { apply Q.min_l. apply Qle_shift_div_l; [exact Hd | lra]. }
  rewrite M. ring.
Qed.

Lemma lerp_at_start (a b : Z) (t : Q) :
  t == 0 ->
  num_round (num_add (Some (inject_Z a))
               (num_mul (num_sub (Some (inject_Z b)) (Some (inject_Z a))) (Some t)))
  = Some (inject_Z a).
Proof.
  intros E. cbn [num_round num_add num_mul num_sub]. f_equal.
  apply js_round_integer. rewrite E. ring.
Qed.

Lemma lerp_at_end (a b : Z) (t : Q) :
  t == 1 ->
  num_round (num_add (Some (inject_Z a))
               (num_mul (num_sub (Some (inject_Z b)) (Some (inject_Z a))) (Some t)))
  = Some (inject_Z b).
Proof.
  intros E. cbn [num_round num_add num_mul num_sub]. f_equal.
  apply js_round_integer. rewrite E. ring.
Qed.

(** At the top of the page the body has the start colour, and once the
    page is scrolled by 30% of the header height, and from there on, it has
    the end colour. *)
Theorem warmth_reaches_both_ends
    (r1 g1 b1 r2 g2 b2 : Z) (headerHeight scrollY : Q) :
  0 < headerHeight -> headerHeight * 0.3 <= scrollY ->
  let colors := {| c_start := integers [r1; g1; b1]; c_end := integers [r2; g2; b2] |} in
  currentColor colors headerHeight 0 = integers [r1; g1; b1]
  /\ currentColor colors headerHeight scrollY = integers [r2; g2; b2].
Proof.
  intros Hh Hy colors. unfold currentColor, lerpColor, blend, component, colors, integers.
  cbn [c_start c_end map nth].
  assert (Hd : 0 < headerHeight * 0.3) by (apply EasingFacts.distance_positive, Hh).
  split.
  - rewrite !(lerp_at_start _ _ _ (ease_start (headerHeight * 0.3))). reflexivity.
  - rewrite !(lerp_at_end _ _ _ (ease_end scrollY (headerHeight * 0.3) Hd Hy)).
    reflexivity.
Qed.

Lemma warmth_reaches_both_ends_example :
  currentColor {| c_start := integers [10; 20; 30]%Z;
                  c_end := integers [40; 30; 20]%Z |} 256 100
  = integers [40; 30; 20]%Z.
Proof.
  assert (Hh : 0 < 256) by reflexivity.
  assert (Hy : 256 * 0.3 <= 100) by discriminate.
  exact (proj2 (warmth_reaches_both_ends 10 20 30 40 30 20 256 100 Hh Hy)).
Defined.

(** ** The background colour of the shaders *)

Lemma blend_within (a b t : Q) :
  0 <= a -> a <= 1 -> 0 <= b -> b <= 1 -> 0 <= t -> t <= 1 ->
  exists q, num_add (Some a) (num_mul (num_sub (Some b) (Some a)) (Some t)) = Some q
            /\ 0 <= q /\ q <= 1.
Proof.
  intros La Ua Lb Ub Lt Ut. eexists. split; [reflexivity |].
  destruct (mix_between a b t Lt Ut) as [Lo Hi].
  destruct (Q.min_spec a b) as [[? Hm] | [? Hm]],
           (Q.max_spec a b) as [[? HM] | [? HM]];
    rewrite Hm in Lo; rewrite HM in Hi; split; lra.
Qed.

Lemma byte_fraction (n : Z) : (0 <= n <= 255)%Z -> 0 <= inject_Z n / 255 /\ inject_Z n / 255 <= 1.
Proof. apply ShaderFacts.byte_range. Qed.

(** For two six-digit colours and a scroll progress in [0, 1], the three
    components sent to [u_bgColor] are numbers in [0, 1]. *)
Theorem getBgColor_in_unit_cube (s1 s2 : string) (scrollProgress : Q) :
  all_chars is_hex_digit s1 = true -> String.length s1 = 6%nat ->
  all_chars is_hex_digit s2 = true -> String.length s2 = 6%nat ->
  0 <= scrollProgress -> scrollProgress <= 1 ->
  components_within 0 1 (getBgColor (" #" ++ s1) (" #" ++ s2) scrollProgress).
Proof.
  intros H1 L1 H2 L2 Lp Up.
  assert (Six : forall s, all_chars is_hex_digit s = true -> String.length s = 6%nat ->
            exists r g b : Z,
              parseHexColor (trim (" #" ++ s))
              = [Some (inject_Z r / 255); Some (inject_Z g / 255); Some (inject_Z b / 255)]
              /\ (0 <= r <= 255 /\ 0 <= g <= 255 /\ 0 <= b <= 255)%Z).
  { clear. intros s H L.
    destruct s as [|a [|b [|c [|d [|e [|f [|? ?]]]]]]]; try discriminate L.
    cbn [all_chars] in H. unfold is_hex_digit in H.
    destruct (hex_digit a) as [xa|] eqn:Ha; [| discriminate H].
    destruct (hex_digit b) as [xb|] eqn:Hb; [| discriminate H].
    destruct (hex_digit c) as [xc|] eqn:Hc; [| discriminate H].
    destruct (hex_digit d) as [xd|] eqn:Hd; [| discriminate H].
    destruct (hex_digit e) as [xe|] eqn:He; [| discriminate H].
    destruct (hex_digit f) as [xf|] eqn:Hf; [| discriminate H].
    destruct (six_digit_fractions a b c d e f _ _ _ _ _ _ Ha Hb Hc Hd He Hf)
      as (P & Ph & R).
    exists (16 * xa + xb)%Z, (16 * xc + xd)%Z, (16 * xe + xf)%Z.
    split; [| exact R]. rewrite <- P, <- Ph.
    set (s := String a (String b (String c (String d (String e (String f "")))))).
    assert (T : trim (" #" ++ s)%string = ("#" ++ s)%string).
    { change (" #" ++ s)%string with (" " ++ ("#" ++ s) ++ "")%string.
      rewrite (trim_pad " " ("#" ++ s) "" eq_refl eq_refl).
      assert (W : all_chars (fun c => negb (is_ws c)) ("#" ++ s)%string = true).
      { subst s. rewrite !append_cons, append_nil. cbn [all_chars].
        unfold is_hex_digit in *.
        rewrite (hex_no_ws a), (hex_no_ws b), (hex_no_ws c), (hex_no_ws d),
          (hex_no_ws e), (hex_no_ws f); unfold is_hex_digit;
          rewrite ?Ha, ?Hb, ?Hc, ?Hd, ?He, ?Hf; reflexivity. }
      unfold trim. rewrite append_cons, append_nil. cbn [trim_start].
      change (is_ws "#") with false. cbn iota.
      rewrite append_cons, append_nil in W. exact (trim_end_no_ws _ W). }
    rewrite T. reflexivity. }
  destruct (Six s1 H1 L1) as (r1 & g1 & b1 & E1 & R1).
  destruct (Six s2 H2 L2) as (r2 & g2 & b2 & E2 & R2).
  unfold getBgColor. cbv zeta. rewrite E1, E2.
  unfold components_within, blend, component. cbn [nth].
  repeat (apply List.Forall_cons;
          [apply blend_within; try assumption; apply byte_fraction; lia |]).
  apply List.Forall_nil.
Qed.

Lemma getBgColor_in_unit_cube_example :
  components_within 0 1 (getBgColor " #1a2b3c" " #ffeedd" (1 # 2)).
Proof.
  assert (L : 0 <= 1 # 2) by discriminate.
  assert (U : 1 # 2 <= 1) by discriminate.
  exact (getBgColor_in_unit_cube "1a2b3c" "ffeedd" (1 # 2)
           eq_refl eq_refl eq_refl eq_refl L U).
Defined.

End WarmthFacts.

(* ===================================================================== *)
(** * What the generators read *)
(* ===================================================================== *)

Module ScriptFacts.
Import Texture Script.

Section Programs.
Variable M : JSMath.

(** ** Bodies without entropy *)

Lemma pure_bind {A B : Type} (p : prog M A) (k : A -> prog M B) :
  pure M p -> (forall a, pure M (k a)) -> pure M (bind M p k).
Proof.
  intros Hp Hk. induction p as [a | X c k' IH]; cbn.
  - apply Hk.
  - destruct Hp as [Hc Hk']. split; [exact Hc |]. intros x. apply IH, Hk'.
Qed.

Lemma pure_for_each {A S : Type} (l : list A) (body : S -> A -> prog M S) (s : S) :
  (forall s a, pure M (body s a)) -> pure M (for_each M l body s).
Proof.
  intros Hb. revert s. induction l as [|a l IH]; intros s; cbn [for_each].
  - exact I.
  - apply pure_bind; [apply Hb | exact IH].
Qed.

Lemma pure_push_r2 (size : nat) (values : list (val_entry M)) (i : nat) :
  pure M (push_r2 M size values i).
Proof. cbn. auto. Qed.

Lemma pure_set_rank (n : nat) (pixels : list Z) (re : nat * val_entry M) :
  pure M (set_rank M n pixels re).
Proof. cbn. auto. Qed.

Lemma pure_push_dist (size : nat) (center : float M) (y : nat)
    (distances : list (val_entry M)) (x : nat) :
  pure M (push_dist M size center y distances x).
Proof. cbn. auto. Qed.

Lemma pure_refine (size pass : nat) (pixels : list Z) (i : nat) :
  pure M (refine M size pass pixels i).
Proof.
  cbn. repeat (split; [reflexivity |]; intros ?).
  destruct (_ =? _); [exact I |]. cbn. split; [reflexivity |].
  intros [d|]; [| exact I].
  destruct (u8_get pixels _); [| exact I].
  destruct (u8_get pixels _); [| exact I].
  destruct (_ && _); exact I.
Qed.

Lemma pure_generateBlueNoise (size : nat) : pure M (generateBlueNoise M size).
Proof.
  unfold generateBlueNoise. cbv zeta.
  apply pure_bind; [apply pure_for_each, pure_push_r2 |]. intros values.
  apply pure_bind; [apply pure_for_each, pure_set_rank |]. intros pixels.
  apply pure_for_each. intros px pass. apply pure_for_each, pure_refine.
Qed.

Lemma pure_generateClusteredDot (size : nat) : pure M (generateClusteredDot M size).
Proof.
  unfold generateClusteredDot. cbv zeta.
  apply pure_bind.
  - apply pure_for_each. intros ds y. apply pure_for_each, pure_push_dist.
  - intros distances. apply pure_for_each, pure_set_rank.
Qed.

(** ** What a run depends on *)

(** The result of a body without entropy is the same in any two
    environments with the same engine. *)
Lemma pure_run {W1 W2 R : Type} (h1 : answers M W1) (h2 : answers M W2) (p : prog M R) :
  same_engine M h1 h2 -> pure M p ->
  forall (w1 : W1) (w2 : W2), (run M h1 p w1).1 = (run M h2 p w2).1.
Proof.
  intros Hs. induction p as [r | X c k IH]; intros Hp w1 w2; [reflexivity |].
  destruct Hp as [Hc Hk]. cbn [run].
  pose proof (Hs X c Hc w1 w2) as E.
  destruct (h1 X c w1) as [x1 w1'], (h2 X c w2) as [x2 w2'].
  cbn in E. subst x2. apply IH, Hk.
Qed.

Lemma engine_same {W1 W2 : Type} (sqrt : float M -> float M)
    (src1 : sources M W1) (src2 : sources M W2) :
  same_engine M (engine M sqrt src1) (engine M sqrt src2).
Proof. intros X c Hc w1 w2. destruct c; try discriminate Hc; reflexivity. Qed.

(** ** The run in the environment of [M] *)

Section Engine.
Context {W : Type} (sqrt : float M -> float M) (src : sources M W).

Lemma run_bind {A B : Type} (p : prog M A) (k : A -> prog M B) (a : A) (w : W) :
  pure M p -> (run M (engine M sqrt src) p w).1 = a ->
  run M (engine M sqrt src) (bind M p k) w = run M (engine M sqrt src) (k a) w.
Proof.
  revert w. induction p as [r | X c k' IH]; intros w Hp E; cbn in *.
  - subst a. reflexivity.
  - destruct Hp as [Hc Hk].
    destruct c; try discriminate Hc; cbn in *; apply IH; auto.
Qed.

Lemma run_pure {R : Type} (p : prog M R) (w : W) :
  pure M p -> (run M (engine M sqrt src) p w).2 = w.
Proof.
  revert w. induction p as [r | X c k IH]; intros w Hp; cbn in *; [reflexivity |].
  destruct Hp as [Hc Hk].
  destruct c; try discriminate Hc; cbn; apply IH, Hk.
Qed.

Lemma run_for_each {A S : Type} (f : S -> A -> S) (body : S -> A -> prog M S)
    (l : list A) (s : S) (w : W) :
  (forall s a, pure M (body s a)) ->
  (forall s a w, (run M (engine M sqrt src) (body s a) w).1 = f s a) ->
  (run M (engine M sqrt src) (for_each M l body s) w).1 = fold_left f l s.
Proof.
  intros Hp Hb. revert s. induction l as [|a l IH]; intros s; [reflexivity |].
  change (for_each M (a :: l) body s) with (bind M (body s a) (for_each M l body)).
  rewrite (run_bind _ _ (f s a) w (Hp s a) (Hb s a w)). apply IH.
Qed.

Lemma fold_push {A B : Type} (g : A -> B) (l : list A) (acc : list B) :
  fold_left (fun vs a => vs ++ [g a]) l acc = acc ++ map g l.
Proof.
  revert acc. induction l as [|a l IH]; intros acc; cbn.
  - rewrite app_nil_r. reflexivity.
  - rewrite IH, <- app_assoc. reflexivity.
Qed.

Variable size : nat.
Hypothesis floor_quotient :
  forall i : nat, f_floor M (f_div M (lit_nat M i) (lit_nat M size)) = Z.of_nat (i / size).

Lemma run_push_r2 (values : list (val_entry M)) (i : nat) (w : W) :
  (run M (engine M sqrt src) (push_r2 M size values i) w).1
  = values ++ [{| v_idx := i; v_val := r2 M size i |}].
Proof. cbn. rewrite floor_quotient. reflexivity. Qed.

Lemma run_refine (pass : nat) (pixels : list Z) (i : nat) (w : W) :
  (run M (engine M sqrt src) (refine M size pass pixels i) w).1
  = refine_step M size pass i pixels.
Proof.
  cbn. rewrite floor_quotient. unfold refine_step. cbv zeta.
  destruct (_ =? _); [reflexivity |]. cbn.
  destruct (u8_get pixels (Z.of_nat i)) as [v1|]; [| reflexivity].
  destruct (u8_get pixels _) as [v2|]; [| reflexivity].
  cbn. destruct (_ && _); reflexivity.
Qed.

(** In the environment of [M] the body returns the texture that the page
    uploads. *)
Lemma run_generateBlueNoise (w : W) :
  (run M (engine M sqrt src) (Script.generateBlueNoise M size) w).1
  = Texture.generateBlueNoise M size.
Proof.
  unfold Script.generateBlueNoise, Texture.generateBlueNoise. cbv zeta.
  unfold mbind, prog_bind.
  rewrite (run_bind _ _ (values M size) w).
  - rewrite (run_bind _ _ (assign_ranks (v_idx M) (rank_byte M (size * size))
                             (stable_sort (val_before M) (values M size))
                             (u8_new (size * size))) w).
    + apply (run_for_each (refine_pass M size)).
      * intros px pass. apply pure_for_each, pure_refine.
      * intros px pass w'. unfold refine_pass.
        apply run_for_each; [apply pure_refine | intros; apply run_refine].
    + apply pure_for_each, pure_set_rank.
    + unfold assign_ranks. apply run_for_each; [apply pure_set_rank |].
      intros px re w'. reflexivity.
  - apply pure_for_each, pure_push_r2.
  - rewrite (run_for_each (fun vs i => vs ++ [{| v_idx := i; v_val := r2 M size i |}])).
    + rewrite fold_push. reflexivity.
    + apply pure_push_r2.
    + intros vs i w'. apply run_push_r2.
Qed.
End Engine.

End Programs.

(** The sample engine takes [Math.floor] of a quotient of two counts to
    the integer quotient. *)
Lemma sample_floor_quotient (size i : nat) :
  f_floor Sample.math (f_div Sample.math (lit_nat Sample.math i) (lit_nat Sample.math size))
  = Z.of_nat (i / size).
Proof.
  unfold lit_nat. cbn [f_floor f_div lit Sample.math].
  destruct size as [|size].
  - unfold Qdiv, Qinv, Qmult, Qfloor. cbn. rewrite Z.mul_0_r. reflexivity.
  - assert (Hs : (0 < inject_Z (Z.of_nat (S size)))%Q).
    { replace 0%Q with (inject_Z 0) by reflexivity. rewrite <- Zlt_Qlt. lia. }
    rewrite Nat2Z.inj_div.
    pose proof (Z.mul_div_le (Z.of_nat i) (Z.of_nat (S size)) ltac:(lia)) as L.
    pose proof (Z.mul_succ_div_gt (Z.of_nat i) (Z.of_nat (S size)) ltac:(lia)) as U.
    apply WarmthFacts.Qfloor_unique.
    + apply Qle_shift_div_l; [exact Hs |].
      rewrite <- inject_Z_mult, <- Zle_Qle. lia.
    + apply Qlt_shift_div_r; [exact Hs |].
      change 1%Q with (inject_Z 1).
      rewrite <- inject_Z_plus, <- inject_Z_mult, <- Zlt_Qlt. lia.
Qed.

(** In the sample environment the body returns the texture. *)
Lemma run_generateBlueNoise_sample (size : nat) :
  (run Sample.math (engine Sample.math Sample.root Sample.counting)
       (Script.generateBlueNoise Sample.math size) 0%nat).1
  = Texture.generateBlueNoise Sample.math size.
Proof. apply run_generateBlueNoise, sample_floor_quotient. Qed.

(** ** The clustered dots in exact arithmetic *)

Section Exact.
Context {W : Type} (sqrt : Q -> Q) (src : sources Sample.math W).
Hypothesis sqrt_increasing :
  forall x y : Q, (0 <= x)%Q -> (0 <= y)%Q -> ((sqrt x < sqrt y)%Q <-> (x < y)%Q).

(** The entry that the script pushes for an entry of [distances]. *)
Let measured (e : dist_entry) : val_entry Sample.math :=
  Build_val_entry Sample.math (d_idx e) (sqrt (d_dist e)).

Lemma sort_insert_map {A B : Type} (g : A -> B) (before1 : A -> A -> bool)
    (before2 : B -> B -> bool) (x : A) (l : list A) :
  (forall a, In a (x :: l) -> forall b, In b (x :: l) -> before2 (g a) (g b) = before1 a b) ->
  sort_insert before2 (g x) (map g l) = map g (sort_insert before1 x l).
Proof.
  induction l as [|y l IH]; intros H; [reflexivity |].
  cbn [map sort_insert]. rewrite (H x (or_introl eq_refl) y (or_intror (or_introl eq_refl))).
  destruct (before1 x y); [reflexivity |].
  cbn [map]. f_equal. apply IH.
  intros a Ha b Hb. apply H; cbn in *; tauto.
Qed.

Lemma stable_sort_map {A B : Type} (g : A -> B) (before1 : A -> A -> bool)
    (before2 : B -> B -> bool) (l : list A) :
  (forall a, In a l -> forall b, In b l -> before2 (g a) (g b) = before1 a b) ->
  stable_sort before2 (map g l) = map g (stable_sort before1 l).
Proof.
  intros H. unfold stable_sort.
  assert (G : forall acc, (forall a, In a (acc ++ l) -> forall b, In b (acc ++ l) ->
                            before2 (g a) (g b) = before1 a b) ->
              fold_left (fun acc x => sort_insert before2 x acc) (map g l) (map g acc)
              = map g (fold_left (fun acc x => sort_insert before1 x acc) l acc)).
  { clear H. induction l as [|x l IH]; intros acc H; [reflexivity |].
    cbn [map fold_left]. rewrite (sort_insert_map g before1 before2).
    - apply IH. intros a Ha b Hb.
      apply H; rewrite in_app_iff in *; cbn;
        [ destruct Ha as [Ha | Ha]; [| tauto] | destruct Hb as [Hb | Hb]; [| tauto] ].
      + apply (Permutation_in _ (TextureFacts.sort_insert_perm before1 x acc)) in Ha.
        cbn in Ha. tauto.
      + apply (Permutation_in _ (TextureFacts.sort_insert_perm before1 x acc)) in Hb.
        cbn in Hb. tauto.
    - intros a Ha b Hb. apply H; rewrite in_app_iff; cbn in *; tauto. }
  apply (G []). exact H.
Qed.

Lemma dist_sq_nonneg (size x y : nat) : (0 <= dist_sq size x y)%Q.
Proof.
  unfold dist_sq. cbv zeta.
  set (dx := (inject_Z (Z.of_nat x) - center size)%Q).
  set (dy := (inject_Z (Z.of_nat y) - center size)%Q).
  assert (0 <= dx * dx)%Q by (destruct (Qlt_le_dec dx 0); nra).
  assert (0 <= dy * dy)%Q by (destruct (Qlt_le_dec dy 0); nra).
  lra.
Qed.

Lemma distances_nonneg (size : nat) (e : dist_entry) :
  In e (distances size) -> (0 <= d_dist e)%Q.
Proof.
  unfold distances. rewrite in_flat_map. intros (y & _ & H).
  apply in_map_iff in H as (x & <- & _). apply dist_sq_nonneg.
Qed.

(** Comparing the measured distances is comparing their squares. *)
Lemma measured_before (size : nat) (a b : dist_entry) :
  In a (distances size) -> In b (distances size) ->
  val_before Sample.math (measured a) (measured b) = dist_before a b.
Proof.
  intros Ha Hb. apply distances_nonneg in Ha. apply distances_nonneg in Hb.
  destruct (sqrt_increasing _ _ Ha Hb) as [S1 S2].
  unfold val_before, dist_before, measured. cbn.
  f_equal.
  destruct (Qle_bool (d_dist b) (d_dist a)) eqn:E.
  - apply Qle_bool_iff in E. apply Qle_bool_iff.
    assert (N : ~ (sqrt (d_dist a) < sqrt (d_dist b))%Q).
    { intros C. apply S1 in C. lra. }
    apply Qnot_lt_le in N. unfold Qminus. lra.
  - destruct (Qle_bool 0 (sqrt (d_dist a) - sqrt (d_dist b))) eqn:E'; [| reflexivity].
    apply Qle_bool_iff in E'. unfold Qminus in E'.
    assert (C : (d_dist a < d_dist b)%Q).
    { apply Qnot_le_lt. intros C. apply Qle_bool_iff in C. congruence. }
    apply S2 in C. lra.
Qed.

Lemma run_push_dist (size y : nat) (ds : list (val_entry Sample.math)) (x : nat) (w : W) :
  (run Sample.math (engine Sample.math sqrt src)
       (push_dist Sample.math size
          (f_div Sample.math (f_sub Sample.math (lit_nat Sample.math size)
                                (lit Sample.math 1)) (lit Sample.math 2))
          y ds x) w).1
  = ds ++ [measured (entry_of size x y)].
Proof. reflexivity. Qed.

Lemma measured_distances (size : nat) (w : W) :
  (run Sample.math (engine Sample.math sqrt src)
     (for_each Sample.math (seq 0 size)
        (fun ds y =>
           for_each Sample.math (seq 0 size)
             (push_dist Sample.math size
                (f_div Sample.math (f_sub Sample.math (lit_nat Sample.math size)
                                      (lit Sample.math 1)) (lit Sample.math 2)) y) ds)
        []) w).1
  = map measured (distances size).
Proof.
  rewrite (run_for_each Sample.math sqrt src
             (fun ds y => ds ++ map (fun x => measured (entry_of size x y)) (seq 0 size))).
  - unfold distances.
    assert (G : forall rows acc,
              fold_left (fun ds y => ds ++ map (fun x => measured (entry_of size x y))
                                               (seq 0 size)) rows acc
              = acc ++ map measured
                         (flat_map (fun y => map (fun x => entry_of size x y) (seq 0 size))
                                   rows)).
    { induction rows as [|y rows IH]; intros acc; cbn [fold_left flat_map map].
      - rewrite app_nil_r. reflexivity.
      - rewrite IH, map_app, map_map, app_assoc. reflexivity. }
    exact (G (seq 0 size) []).
  - intros ds y. apply pure_for_each, pure_push_dist.
  - intros ds y w'.
    rewrite (run_for_each Sample.math sqrt src
               (fun ds x => ds ++ [measured (entry_of size x y)])).
    + apply fold_push.
    + apply pure_push_dist.
    + intros ds' x w''. apply run_push_dist.
Qed.

(** In exact arithmetic, with a square root that is strictly increasing,
    the body returns the texture of [Texture.generateClusteredDot]: the
    order of the distances is the order of their squares. *)
Lemma run_generateClusteredDot (size : nat) (w : W) :
  (run Sample.math (engine Sample.math sqrt src)
       (Script.generateClusteredDot Sample.math size) w).1
  = Texture.generateClusteredDot size.
Proof.
  unfold Script.generateClusteredDot, Texture.generateClusteredDot. cbv zeta.
  unfold mbind, prog_bind.
  rewrite (run_bind Sample.math sqrt src _ _ (map measured (distances size)) w).
  - rewrite (stable_sort_map measured dist_before).
    + rewrite length_map.
      set (sorted := stable_sort dist_before (distances size)).
      rewrite (run_for_each Sample.math sqrt src
                 (fun px re => u8_set px (v_idx Sample.math re.2)
                                 (rank_value re.1 (length sorted)))).
      * unfold assign_ranks.
        generalize (u8_new (size * size)) as px.
        generalize (seq 0 (length sorted)) as ranks.
        generalize (length sorted) as n.
        induction sorted as [|e sorted IH]; intros n ranks px;
          destruct ranks as [|rank ranks]; try reflexivity.
        cbn [map combine fold_left]. apply IH.
      * intros px re. apply pure_set_rank.
      * intros px re w'. reflexivity.
    + intros a Ha b Hb. apply (measured_before size); assumption.
  - apply pure_for_each. intros ds y. apply pure_for_each, pure_push_dist.
  - apply measured_distances.
Qed.
End Exact.

Lemma root_increasing (x y : Q) :
  (0 <= x)%Q -> (0 <= y)%Q -> ((Sample.root x < Sample.root y)%Q <-> (x < y)%Q).
Proof.
  intros _ _. unfold Sample.root, Qdiv. change (/ 2)%Q with (1 # 2)%Q.
  split; intros H; lra.
Qed.

Lemma run_generateClusteredDot_sample (size : nat) :
  (run Sample.math (engine Sample.math Sample.root Sample.counting)
       (Script.generateClusteredDot Sample.math size) 0%nat).1
  = Texture.generateClusteredDot size.
Proof. apply run_generateClusteredDot, root_increasing. Qed.

(** C2.  Neither generator calls a source of entropy ([Math.random],
    [Date.now], [performance.now], [crypto.getRandomValues]): its body
    calls [Math.floor], [Math.round], [Math.cos], [Math.sin], [Math.sqrt]
    and [Math.abs] only.  So two invocations with the same size return the
    same bytes in any two environments with the same engine, whatever the
    clock and the random generator say, in one run of the page or in
    two. *)
Theorem generators_are_deterministic
    (M : JSMath) (W1 W2 : Type) (h1 : answers M W1) (h2 : answers M W2)
    (size : nat) (w1 : W1) (w2 : W2) :
  same_engine M h1 h2 ->
  (pure M (generateBlueNoise M size) /\ pure M (generateClusteredDot M size))
  /\ (run M h1 (generateBlueNoise M size) w1).1
     = (run M h2 (generateBlueNoise M size) w2).1
  /\ (run M h1 (generateClusteredDot M size) w1).1
     = (run M h2 (generateClusteredDot M size) w2).1.
Proof.
  intros Hs.
  pose proof (pure_generateBlueNoise M size) as Pb.
  pose proof (pure_generateClusteredDot M size) as Pc.
  split; [split; assumption |]. split.
  - exact (pure_run M h1 h2 _ Hs Pb w1 w2).
  - exact (pure_run M h1 h2 _ Hs Pc w1 w2).
Qed.

Lemma generators_are_deterministic_sample :
  (run Sample.math (engine Sample.math Sample.root Sample.counting)
       (generateBlueNoise Sample.math 4) 0%nat).1
  = (run Sample.math (engine Sample.math Sample.root Sample.frozen)
         (generateBlueNoise Sample.math 4) tt).1.
Proof.
  exact (proj1 (proj2 (generators_are_deterministic Sample.math nat unit _ _ 4 0%nat tt
                         (engine_same Sample.math Sample.root
                            Sample.counting Sample.frozen)))).
Defined.

End ScriptFacts.

(* ===================================================================== *)
(** * The scroll effect never leaves its range *)
(* ===================================================================== *)

Module ScrollFacts.
Import Scroll.
Local Open Scope Q_scope.

(** The warmth progress runs ahead of the header progress. *)
Lemma header_progress_behind (h y : Q) :
  0 < h -> 0 <= y -> Qmin 1 (y / h) <= Qmin 1 (y / (h * 0.3)).
Proof.
  intros Hh Hy. apply Q.min_le_compat_l.
  assert (Hd : 0 < h * 0.3) by (apply EasingFacts.distance_positive, Hh).
  apply Qle_shift_div_l; [exact Hd |].
  assert (E : y / h * (h * 0.3) == y * 0.3) by (field; lra).
  rewrite E. lra.
Qed.

(** For a header of positive height and a page scrolled down by any
    amount: the header is scaled to between 85% and 100%, moved up by at
    most 10 pixels, and keeps an opacity between 0.7 and 1; the progress
    sent to the shader lies in [0, 1] and never exceeds the warmth
    progress. *)
Theorem updateScroll_bounds (headerHeight scrollY : Q) :
  0 < headerHeight -> 0 <= scrollY ->
  let e := updateScroll headerHeight scrollY in
  (0.85 <= scale e /\ scale e <= 1)
  /\ (-10 <= translateY e /\ translateY e <= 0)
  /\ (0.7 <= opacity e /\ opacity e <= 1)
  /\ (0 <= easedHeaderProgress e /\ easedHeaderProgress e <= scrollProgress e
      /\ scrollProgress e <= 1).
Proof.
  intros Hh Hy e.
  assert (Hd : 0 < headerHeight * 0.3) by (apply EasingFacts.distance_positive, Hh).
  destruct (EasingFacts.progress_bounds scrollY headerHeight Hh Hy) as [L2 U2].
  destruct (EasingFacts.progress_bounds scrollY (headerHeight * 0.3) Hd Hy) as [L1 U1].
  pose proof (header_progress_behind headerHeight scrollY Hh Hy) as B.
  destruct (EasingFacts.cubic_range _ L2 U2) as [E0 E1].
  destruct (EasingFacts.cubic_range _ L1 U1) as [W0 W1].
  pose proof (EasingFacts.cubic_monotone _ _ L2 B U1) as M.
  subst e. unfold updateScroll. cbv zeta.
  cbn [scale translateY opacity easedHeaderProgress scrollProgress].
  repeat split; try assumption; lra.
Qed.

Lemma updateScroll_bounds_example :
  0.85 <= scale (updateScroll 256 100) /\ scale (updateScroll 256 100) <= 1.
Proof.
  assert (Hh : 0 < 256) by reflexivity.
  assert (Hy : 0 <= 100) by discriminate.
  exact (proj1 (updateScroll_bounds 256 100 Hh Hy)).
Defined.

End ScrollFacts.

(* ===================================================================== *)
(** * The source always covers the canvas *)
(* ===================================================================== *)

Module CoverFacts.
Import Cover.
Local Open Scope Q_scope.

(** For a source and a canvas with positive sizes the coordinates stay
    inside the source, the sampled part is centred horizontally and starts
    at the bottom edge, and it has the proportions of the canvas: its width
    times the canvas height is its height times the canvas width, in
    source pixels. *)
Theorem setupCanvas_covers (sourceWidth sourceHeight width height : Q) :
  0 < sourceWidth -> 0 < sourceHeight -> 0 < width -> 0 < height ->
  exists c : coords,
    setupCanvas sourceWidth sourceHeight width height = Some c
    /\ (0 <= texLeft c /\ texLeft c <= texRight c /\ texRight c <= 1)
    /\ (texBottom c == 0 /\ 0 <= texTop c /\ texTop c <= 1)
    /\ texLeft c + texRight c == 1
    /\ (texRight c - texLeft c) * sourceWidth * height
       == (texTop c - texBottom c) * sourceHeight * width.
Proof.
  intros Hsw Hsh Hw Hh. unfold setupCanvas.
  assert (Z1 : Qeq_bool sourceWidth 0 = false).
  { destruct (Qeq_bool sourceWidth 0) eqn:E; [| reflexivity].
    apply Qeq_bool_iff in E. lra. }
  assert (Z2 : Qeq_bool sourceHeight 0 = false).
  { destruct (Qeq_bool sourceHeight 0) eqn:E; [| reflexivity].
    apply Qeq_bool_iff in E. lra. }
  rewrite Z1, Z2. cbn [orb]. cbv zeta.
  assert (Hca : 0 < width / height) by (apply Qlt_shift_div_l; lra).
  assert (Hsa : 0 < sourceWidth / sourceHeight) by (apply Qlt_shift_div_l; lra).
  destruct (Qle_bool (sourceWidth / sourceHeight) (width / height)) eqn:C; cbn [negb].
  - apply Qle_bool_iff in C. eexists. split; [reflexivity |].
    cbn [texLeft texRight texBottom texTop].
    assert (S0 : 0 < sourceWidth / sourceHeight / (width / height))
      by (apply Qlt_shift_div_l; lra).
    assert (S1 : sourceWidth / sourceHeight / (width / height) <= 1)
      by (apply Qle_shift_div_r; lra).
    repeat split; try lra. field. lra.
  - assert (C' : width / height < sourceWidth / sourceHeight).
    { apply Qnot_le_lt. intros H. apply Qle_bool_iff in H. congruence. }
    eexists. split; [reflexivity |].
    cbn [texLeft texRight texBottom texTop].
    assert (S0 : 0 < width / height / (sourceWidth / sourceHeight))
      by (apply Qlt_shift_div_l; lra).
    assert (S1 : width / height / (sourceWidth / sourceHeight) <= 1)
      by (apply Qle_shift_div_r; lra).
    repeat split; try lra; try (field; lra).
    + apply Qle_shift_div_l; lra.
    + assert (0 <= (1 - width / height / (sourceWidth / sourceHeight)) / 2)
        by (apply Qle_shift_div_l; lra).
      assert ((1 - width / height / (sourceWidth / sourceHeight)) / 2 <= 1 # 2)
        by (apply Qle_shift_div_r; lra).
      lra.
    + assert (0 <= (1 - width / height / (sourceWidth / sourceHeight)) / 2)
        by (apply Qle_shift_div_l; lra).
      lra.
Qed.

Lemma setupCanvas_covers_example :
  exists c : coords,
    setupCanvas 1920 1080 800 256 = Some c
    /\ (texRight c - texLeft c) * 1920 * 256 == (texTop c - texBottom c) * 1080 * 800.
Proof.
  destruct (setupCanvas_covers 1920 1080 800 256 eq_refl eq_refl eq_refl eq_refl)
    as (c & E & _ & _ & _ & A).
  exists c. split; assumption.
Defined.

End CoverFacts.

(* ===================================================================== *)
(** * What the shaders paint *)
(* ===================================================================== *)

Module ShaderOutput.
Import Shader ShaderFacts.
Local Open Scope Q_scope.

(** ** The output is one of the two colours *)

Lemma step_binary (edge x : Q) : step edge x = 0 \/ step edge x = 1.
Proof. unfold step. destruct (Qle_bool edge x); auto. Qed.

Lemma mix3_ends (a b : vec3) :
  same_color (mix3 a b 0) a /\ same_color (mix3 a b 1) b.
Proof.
  destruct a as [[a1 a2] a3], b as [[b1 b2] b3]. unfold mix3, mix, same_color.
  repeat split; ring.
Qed.

(** Each fragment of either shader is painted with the background colour
    or with the foreground colour, never with a blend of the two. *)
Theorem fragment_is_background_or_foreground
    (glsl_sin : Q -> Q) (tx : samplers) (h : header_inputs) (i : image_inputs) :
  (same_color (header_main tx h) (h_bgColor h)
   \/ same_color (header_main tx h) (h_fgColor h))
  /\ (same_color (image_main glsl_sin tx i) (i_bgColor i)
      \/ same_color (image_main glsl_sin tx i) (i_fgColor i)).
Proof.
  split.
  - unfold header_main, header_dithered.
    destruct (dispatch tx (h_ditherMode h) (h_fragCoord h) (header_gray h)) as [g t].
    destruct (step_binary (t + 0.1) g) as [-> | ->];
      [left | right]; apply mix3_ends.
  - unfold image_main, image_dithered.
    destruct (dispatch tx (i_ditherMode i) (i_fragCoord i) (image_gray i))
      as [g t].
    cbv zeta.
    destruct (step_binary (t + 0.1 + animation_term glsl_sin i g) g) as [-> | ->];
      [left | right]; apply mix3_ends.
Qed.


(** ** Dark fragments *)

Lemma program_threshold_nonneg (M : Texture.JSMath) (mode : Z) (frag : vec2) (gray : Q) :
  0 <= snd (dispatch (program_samplers M) mode frag gray).
Proof.
  destruct (program_samplers_bytes M) as [Bb [Bn [B8 B16]]].
  assert (T : forall size tex coord, Texture.is_bytes tex -> 0 <= texture2D size tex coord).
  { intros size tex coord Hb.
    destruct (texture2D_byte size tex coord Hb) as [b [Hr ->]].
    apply byte_range, Hr. }
  unfold dispatch.
  repeat match goal with |- context [if ?b then _ else _] => destruct b end;
    cbn [snd].
  - exact (T _ _ _ B16).
  - exact (T _ _ _ B8).
  - destruct (clustered4Threshold_entry frag) as [n [Hn ->]].
    apply sixteenth_range, Hn.
  - destruct (clusteredThreshold_values frag) as [-> | [-> | [-> | ->]]]; discriminate.
  - exact (T _ _ _ Bn).
  - apply hash_range.
  - destruct (atkinsonThreshold_entry frag) as [n [Hn ->]].
    apply sixteenth_range, Hn.
  - exact (T _ _ _ Bb).
Qed.

(** The gray value that a branch compares, for a dark gray value that comes
    in. *)
Lemma dark_stays_dark (tx : samplers) (mode : Z) (frag : vec2) (gray bound : Q) :
  0 <= bound -> bound <= 1 -> gray * 1.1 <= bound ->
  fst (dispatch tx mode frag gray) <= bound.
Proof.
  intros Hb Hb' Hg. unfold dispatch.
  assert (C : forall v, v <= bound -> clamp v 0 1 <= bound).
  { intros v Hv. unfold clamp.
    destruct (Q.max_spec v 0) as [[? E] | [? E]];
      destruct (Q.min_spec (Qmax v 0) 1) as [[? E'] | [? E']];
      rewrite E', ?E in *; lra. }
  assert (Hneg : gray <= 0 \/ 0 <= gray) by (destruct (Qlt_le_dec gray 0); [left | right]; lra).
  repeat match goal with |- context [if ?b then _ else _] => destruct b end;
    cbn [fst]; try apply C; lra.
Qed.

(** A fragment whose gray value is below 1/11 is painted with the
    background colour by the header shader, in every mode and at every
    position. *)
Theorem header_dark_fragment_is_background (M : Texture.JSMath) (h : header_inputs) :
  header_gray h < 1 # 11 ->
  header_dithered (program_samplers M) h = 0
  /\ same_color (header_main (program_samplers M) h) (h_bgColor h).
Proof.
  intros Hg.
  assert (D : header_dithered (program_samplers M) h = 0).
  { unfold header_dithered.
    pose proof (program_threshold_nonneg M (h_ditherMode h) (h_fragCoord h) (header_gray h))
      as Ht.
    assert (Hd : exists b, header_gray h * 1.1 <= b /\ 0 <= b /\ b < 0.1).
    { destruct (Qlt_le_dec (header_gray h) 0).
      - exists 0. repeat split; lra.
      - exists (header_gray h * 1.1). repeat split; lra. }
    destruct Hd as (b & Hb1 & Hb0 & Hb2).
    pose proof (dark_stays_dark (program_samplers M) (h_ditherMode h) (h_fragCoord h)
                  (header_gray h) b Hb0 ltac:(lra) Hb1) as Hf.
    destruct (dispatch (program_samplers M) (h_ditherMode h) (h_fragCoord h) (header_gray h))
      as [g t].
    cbn [fst snd] in *. unfold step.
    destruct (Qle_bool (t + 0.1) g) eqn:E; [| reflexivity].
    apply Qle_bool_iff in E. lra. }
  split; [exact D |]. unfold header_main. rewrite D. apply mix3_ends.
Qed.

Lemma header_dark_fragment_is_background_example :
  header_gray Sample.header_fragment < 1 # 11
  /\ header_dithered (program_samplers Sample.math) Sample.header_fragment = 0.
Proof.
  assert (H : header_gray Sample.header_fragment < 1 # 11) by (vm_compute; reflexivity).
  split; [exact H |].
  exact (proj1 (header_dark_fragment_is_background Sample.math Sample.header_fragment H)).
Defined.

(** The image shader paints a fragment with the background colour when its
    gray value is at most 1/22, in every mode, at every position and time
    and whatever the sine: below 0.05 the animation adds nothing to the
    threshold. *)
Theorem image_dark_fragment_is_background
    (glsl_sin : Q -> Q) (M : Texture.JSMath) (i : image_inputs) :
  image_gray i <= 1 # 22 ->
  image_dithered glsl_sin (program_samplers M) i = 0
  /\ same_color (image_main glsl_sin (program_samplers M) i) (i_bgColor i).
Proof.
  intros Hg.
  assert (D : image_dithered glsl_sin (program_samplers M) i = 0).
  { unfold image_dithered.
    pose proof (program_threshold_nonneg M (i_ditherMode i) (i_fragCoord i) (image_gray i))
      as Ht.
    assert (Hb1 : image_gray i * 1.1 <= 0.05) by lra.
    pose proof (dark_stays_dark (program_samplers M) (i_ditherMode i) (i_fragCoord i)
                  (image_gray i) 0.05 ltac:(discriminate) ltac:(discriminate) Hb1) as Hf.
    destruct (dispatch (program_samplers M) (i_ditherMode i) (i_fragCoord i) (image_gray i))
      as [g t].
    cbn [fst snd] in *. cbv zeta.
    assert (A : animation_term glsl_sin i g == 0).
    { unfold animation_term. cbv zeta.
      rewrite (smoothstep_below 0.05 0.3 g); [ring | reflexivity | exact Hf]. }
    unfold step.
    destruct (Qle_bool (t + 0.1 + animation_term glsl_sin i g) g) eqn:E; [| reflexivity].
    apply Qle_bool_iff in E. rewrite A in E. lra. }
  split; [exact D |]. unfold image_main. rewrite D. apply mix3_ends.
Qed.

Lemma image_dark_fragment_is_background_example :
  image_gray Sample.image_fragment <= 1 # 22
  /\ image_dithered Sample.sine (program_samplers Sample.math) Sample.image_fragment = 0.
Proof.
  assert (H : image_gray Sample.image_fragment <= 1 # 22) by (vm_compute; discriminate).
  split; [exact H |].
  exact (proj1 (image_dark_fragment_is_background Sample.sine Sample.math
                  Sample.image_fragment H)).
Defined.

(** ** The gray value stays in range *)

Lemma smoothstep_range (e0 e1 x : Q) : 0 <= smoothstep e0 e1 x /\ smoothstep e0 e1 x <= 1.
Proof.
  unfold smoothstep. cbv zeta.
  destruct (clamp_range ((x - e0) / (e1 - e0))) as [L U].
  apply EasingFacts.cubic_range; assumption.
Qed.

Lemma luma_range (c : vec3) : is_color c -> 0 <= dot3 c luma /\ dot3 c luma <= 1.
Proof.
  destruct c as [[r g] b]. unfold is_color, dot3, luma. intros (? & ? & ? & ? & ? & ?).
  split; lra.
Qed.

Lemma product_range (a b : Q) : 0 <= a -> a <= 1 -> 0 <= b -> b <= 1 -> 0 <= a * b /\ a * b <= 1.
Proof.
  intros. split; [apply Qmult_le_0_compat; assumption |].
  assert (0 <= (1 - a) * b) by (apply Qmult_le_0_compat; lra). lra.
Qed.

Lemma dispatch_keeps_range (tx : samplers) (mode : Z) (frag : vec2) (gray : Q) :
  0 <= gray -> gray <= 1 ->
  0 <= fst (dispatch tx mode frag gray) /\ fst (dispatch tx mode frag gray) <= 1.
Proof.
  intros L U. unfold dispatch.
  repeat match goal with |- context [if ?b then _ else _] => destruct b end;
    cbn [fst]; first [apply clamp_range | split; assumption].
Qed.

(** For a source colour with channels in [0, 1] and a scroll progress in
    [0, 1] the gray value of the header shader lies in [0, 1], before and
    after the adjustment of its mode. *)
Theorem header_gray_in_unit_interval (tx : samplers) (h : header_inputs) :
  is_color (h_color h) -> 0 <= h_scroll h -> h_scroll h <= 1 ->
  (0 <= header_gray h /\ header_gray h <= 1)
  /\ (0 <= adjusted_gray tx (h_ditherMode h) (h_fragCoord h) (header_gray h)
      /\ adjusted_gray tx (h_ditherMode h) (h_fragCoord h) (header_gray h) <= 1).
Proof.
  intros Hc L U.
  assert (G : 0 <= header_gray h /\ header_gray h <= 1).
  { unfold header_gray. cbv zeta.
    destruct (luma_range _ Hc) as [G0 G1].
    destruct (smoothstep_range 0 (mix 0.4 0.85 (h_scroll h))
                (snd (h_fragCoord h) / snd (h_resolution h))) as [S0 S1].
    assert (M : 0 <= mix 1 0.7 (h_scroll h * 0.5) /\ mix 1 0.7 (h_scroll h * 0.5) <= 1)
      by (unfold mix; split; lra).
    destruct M as [M0 M1].
    destruct (product_range _ _ S0 S1 M0 M1) as [F0 F1].
    apply product_range; assumption. }
  split; [exact G |]. apply dispatch_keeps_range; apply G.
Qed.

Lemma header_gray_in_unit_interval_example :
  0 <= header_gray Sample.header_fragment /\ header_gray Sample.header_fragment <= 1.
Proof.
  assert (Hc : is_color (h_color Sample.header_fragment))
    by (vm_compute; repeat split; discriminate).
  assert (L : 0 <= h_scroll Sample.header_fragment) by discriminate.
  assert (U : h_scroll Sample.header_fragment <= 1) by discriminate.
  exact (proj1 (header_gray_in_unit_interval (program_samplers Sample.math)
                  Sample.header_fragment Hc L U)).
Defined.

(** For a source colour with channels in [0, 1] and [u_invert] in [0, 1]
    the gray value of the image shader lies in [0, 1], before and after
    the adjustment of its mode: the four edge fades only darken. *)
Theorem image_gray_in_unit_interval (tx : samplers) (i : image_inputs) :
  is_color (i_color i) -> 0 <= i_invert i -> i_invert i <= 1 ->
  (0 <= image_gray i /\ image_gray i <= 1)
  /\ (0 <= adjusted_gray tx (i_ditherMode i) (i_fragCoord i) (image_gray i)
      /\ adjusted_gray tx (i_ditherMode i) (i_fragCoord i) (image_gray i) <= 1).
Proof.
  intros Hc L U.
  assert (G : 0 <= image_gray i /\ image_gray i <= 1).
  { unfold image_gray. cbv zeta.
    destruct (luma_range _ Hc) as [G0 G1].
    set (g := dot3 (i_color i) luma) in *.
    assert (V : 0 <= mix g (1 - g) (i_invert i) /\ mix g (1 - g) (i_invert i) <= 1).
    { unfold mix.
      assert (0 <= g * (1 - i_invert i)) by (apply Qmult_le_0_compat; lra).
      assert (0 <= (1 - g) * i_invert i) by (apply Qmult_le_0_compat; lra).
      assert (0 <= (1 - g) * (1 - i_invert i)) by (apply Qmult_le_0_compat; lra).
      assert (0 <= g * i_invert i) by (apply Qmult_le_0_compat; lra).
      split; lra. }
    destruct V as [V0 V1].
    set (e := 0.1 + hash (scale2 (i_fragCoord i) 0.5) * 0.15).
    set (ux := fst (i_fragCoord i) / fst (i_resolution i)).
    set (uy := snd (i_fragCoord i) / snd (i_resolution i)).
    destruct (smoothstep_range 0 e ux) as [A0 A1].
    destruct (smoothstep_range 0 e (1 - ux)) as [B0 B1].
    destruct (smoothstep_range 0 e uy) as [C0 C1].
    destruct (smoothstep_range 0 e (1 - uy)) as [D0 D1].
    destruct (product_range _ _ A0 A1 B0 B1) as [P0 P1].
    destruct (product_range _ _ P0 P1 C0 C1) as [Q0 Q1].
    destruct (product_range _ _ Q0 Q1 D0 D1) as [R0 R1].
    apply product_range; assumption. }
  split; [exact G |]. apply dispatch_keeps_range; apply G.
Qed.

Lemma image_gray_in_unit_interval_example :
  0 <= image_gray Sample.image_fragment /\ image_gray Sample.image_fragment <= 1.
Proof.
  assert (Hc : is_color (i_color Sample.image_fragment))
    by (vm_compute; repeat split; discriminate).
  assert (L : 0 <= i_invert Sample.image_fragment) by discriminate.
  assert (U : i_invert Sample.image_fragment <= 1) by discriminate.
  exact (proj1 (image_gray_in_unit_interval (program_samplers Sample.math)
                  Sample.image_fragment Hc L U)).
Defined.

End ShaderOutput.

(* ===================================================================== *)
(** * The values of the generated textures *)
(* ===================================================================== *)

Module TextureValues.
Import Texture TextureFacts.

(** ** The values of a generated texture *)

Lemma assign_ranks_length {A : Type} (index : A -> nat) (value : nat -> Z)
    (es : list A) (px : list Z) :
  length (assign_ranks index value es px) = length px.
Proof. unfold assign_ranks. apply (writes_keep_length index value). Qed.

(** When the entries name every pixel once, the loop over the ranks leaves
    the byte of every rank in exactly one pixel. *)
Lemma assign_ranks_perm {A : Type} (index : A -> nat) (value : nat -> Z)
    (es : list A) (px : list Z) :
  map index es ≡ₚ seq 0 (length px) ->
  assign_ranks index value es px
  ≡ₚ map (fun r => to_uint8 (value r)) (seq 0 (length px)).
Proof.
  intros Hp.
  set (out := assign_ranks index value es px).
  assert (Hlen : length out = length px) by apply assign_ranks_length.
  assert (Hes : length es = length px).
  { rewrite <- (length_map index), (Permutation_length Hp). apply length_seq. }
  assert (Hnd : NoDup (map index es)) by (rewrite Hp; apply NoDup_seq).
  assert (Hlt : Forall (fun e => (index e < length px)%nat) es).
  { apply Forall_forall. intros e He.
    assert (Hin : index e ∈ map index es) by (apply list_elem_of_fmap_2, He).
    rewrite Hp in Hin. apply elem_of_seq in Hin. lia. }
  assert (E1 : out = map (fun i => nth i out 0) (seq 0 (length px))).
  { apply list_eq. intros i. rewrite list_lookup_fmap.
    destruct (decide (i < length px)%nat) as [Hi | Hi].
    - rewrite lookup_seq_lt by exact Hi. cbn.
      destruct (lookup_lt_is_Some_2 out i ltac:(lia)) as [v Hv].
      rewrite Hv. f_equal. symmetry. apply nth_lookup_Some, Hv.
    - rewrite (lookup_ge_None_2 out) by lia.
      rewrite (lookup_ge_None_2 (seq 0 (length px))) by (rewrite length_seq; lia).
      reflexivity. }
  assert (E2 : map (fun i => nth i out 0) (map index es)
               = map (fun r => to_uint8 (value r)) (seq 0 (length px))).
  { apply list_eq. intros r. rewrite !list_lookup_fmap.
    destruct (decide (r < length px)%nat) as [Hr | Hr].
    - rewrite lookup_seq_lt by exact Hr. cbn.
      destruct (lookup_lt_is_Some_2 es r ltac:(lia)) as [e He].
      rewrite He. cbn. f_equal.
      apply nth_lookup_Some. exact (assign_ranks_lookup index value es px r e Hnd Hlt He).
    - rewrite (lookup_ge_None_2 es) by lia.
      rewrite (lookup_ge_None_2 (seq 0 (length px))) by (rewrite length_seq; lia).
      reflexivity. }
  rewrite E1, <- E2. apply Permutation_map. symmetry. exact Hp.
Qed.

(** [generateClusteredDot] hands out every rank once: the texture
    holds, in some order, the bytes [floor(rank / n * 255)] of the ranks
    [0 .. n - 1], with [n = size * size]. *)
Theorem clustered_dot_uses_every_rank_once (size : nat) :
  generateClusteredDot size
  ≡ₚ map (fun rank => rank_value rank (size * size)) (seq 0 (size * size)).
Proof.
  unfold generateClusteredDot. cbv zeta.
  rewrite sorted_distances_length.
  rewrite assign_ranks_perm.
  - unfold u8_new. rewrite length_replicate.
    erewrite map_ext_in; [reflexivity |].
    intros r Hr. apply in_seq in Hr. cbv beta.
    apply to_uint8_byte, rank_value_range. lia.
  - unfold u8_new. rewrite length_replicate.
    rewrite (Permutation_map d_idx (stable_sort_perm dist_before (distances size))).
    rewrite distances_indices. reflexivity.
Qed.

Lemma values_indices (M : JSMath) (size : nat) :
  map (v_idx M) (values M size) = seq 0 (size * size).
Proof. unfold values. rewrite map_map. cbn [v_idx]. apply map_id. Qed.

(** An iteration of the refinement loop exchanges two pixels or does
    nothing. *)
Lemma refine_step_perm (M : JSMath) (size pass i : nat) (px : list Z) :
  is_bytes px -> refine_step M size pass i px ≡ₚ px.
Proof.
  intros Hb. unfold refine_step. cbv zeta.
  destruct (_ =? _); [reflexivity |].
  match goal with |- context [u8_get px ?j] =>
    destruct (u8_get px j) as [v1|] eqn:E1 end; [| reflexivity].
  match goal with |- context [u8_get px ?j] =>
    destruct (u8_get px j) as [v2|] eqn:E2 end; [| reflexivity].
  destruct (_ && _); [| reflexivity].
  unfold u8_get in E1, E2.
  destruct (_ <? 0) in E1; [discriminate |].
  destruct (_ <? 0) in E2; [discriminate |].
  rewrite Nat2Z.id in E1.
  assert (B : forall k v, px !! k = Some v -> to_uint8 v = v).
  { intros k v Hk. apply to_uint8_byte.
    unfold is_bytes in Hb. rewrite Forall_lookup in Hb. specialize (Hb k v Hk). lia. }
  unfold u8_set. rewrite (B _ _ E1), (B _ _ E2).
  apply Permutation_insert_swap; assumption.
Qed.

Lemma refine_pass_perm (M : JSMath) (size pass : nat) (px : list Z) :
  is_bytes px -> is_bytes (refine_pass M size px pass) /\ refine_pass M size px pass ≡ₚ px.
Proof.
  unfold refine_pass. generalize (seq 0 (size * size)) as cells.
  intros cells. revert px. induction cells as [|i cells IH]; intros px Hb; cbn [fold_left].
  - split; [exact Hb | reflexivity].
  - destruct (IH (refine_step M size pass i px) (refine_step_bytes M size pass i px Hb))
      as [B P].
    split; [exact B |]. rewrite P. apply refine_step_perm, Hb.
Qed.

(** Whatever the arithmetic of the engine, the refinement passes of
    [generateBlueNoise] only exchange pixels: the texture holds, in some
    order, the bytes that the rank loop wrote, one for every rank
    [0 .. n - 1]. *)
Theorem blue_noise_rearranges_rank_bytes (M : JSMath) (size : nat) :
  generateBlueNoise M size
  ≡ₚ map (fun rank => to_uint8 (rank_byte M (size * size) rank)) (seq 0 (size * size)).
Proof.
  unfold generateBlueNoise. cbv zeta.
  set (ranked := assign_ranks (v_idx M) (rank_byte M (size * size))
                   (stable_sort (val_before M) (values M size)) (u8_new (size * size))).
  assert (Hb : is_bytes ranked) by (apply assign_ranks_bytes, u8_new_bytes).
  assert (Hp : ranked ≡ₚ map (fun rank => to_uint8 (rank_byte M (size * size) rank))
                            (seq 0 (size * size))).
  { unfold ranked. rewrite assign_ranks_perm.
    - unfold u8_new. rewrite length_replicate. reflexivity.
    - unfold u8_new. rewrite length_replicate.
      rewrite (Permutation_map (v_idx M) (stable_sort_perm (val_before M) (values M size))).
      rewrite values_indices. reflexivity. }
  rewrite <- Hp. clear Hp. revert Hb. generalize ranked as px. clear ranked.
  generalize (seq 0 8) as passes.
  induction passes as [|pass passes IH]; intros px Hb; cbn [fold_left]; [reflexivity |].
  destruct (refine_pass_perm M size pass px Hb) as [B P].
  rewrite (IH _ B). exact P.
Qed.

End TextureValues.

(* ===================================================================== *)
(** * The mode that reaches the shader *)
(* ===================================================================== *)

Module DitherParamRange.
Import DitherParam.
Local Open Scope string_scope.

Lemma own_modes (key : string) (v : value) :
  own ditherModes !! key = Some v -> exists n, v = VNumber n /\ 0 <= n <= 7.
Proof.
  intros H. cbn [ditherModes own] in H.
  repeat (apply lookup_insert_Some in H as [[_ <-] | [_ H]];
          [eexists; split; [reflexivity | lia] |]).
  rewrite lookup_empty in H. discriminate.
Qed.

Lemma inherited_values (key : string) (v : value) :
  Object_prototype !! key = Some v -> uniform1i v = 0 /\ v <> VUndefined /\ v <> VNull.
Proof.
  intros H. unfold Object_prototype in H.
  repeat (apply lookup_insert_Some in H as [[_ <-] | [_ H]];
          [repeat split; discriminate |]).
  rewrite lookup_empty in H. discriminate.
Qed.

(** Whatever the query string holds, also nothing, the integer stored
    in [u_ditherMode] is one of the eight modes, for the header and for
    the inline images. *)
Theorem stored_mode_is_one_of_eight (ditherParam : option string) :
  0 <= uniform1i (header_ditherMode ditherParam) <= 7
  /\ 0 <= uniform1i (image_ditherMode ditherParam) <= 7.
Proof.
  assert (G : forall d n, get ditherModes d = VNumber n -> 0 <= n <= 7 ->
              0 <= uniform1i (ditherMode d ditherParam) <= 7).
  { intros d n Hd Hn. unfold ditherMode. rewrite Hd.
    unfold get. cbn [proto ditherModes].
    destruct (own ditherModes !! property_key ditherParam) as [v|] eqn:E.
    - destruct (own_modes _ _ E) as [m [-> Hm]]. cbn [nullish uniform1i].
      rewrite Z.mod_small by lia. lia.
    - destruct (Object_prototype !! property_key ditherParam) as [v|] eqn:E'.
      + destruct (inherited_values _ _ E') as (U & N1 & N2).
        assert (Ev : nullish v (VNumber n) = v) by (destruct v; [congruence | congruence | reflexivity ..]).
        rewrite Ev, U. lia.
      + cbn [nullish uniform1i]. rewrite Z.mod_small by lia. lia. }
  split.
  - apply (G "atkinson" 1); [reflexivity | lia].
  - apply (G "cluster4" 5); [reflexivity | lia].
Qed.

End DitherParamRange.

(* ===================================================================== *)
(** * The first interaction *)
(* ===================================================================== *)

Module HeaderInteraction.
Import Header HeaderFacts.
Local Open Scope string_scope.
Local Open Scope nat_scope.

(** ** No callback registers a listener *)

Lemma update_closure_listeners (s : nat) (f : closure -> closure) (p : page) :
  listeners (update_closure s f p) = listeners p.
Proof. unfold update_closure. destruct (closures p !! s); reflexivity. Qed.

Lemma setupCanvas_listeners (s : nat) (src : source) (a : answers) (p : page) :
  listeners (setupCanvas s src a p) = listeners p.
Proof.
  unfold setupCanvas. destruct (negb (hasSize a)); [reflexivity |].
  apply update_closure_listeners.
Qed.

Lemma cleanup_shrinks (p : page) (l : listener) :
  l ∈ listeners (cleanup p) -> l ∈ listeners p.
Proof.
  destruct (currentState p) as [cs|] eqn:E.
  - intros H. exact (proj1 (cleanup_listeners p cs l E H)).
  - rewrite (cleanup_none p E). auto.
Qed.

Lemma render_shrinks (s : nat) (a : answers) (p : page) (l : listener) :
  l ∈ listeners (render s a p) -> l ∈ listeners p.
Proof.
  unfold render.
  destruct (negb (isConnected a)); [apply cleanup_shrinks |].
  destruct (closures p !! s) as [c|]; [| auto].
  destruct (c_currentSource c) as [[|]|]; auto.
  destruct (c_videoPlaying c); [| auto].
  unfold requestAnimationFrame. cbv zeta.
  match goal with
  | |- l ∈ listeners (match currentState ?q with _ => _ end) -> _ =>
      assert (Eq : listeners q = listeners p)
        by (rewrite update_closure_listeners; reflexivity);
      destruct (currentState q); cbn [listeners set_currentState]; rewrite Eq; auto
  end.
Qed.

Lemma tryPlayVideo_listeners (s : nat) (p : page) :
  listeners (tryPlayVideo s p) = listeners p.
Proof.
  unfold tryPlayVideo. destruct (closures p !! s) as [c|]; [| reflexivity].
  destruct (c_videoPlaying c); reflexivity.
Qed.

Lemma removeEventListener_listeners (t : target) (type : string) (h : handler)
    (p : page) (l : listener) :
  l ∈ listeners (removeEventListener t type h p)
  <-> l ∈ listeners p /\ l <> {| l_target := t; l_type := type; l_handler := h |}.
Proof.
  unfold removeEventListener. cbn [listeners set_listeners].
  rewrite list_elem_of_filter. tauto.
Qed.

Lemma run_handler_shrinks (h : handler) (a : answers) (p : page) (l : listener) :
  l ∈ listeners (run_handler h a p) -> l ∈ listeners p.
Proof.
  destruct h as [s|s|s|s|s]; cbn [run_handler].
  - rewrite !removeEventListener_listeners, tryPlayVideo_listeners. tauto.
  - repeat match goal with |- context [if ?b then _ else _] => destruct b end;
      rewrite ?setupCanvas_listeners; auto.
  - destruct (_ && _); [apply render_shrinks | auto].
  - destruct (source_is s None p); [| auto].
    intros H. apply render_shrinks in H. rewrite setupCanvas_listeners in H. exact H.
  - auto.
Qed.

Lemma handlers_shrink (a : answers) (L : list listener) (p : page) (l : listener) :
  l ∈ listeners (fold_left (fun p l => run_handler (l_handler l) a p) L p) ->
  l ∈ listeners p.
Proof.
  revert p. induction L as [|l0 L IH]; intros p; cbn [fold_left]; [auto |].
  intros H. apply IH in H. exact (run_handler_shrinks _ _ _ _ H).
Qed.

(** [onFirstInteraction] runs once: when one of the four events that
    it is registered for reaches [document], it is registered for none of
    them afterwards, whatever else the listeners of that event did. *)
Theorem first_interaction_is_one_shot
    (p : page) (s : nat) (type type' : string) (a : answers) :
  {| l_target := Document; l_type := type; l_handler := OnFirstInteraction s |}
    ∈ listeners p ->
  type' ∈ ["click"; "touchstart"; "keydown"; "scroll"] ->
  {| l_target := Document; l_type := type'; l_handler := OnFirstInteraction s |}
    ∉ listeners (step (Dispatch Document type a) p).
Proof.
  intros Hreg Htype. cbn [step].
  set (l0 := {| l_target := Document; l_type := type;
                l_handler := OnFirstInteraction s |}) in *.
  assert (Hin : l0 ∈ filter (fun l => l_target l = Document ∧ l_type l = type)
                       (listeners p)).
  { apply list_elem_of_filter. split; [split; reflexivity | exact Hreg]. }
  revert Hin. generalize (filter (fun l => l_target l = Document ∧ l_type l = type)
                                 (listeners p)) as L.
  clear Hreg. intros L. revert p.
  induction L as [|l L IH]; intros p Hin; [inversion Hin |].
  cbn [fold_left]. apply elem_of_cons in Hin as [<- | Hin]; [| apply IH, Hin].
  intros H. apply handlers_shrink in H.
  cbn [l0 l_handler run_handler] in H.
  rewrite !removeEventListener_listeners in H.
  rewrite !elem_of_cons, elem_of_nil in Htype.
  destruct H as ((((_ & H1) & H2) & H3) & H4).
  destruct Htype as [-> | [-> | [-> | [-> | []]]]]; congruence.
Qed.

Lemma first_interaction_is_one_shot_click :
  {| l_target := Document; l_type := "click"; l_handler := OnFirstInteraction 0 |}
    ∈ listeners (run [Init true true true] initial)
  /\ {| l_target := Document; l_type := "keydown"; l_handler := OnFirstInteraction 0 |}
       ∉ listeners (step (Dispatch Document "click" yes) (run [Init true true true] initial)).
Proof.
  assert (H : {| l_target := Document; l_type := "click";
                 l_handler := OnFirstInteraction 0 |}
                ∈ listeners (run [Init true true true] initial)).
  { apply (bool_decide_unpack _). vm_compute. exact I. }
  split; [exact H |].
  apply (first_interaction_is_one_shot _ 0 "click" "keydown" yes H).
  apply (bool_decide_unpack _). vm_compute. exact I.
Defined.

End HeaderInteraction.
